(** * The split client of pkg/restore (split_client.go)

    A shallow embedding of [pdClient]: the store cache, the locator calls
    and the split executor with its bounded retry loop.  The Go code talks
    to three collaborators (the PD client, gRPC dialing, the TiKV split
    RPC); they are kept abstract as an environment of handlers over an
    arbitrary world type, so every theorem holds for every cluster
    behaviour.  The client itself is written in a state, error and panic
    monad whose state carries the world, the client's store cache, the
    heap of [RegionInfo] objects reachable through pointers, and the log
    of external calls made so far. *)

From Stdlib Require Import NArith Lia.
From stdpp Require Import base option list gmap strings.

Open Scope N_scope.

(** ** Protocol messages (kvproto), with the fields the client reads *)

Module metapb.

Record Peer := mkPeer { Peer_Id : N; Peer_StoreId : N }.

Record RegionEpoch := mkEpoch { ConfVer : N; Version : N }.

Record Region := mkRegion {
  Region_Id : N;
  StartKey : list Byte.byte;
  EndKey : list Byte.byte;
  Region_RegionEpoch : option RegionEpoch;
  Peers : list Peer }.

Record Store := mkStore { Store_Id : N; Address : string }.

(** Generated getters are nil-safe: on a nil receiver they return the
    zero value. *)
Definition GetStoreId (p : option Peer) : N :=
  match p with Some p => Peer_StoreId p | None => 0 end.

Definition GetAddress (s : option Store) : string :=
  match s with Some s => Address s | None => EmptyString end.

Definition GetConfVer (e : option RegionEpoch) : N :=
  match e with Some e => ConfVer e | None => 0 end.

Definition GetVersion (e : option RegionEpoch) : N :=
  match e with Some e => Version e | None => 0 end.

End metapb.

Module errorpb.

Record NotLeader := mkNotLeader {
  RegionId : N;
  Leader : option metapb.Peer }.

(** [errorpb.Error] is a struct of optional sub-messages, not a sum: the
    client tests the fields one after the other.  The sub-messages whose
    content is never read are kept as presence flags. *)
Record Error := mkError {
  Message : string;
  NotLeader_ : option NotLeader;
  RegionNotFound : bool;
  KeyNotInRegion : bool;
  EpochNotMatch : bool;
  ServerIsBusy : bool;
  StaleCommand : bool }.

End errorpb.

Module kvrpcpb.

Record Context := mkContext {
  RegionId : N;
  RegionEpoch : option metapb.RegionEpoch;
  Peer : option metapb.Peer }.

Record SplitRegionRequest := mkRequest {
  Context_ : Context;
  SplitKey : list Byte.byte;
  SplitKeys : list (list Byte.byte) }.

Record SplitRegionResponse := mkResponse {
  RegionError : option errorpb.Error;
  Left : option metapb.Region;
  Right : option metapb.Region;
  Regions : list metapb.Region }.

End kvrpcpb.

Import metapb.

(** [RegionInfo] pairs a region with its believed leader.  The type is
    declared in another file of the package; its two fields are the ones
    split_client.go builds and reads.  [Region] is never nil in a value
    built by this client: the PD client only returns regions with their
    [Meta] set.  [Leader] may be nil. *)
Record RegionInfo := mkRegionInfo {
  Region : metapb.Region;
  Leader : option metapb.Peer }.

(** ** Errors *)

(** The causes the client can report.  [ErrRestoreNoPeer] is the no-peer
    error of the batch path (lines 258-259), whose message names the
    region; [ErrRestoreNoPeerUnnamed] is the one of the single-key split
    (line 141), whose message does not.  [ErrExternal] stands for an error
    produced by a collaborator (PD, gRPC), identified by a code. *)
Inductive cause :=
| ErrRestoreNoPeer (regionID : N)
| ErrRestoreNoPeerUnnamed
| ErrRestoreSplitFailed (regionErr : errorpb.Error)
| ErrRestoreSplitFailedNewRegionNil
| ErrKVEpochNotMatch
| ErrExternal (code : N).

(** A Go [error] as the flat list of its causes: the empty list is [nil], a
    singleton is a plain error, a longer list is a [multierr] value. *)
Definition error := list cause.

(** [multierr.Append] flattens both sides and drops nil. *)
Definition multierr_Append (left right : error) : error := left ++ right.

(** [errors.Trace] and [errors.Annotate] only attach a stack and a message. *)
Definition errors_Trace (e : error) : error := e.

Definition splitRegionMaxRetryTime : nat := 4.

(** The request of lines 236-243: the region's identifier and epoch, the
    peer addressed, and the keys. *)
Definition batchRequest (regionInfo : RegionInfo) (peer : metapb.Peer)
    (keys : list (list Byte.byte)) : kvrpcpb.SplitRegionRequest :=
  kvrpcpb.mkRequest
    (kvrpcpb.mkContext (metapb.Region_Id (Region regionInfo))
                       (metapb.Region_RegionEpoch (Region regionInfo))
                       (Some peer))
    [] keys.

(** ** State, environment and the client monad *)

(** A pointer to a [RegionInfo] on the heap. *)
Abbreviation ptr := nat (only parsing).

(** A gRPC connection handle. *)
Abbreviation conn := N (only parsing).

Inductive event :=
| EvPdGetStore (storeID : N)
| EvPdGetRegionByID (regionID : N)
| EvDial (addr : string) (secure : bool)
| EvSplitRegion (cn : conn) (req : kvrpcpb.SplitRegionRequest)
    (res : error + kvrpcpb.SplitRegionResponse)
| EvClose (cn : conn).

Section Client.

(** The cluster outside the client. *)
Context {W : Type}.

(** The collaborators.  Each handler may change the world; a handler that
    returns [inl e] reports the Go error [e]. *)
Record Env := mkEnv {
  (* pd.Client.GetStore; the store may be nil without an error *)
  pd_GetStore : N -> W -> (cause + option Store) * W;
  (* pd.Client.GetRegionByID; nil when PD does not know the region; a
     pd.Region has a Meta and a Leader, as a RegionInfo has *)
  pd_GetRegionByID : N -> W -> (cause + option RegionInfo) * W;
  (* grpc.Dial with or without transport credentials *)
  grpc_Dial : string -> bool -> W -> (cause + conn) * W;
  (* tikvpb.TikvClient.SplitRegion over a connection *)
  tikv_SplitRegion :
    conn -> kvrpcpb.SplitRegionRequest -> W ->
    (cause + kvrpcpb.SplitRegionResponse) * W;
  (* grpc.ClientConn.Close *)
  conn_Close : conn -> W -> W }.

Record state := mkState {
  world : W;
  (* pdClient.tlsConf != nil *)
  tlsConf : bool;
  (* pdClient.storeCache *)
  storeCache : gmap N (option Store);
  (* the RegionInfo objects behind the pointers in play *)
  heap : list RegionInfo;
  (* connections whose Close is deferred by the running function *)
  deferred : list conn;
  (* the external calls made so far, oldest first *)
  trace : list event }.

Definition set_world (w : W) (s : state) : state :=
  mkState w (tlsConf s) (storeCache s) (heap s) (deferred s) (trace s).
Definition set_storeCache (c : gmap N (option Store)) (s : state) : state :=
  mkState (world s) (tlsConf s) c (heap s) (deferred s) (trace s).
Definition set_heap (h : list RegionInfo) (s : state) : state :=
  mkState (world s) (tlsConf s) (storeCache s) h (deferred s) (trace s).
Definition set_deferred (d : list conn) (s : state) : state :=
  mkState (world s) (tlsConf s) (storeCache s) (heap s) d (trace s).
Definition log_event (e : event) (s : state) : state :=
  mkState (world s) (tlsConf s) (storeCache s) (heap s) (deferred s)
          (trace s ++ [e]).

(** How a call ends: with a value, with a Go error, or with a run-time
    panic (a nil pointer dereference). *)
Inductive outcome (A : Type) :=
| Ok (a : A)
| Err (e : error)
| Panic.
Global Arguments Ok {A} a.
Global Arguments Err {A} e.
Global Arguments Panic {A}.

Definition M (A : Type) := state -> outcome A * state.

Definition ret {A} (a : A) : M A := fun s => (Ok a, s).
Definition fail {A} (e : error) : M A := fun s => (Err e, s).
Definition panic {A} : M A := fun s => (Panic, s).
Definition bind {A B} (m : M A) (k : A -> M B) : M B :=
  fun s =>
    match m s with
    | (Ok a, s') => k a s'
    | (Err e, s') => (Err e, s')
    | (Panic, s') => (Panic, s')
    end.

End Client.

Arguments Env W : clear implicits.
Arguments state W : clear implicits.
Arguments M W A : clear implicits.

Notation "'let!' x ':=' m 'in' k" := (bind m (fun x => k))
  (at level 10, x name, m at level 100, k at level 200, only parsing).
Notation "'do!' m 'in' k" := (bind m (fun _ => k))
  (at level 10, m at level 100, k at level 200, only parsing).

(** ** The client *)

Section PdClient.

Context {W : Type}.

(** The PD client and the transport the [pdClient] wraps. *)
Variable env : Env W.

(** [checkRegionEpoch] is called at split_client.go:296 and declared in
    another file of the package; the executor is embedded for every
    implementation of it.  A version that follows the spec's wording is
    [epochDominates] below. *)
Variable checkRegionEpoch : RegionInfo -> RegionInfo -> bool.

(** *** Calls to the collaborators, each logged in the trace *)

Definition call_pd_GetStore (storeID : N) : M W (option Store) :=
  fun s =>
    let '(r, w) := pd_GetStore env storeID (world s) in
    let s' := log_event (EvPdGetStore storeID) (set_world w s) in
    match r with
    | inl e => (Err [e], s')
    | inr store => (Ok store, s')
    end.

Definition call_pd_GetRegionByID (regionID : N) : M W (option RegionInfo) :=
  fun s =>
    let '(r, w) := pd_GetRegionByID env regionID (world s) in
    let s' := log_event (EvPdGetRegionByID regionID) (set_world w s) in
    match r with
    | inl e => (Err [e], s')
    | inr region => (Ok region, s')
    end.

Definition call_grpc_Dial (addr : string) (secure : bool) : M W conn :=
  fun s =>
    let '(r, w) := grpc_Dial env addr secure (world s) in
    let s' := log_event (EvDial addr secure) (set_world w s) in
    match r with
    | inl e => (Err [e], s')
    | inr cn => (Ok cn, s')
    end.

Definition call_tikv_SplitRegion (cn : conn)
    (req : kvrpcpb.SplitRegionRequest) : M W kvrpcpb.SplitRegionResponse :=
  fun s =>
    let '(r, w) := tikv_SplitRegion env cn req (world s) in
    match r with
    | inl e => (Err [e], log_event (EvSplitRegion cn req (inl [e])) (set_world w s))
    | inr resp => (Ok resp, log_event (EvSplitRegion cn req (inr resp)) (set_world w s))
    end.

Definition call_conn_Close (cn : conn) (s : state W) : state W :=
  log_event (EvClose cn) (set_world (conn_Close env cn (world s)) s).

(** *** Pointers and deferred calls *)

(** Reading through a pointer; a dangling pointer plays the part of nil. *)
Definition load (p : ptr) : M W RegionInfo :=
  fun s =>
    match heap s !! p with
    | Some ri => (Ok ri, s)
    | None => (Panic, s)
    end.

(** [&RegionInfo{...}]: a fresh object. *)
Definition alloc (ri : RegionInfo) : M W ptr :=
  fun s => (Ok (length (heap s)), set_heap (heap s ++ [ri]) s).

(** [regionInfo.Leader = leader]: a write through the pointer, seen by
    every holder of it. *)
Definition store_Leader (p : ptr) (leader : option Peer) : M W unit :=
  fun s =>
    match heap s !! p with
    | Some ri =>
        (Ok tt, set_heap (<[p := mkRegionInfo (Region ri) leader]> (heap s)) s)
    | None => (Panic, s)
    end.

Definition get_tlsConf : M W bool := fun s => (Ok (tlsConf s), s).

(** [defer conn.Close()] *)
Definition defer_Close (cn : conn) : M W unit :=
  fun s => (Ok tt, set_deferred (cn :: deferred s) s).

(** Replace the error of a failing call, as in
    [if err != nil { return nil, f(err) }]. *)
Definition or_return {A} (m : M W A) (f : error -> error) : M W A :=
  fun s =>
    match m s with
    | (Err e, s') => (Err (f e), s')
    | r => r
    end.

(** A function body with its deferred calls: they run when the function
    returns, last deferred first, whatever the way it ends. *)
Definition with_deferred {A} (body : M W A) : M W A :=
  fun s =>
    let '(r, s1) := body (set_deferred [] s) in
    (r, set_deferred (deferred s) (foldl (fun st cn => call_conn_Close cn st) s1 (deferred s1))).

(** *** GetStore (lines 92-105) *)

Definition GetStore (storeID : N) : M W (option Store) :=
  fun s =>
    match storeCache s !! storeID with
    | Some store => (Ok store, s)
    | None =>
        (let! store := or_return (call_pd_GetStore storeID) errors_Trace in
         fun s' =>
           (Ok store, set_storeCache (<[storeID := store]> (storeCache s')) s')) s
    end.

(** *** GetRegionByID (lines 121-133) *)

Definition GetRegionByID (regionID : N) : M W (option ptr) :=
  let! region := or_return (call_pd_GetRegionByID regionID) errors_Trace in
  match region with
  | None => ret None
  | Some r =>
      let! p := alloc (mkRegionInfo (Region r) (Leader r)) in
      ret (Some p)
  end.

(** *** sendSplitRegionRequest (lines 246-327) *)

(** Lines 251-262: the peer an attempt addresses; [None] when the leader is
    unusable and the region has no peer. *)
Definition choosePeer (regionInfo : RegionInfo) : option Peer :=
  match Leader regionInfo with
  | Some leader =>
      if negb (Peer_Id leader =? 0) then Some leader
      else head (Peers (Region regionInfo))
  | None => head (Peers (Region regionInfo))
  end.

(** Lines 207-244.  [failpoint.Inject] is an empty marker function in a
    regular build, so only the RPC remains. *)
Definition splitRegionWithFailpoint (regionInfo : RegionInfo) (peer : Peer)
    (client : conn) (keys : list (list Byte.byte))
    : M W kvrpcpb.SplitRegionResponse :=
  call_tikv_SplitRegion client (batchRequest regionInfo peer keys).

(** Lines 251-281: choose the peer, resolve its store, dial, send. *)
Definition sendOnce (splitErrors : error) (regionInfo : ptr)
    (keys : list (list Byte.byte)) : M W (Peer * kvrpcpb.SplitRegionResponse) :=
  let! ri := load regionInfo in
  let! peer := match choosePeer ri with
          | Some peer => ret peer
          | None =>
              fail (multierr_Append splitErrors
                      [ErrRestoreNoPeer (Region_Id (Region ri))])
          end in
  let! store := or_return (GetStore (Peer_StoreId peer))
                     (multierr_Append splitErrors) in
  let! secure := get_tlsConf in
  let! cn := or_return (call_grpc_Dial (GetAddress store) secure)
                  (multierr_Append splitErrors) in
  do! defer_Close cn in
  let! resp := or_return (splitRegionWithFailpoint ri peer cn keys)
                    (multierr_Append splitErrors) in
  ret (peer, resp).

(** What one iteration of the loop decides: [return resp, nil], or
    [continue] with the accumulated errors and the working pointer. *)
Inductive control :=
| Done (resp : kvrpcpb.SplitRegionResponse)
| Retry (splitErrors : error) (regionInfo : ptr).

(** Lines 282-324: the reading of the response. *)
Definition interpret (splitErrors : error) (regionInfo : ptr)
    (resp : kvrpcpb.SplitRegionResponse) : M W control :=
  match kvrpcpb.RegionError resp with
  | None => ret (Done resp)
  | Some regionErr =>
      let splitErrors :=
        multierr_Append splitErrors [ErrRestoreSplitFailed regionErr] in
      match errorpb.NotLeader_ regionErr with
      | Some nl =>
          match errorpb.Leader nl with
          | Some leader =>
              do! store_Leader regionInfo (Some leader) in
              ret (Retry splitErrors regionInfo)
          | None =>
              let! newRegionInfo := or_return (GetRegionByID (errorpb.RegionId nl))
                                         (multierr_Append splitErrors) in
              match newRegionInfo with
              | None => panic  (* the epoch check reads through nil *)
              | Some np =>
                  let! new := load np in
                  let! old := load regionInfo in
                  if negb (checkRegionEpoch new old)
                  then fail (multierr_Append splitErrors [ErrKVEpochNotMatch])
                  else
                    match Leader new with
                    | None => panic  (* line 299: newRegionInfo.Leader.Id *)
                    | Some _ => ret (Retry splitErrors np)
                    end
              end
          end
      | None =>
          if errorpb.ServerIsBusy regionErr || errorpb.StaleCommand regionErr
          then ret (Retry splitErrors regionInfo)
          else fail (errors_Trace splitErrors)
      end
  end.

(** One iteration of the loop (lines 251-324). *)
Definition attempt (splitErrors : error) (regionInfo : ptr)
    (keys : list (list Byte.byte)) : M W control :=
  let! pr := sendOnce splitErrors regionInfo keys in
  interpret splitErrors regionInfo (snd pr).

(** The loop [for i := 0; i < splitRegionMaxRetryTime; i++] with [n]
    iterations left, and line 326 after it. *)
Fixpoint retry (n : nat) (splitErrors : error) (regionInfo : ptr)
    (keys : list (list Byte.byte)) : M W kvrpcpb.SplitRegionResponse :=
  match n with
  | O => fail (errors_Trace splitErrors)
  | S n' =>
      let! c := attempt splitErrors regionInfo keys in
      match c with
      | Done resp => ret resp
      | Retry splitErrors' regionInfo' => retry n' splitErrors' regionInfo' keys
      end
  end.

Definition sendSplitRegionRequest (regionInfo : ptr)
    (keys : list (list Byte.byte)) : M W kvrpcpb.SplitRegionResponse :=
  with_deferred (retry splitRegionMaxRetryTime [] regionInfo keys).

(** *** BatchSplitRegionsWithOrigin (lines 329-366) *)

(** Lines 341-351 and 191-200: the peer of [peers] on the store of
    [leader], nil when the leader is nil or no peer is there. *)
Definition leaderOnSameStore (leader : option Peer) (peers : list Peer)
    : option Peer :=
  match leader with
  | Some l => find (fun p => Peer_StoreId p =? Peer_StoreId l) peers
  | None => None
  end.

(** The body of the loop over [resp.GetRegions()], on the pair
    [(originRegion, newRegionInfos)]. *)
Definition classify (regionInfo : RegionInfo)
    (acc : option RegionInfo * list RegionInfo) (region : metapb.Region)
    : option RegionInfo * list RegionInfo :=
  let leader := leaderOnSameStore (Leader regionInfo) (Peers region) in
  if Region_Id region =? Region_Id (Region regionInfo)
  then (Some (mkRegionInfo region leader), snd acc)
  else (fst acc, snd acc ++ [mkRegionInfo region leader]).

Definition BatchSplitRegionsWithOrigin (regionInfo : ptr)
    (keys : list (list Byte.byte))
    : M W (option RegionInfo * list RegionInfo) :=
  let! resp := or_return (sendSplitRegionRequest regionInfo keys) errors_Trace in
  let! ri := load regionInfo in
  ret (foldl (classify ri) (None, []) (kvrpcpb.Regions resp)).

(** *** BatchSplitRegions (lines 368-373) *)

Definition BatchSplitRegions (regionInfo : ptr)
    (keys : list (list Byte.byte)) : M W (list RegionInfo) :=
  let! r := BatchSplitRegionsWithOrigin regionInfo keys in
  ret (snd r).

(** *** SplitRegion (lines 135-205) *)

(** [bytes.Equal]; a nil slice and an empty one are equal. *)
Fixpoint bytes_Equal (a b : list Byte.byte) : bool :=
  match a, b with
  | [], [] => true
  | x :: a', y :: b' => Byte.eqb x y && bytes_Equal a' b'
  | _, _ => false
  end.

Definition SplitRegion (regionInfo : ptr) (key : list Byte.byte)
    : M W RegionInfo :=
  with_deferred (
    let! ri := load regionInfo in
    let! peer := match Leader ri with
            | Some leader => ret leader
            | None =>
                match Peers (Region ri) with
                | [] => fail [ErrRestoreNoPeerUnnamed]
                | p :: _ => ret p
                end
            end in
    let! store := or_return (GetStore (Peer_StoreId peer)) errors_Trace in
    let! cn := or_return (call_grpc_Dial (GetAddress store) false) errors_Trace in
    do! defer_Close cn in
    let! resp := or_return
              (call_tikv_SplitRegion cn
                 (kvrpcpb.mkRequest
                    (kvrpcpb.mkContext (Region_Id (Region ri))
                                       (Region_RegionEpoch (Region ri))
                                       (Some peer))
                    key []))
              errors_Trace in
    match kvrpcpb.RegionError resp with
    | Some regionErr => fail [ErrRestoreSplitFailed regionErr]
    | None =>
        let newRegion :=
          match kvrpcpb.Left resp with
          | Some l => Some l
          | None =>
              find (fun r => bytes_Equal (StartKey r) (StartKey (Region ri)))
                   (kvrpcpb.Regions resp)
          end in
        match newRegion with
        | None => fail [ErrRestoreSplitFailedNewRegionNil]
        | Some newRegion =>
            ret (mkRegionInfo newRegion
                   (leaderOnSameStore (Leader ri) (Peers newRegion)))
        end
    end).

End PdClient.

Arguments control : clear implicits.

(** ** What a run shows *)

(** The split requests sent, oldest first, with the answer each got. *)
Definition rpcs (tr : list event)
    : list (kvrpcpb.SplitRegionRequest * (error + kvrpcpb.SplitRegionResponse)) :=
  omap (fun e => match e with
                 | EvSplitRegion _ req res => Some (req, res)
                 | _ => None
                 end) tr.

(** The by-ID lookups made. *)
Definition lookups (tr : list event) : list N :=
  omap (fun e => match e with
                 | EvPdGetRegionByID id => Some id
                 | _ => None
                 end) tr.

(** The store fetches made. *)
Definition fetches (tr : list event) : list N :=
  omap (fun e => match e with
                 | EvPdGetStore id => Some id
                 | _ => None
                 end) tr.

(** The region errors among the answers, oldest first. *)
Definition regionErrors
    (l : list (kvrpcpb.SplitRegionRequest * (error + kvrpcpb.SplitRegionResponse)))
    : list errorpb.Error :=
  omap (fun qa => match snd qa with
                  | inr resp => kvrpcpb.RegionError resp
                  | inl _ => None
                  end) l.

(** The region errors after which the loop goes on (lines 288 and 312),
    in the order the code tests them. *)
Definition retryable (e : errorpb.Error) : bool :=
  match errorpb.NotLeader_ e with
  | Some _ => true
  | None => errorpb.ServerIsBusy e || errorpb.StaleCommand e
  end.

(** What a run of the loop that sent the requests [l] may return: an
    error starts with the errors accumulated before, followed by one cause
    per region error answered; an answer whose error is not retryable is
    the last one, and the error returned then stops at its cause; every
    answer but the last carried a retryable region error; a response
    returned is the last answer and carries no region error. *)
Definition history (acc : error)
    (l : list (kvrpcpb.SplitRegionRequest * (error + kvrpcpb.SplitRegionResponse)))
    (r : outcome kvrpcpb.SplitRegionResponse) : Prop :=
  (forall es, r = Err es ->
     exists tail, es = acc ++ map ErrRestoreSplitFailed (regionErrors l) ++ tail)
  /\ (forall i q resp e,
        l !! i = Some (q, inr resp) ->
        kvrpcpb.RegionError resp = Some e ->
        retryable e = false ->
        S i = length l
        /\ r = Err (acc ++ map ErrRestoreSplitFailed (regionErrors l)))
  /\ (forall i, (S i < length l)%nat ->
        exists q resp e,
          l !! i = Some (q, inr resp)
          /\ kvrpcpb.RegionError resp = Some e /\ retryable e = true)
  /\ (forall resp, r = Ok resp ->
        exists q, last l = Some (q, inr resp)
                  /\ kvrpcpb.RegionError resp = None).

(** The leader the caller's [RegionInfo] ends up with, from the one it had
    and the answers received while the loop still worked on the caller's
    object: each NotLeader answer with a leader overwrites it (line 290);
    after a NotLeader answer without one the loop works on the object of
    the fresh lookup (line 300) and the caller's is written no more. *)
Fixpoint hintedLeader (leader : option Peer)
    (l : list (kvrpcpb.SplitRegionRequest * (error + kvrpcpb.SplitRegionResponse)))
    : option Peer :=
  match l with
  | (_, inr resp) :: rest =>
      match kvrpcpb.RegionError resp with
      | Some e =>
          match errorpb.NotLeader_ e with
          | Some nl =>
              match errorpb.Leader nl with
              | Some h => hintedLeader (Some h) rest
              | None => leader
              end
          | None => hintedLeader leader rest
          end
      | None => leader
      end
  | _ => leader
  end.

(** ** Properties of the client *)

(** Modelled from the spec: [checkRegionEpoch], which split_client.go calls
    on line 296 and which is declared in another file of the package.  The
    spec lets the loop go on when the epoch of the fresh lookup dominates
    or equals the one of the working region: both components, the
    configuration version and the version, are at least as large. *)
Definition epochDominates (new old : RegionInfo) : bool :=
  (GetConfVer (Region_RegionEpoch (Region old))
     <=? GetConfVer (Region_RegionEpoch (Region new)))
  && (GetVersion (Region_RegionEpoch (Region old))
        <=? GetVersion (Region_RegionEpoch (Region new))).


(** The batch split as the interface words it: the new regions of
    [BatchSplitRegionsWithOrigin], with its error and its effects, the
    origin being dropped. *)
Definition BatchSplitRegions_spec {W} (env : Env W)
    (checkRegionEpoch : RegionInfo -> RegionInfo -> bool)
    (regionInfo : ptr) (keys : list (list Byte.byte)) : M W (list RegionInfo) :=
  fun s =>
    match BatchSplitRegionsWithOrigin env checkRegionEpoch regionInfo keys s with
    | (Ok (_, newRegions), s') => (Ok newRegions, s')
    | (Err err, s') => (Err err, s')
    | (Panic, s') => (Panic, s')
    end.

(** The life of a client after a state: calls of its methods, and steps of
    the rest of the program and of the cluster, which may change anything
    but the client's own fields.  The methods of [pdClient] that are not
    embedded here (GetRegion, ScanRegions, ScatterRegion, GetOperator and
    the placement-rule and label calls) only talk to PD and count as such
    outside steps. *)
Inductive later {W} (env : Env W)
    (checkRegionEpoch : RegionInfo -> RegionInfo -> bool)
    : state W -> state W -> Prop :=
| later_refl s : later env checkRegionEpoch s s
| later_outside s s1 s' :
    storeCache s1 = storeCache s -> tlsConf s1 = tlsConf s ->
    later env checkRegionEpoch s1 s' -> later env checkRegionEpoch s s'
| later_GetStore id s s' :
    later env checkRegionEpoch (snd (GetStore env id s)) s' ->
    later env checkRegionEpoch s s'
| later_GetRegionByID id s s' :
    later env checkRegionEpoch (snd (GetRegionByID env id s)) s' ->
    later env checkRegionEpoch s s'
| later_SplitRegion p key s s' :
    later env checkRegionEpoch (snd (SplitRegion env p key s)) s' ->
    later env checkRegionEpoch s s'
| later_BatchSplitRegionsWithOrigin p keys s s' :
    later env checkRegionEpoch
          (snd (BatchSplitRegionsWithOrigin env checkRegionEpoch p keys s)) s' ->
    later env checkRegionEpoch s s'
| later_BatchSplitRegions p keys s s' :
    later env checkRegionEpoch
          (snd (BatchSplitRegions env checkRegionEpoch p keys s)) s' ->
    later env checkRegionEpoch s s'.

(** What the calls to the collaborators leave untouched. *)
Definition same_client {W} (s s' : state W) : Prop :=
  tlsConf s' = tlsConf s /\ storeCache s' = storeCache s
  /\ heap s' = heap s /\ deferred s' = deferred s.

(** No entry of the store cache is dropped or changed. *)
Definition cache_incl {W} (s s' : state W) : Prop :=
  forall id v, storeCache s !! id = Some v -> storeCache s' !! id = Some v.

(** A computation that never drops an entry of the store cache. *)
Definition keeps_cache {W A} (m : M W A) : Prop :=
  forall s r s', m s = (r, s') -> cache_incl s s'.

(** A region of the answer with the leader recorded for it. *)
Definition withLeader (leader : option Peer) (region : metapb.Region)
    : RegionInfo :=
  mkRegionInfo region (leaderOnSameStore leader (Peers region)).

(** The test of line 353. *)
Definition sameId (regionInfo : RegionInfo) (region : metapb.Region) : bool :=
  Region_Id region =? Region_Id (Region regionInfo).


(** ** Statements that do not hold as they are worded *)

(** Every successful batch split returns an origin, and it has the
    identifier of the region that was split. *)
Definition batch_origin_always_found : Prop :=
  forall W (env : Env W) checkRegionEpoch p keys s ri origin news s',
    heap s !! p = Some ri ->
    BatchSplitRegionsWithOrigin env checkRegionEpoch p keys s
    = (Ok (origin, news), s') ->
    exists x, origin = Some x
              /\ Region_Id (Region x) = Region_Id (Region ri).

(** The single-key split returns the region with the identifier of the
    region that was split, whatever the left field of the answer holds. *)
Definition single_split_returns_same_identifier : Prop :=
  forall W (env : Env W) p key s ri x s',
    heap s !! p = Some ri ->
    SplitRegion env p key s = (Ok x, s') ->
    Region_Id (Region x) = Region_Id (Region ri).

(** After a NotLeader answer carrying a leader, the next attempt addresses
    that leader, whatever it is. *)
Definition hinted_leader_always_addressed : Prop :=
  forall W (env : Env W) checkRegionEpoch acc p keys s peer resp s1 e nl h c s2,
    sendOnce env acc p keys s = (Ok (peer, resp), s1) ->
    kvrpcpb.RegionError resp = Some e ->
    errorpb.NotLeader_ e = Some nl ->
    errorpb.Leader nl = Some h ->
    attempt env checkRegionEpoch acc p keys s = (c, s2) ->
    forall acc2 peer2 resp2 s3,
      sendOnce env acc2 p keys s2 = (Ok (peer2, resp2), s3) ->
      peer2 = h.



(** ** Concrete regions and clusters *)

(** A scripted cluster.  The world is the list of answers the split RPC and the by-ID lookup
    still have to give; every store resolves and every dial succeeds. *)
Record script := mkScript {
  rpc_answers : list (cause + kvrpcpb.SplitRegionResponse);
  lookup_answers : list (cause + option RegionInfo) }.

Definition scripted : Env script :=
  {| pd_GetStore := fun id w => (inr (Some (mkStore id "tikv")), w);
     pd_GetRegionByID := fun _ w =>
       match lookup_answers w with
       | a :: rest => (a, mkScript (rpc_answers w) rest)
       | [] => (inl (ErrExternal 404), w)
       end;
     grpc_Dial := fun _ _ w => (inr 1, w);
     tikv_SplitRegion := fun _ _ w =>
       match rpc_answers w with
       | a :: rest => (a, mkScript rest (lookup_answers w))
       | [] => (inl (ErrExternal 503), w)
       end;
     conn_Close := fun _ w => w |}.

Definition initial {W} (w : W) (objects : list RegionInfo) : state W :=
  mkState w false ∅ objects [] [].

(** Region errors and answers. *)
Definition busy : errorpb.Error :=
  errorpb.mkError "busy" None false false false true false.
Definition notFound : errorpb.Error :=
  errorpb.mkError "gone" None true false false false false.
Definition notLeader (id : N) (l : option Peer) : errorpb.Error :=
  errorpb.mkError "not leader" (Some (errorpb.mkNotLeader id l))
                  false false false false false.
Definition failed (e : errorpb.Error) : cause + kvrpcpb.SplitRegionResponse :=
  inr (kvrpcpb.mkResponse (Some e) None None []).
Definition done (rs : list metapb.Region) : cause + kvrpcpb.SplitRegionResponse :=
  inr (kvrpcpb.mkResponse None None None rs).

Definition p11 : Peer := mkPeer 11 1.
Definition p12 : Peer := mkPeer 12 2.
Definition p13 : Peer := mkPeer 13 3.

(** Region 1 is [a, z); split at m it leaves region 2 = [a, m), a new
    region, and region 1 = [m, z). *)
Definition r1 : metapb.Region :=
  mkRegion 1 [Byte.x61] [Byte.x7a] (Some (mkEpoch 1 1)) [p11; p12; p13].
Definition r2 : metapb.Region :=
  mkRegion 2 [Byte.x61] [Byte.x6d] (Some (mkEpoch 1 2))
           [mkPeer 21 1; mkPeer 22 2; mkPeer 23 3].
Definition r1' : metapb.Region :=
  mkRegion 1 [Byte.x6d] [Byte.x7a] (Some (mkEpoch 1 2)) [p11; p12; p13].

Definition ri1 : RegionInfo := mkRegionInfo r1 (Some p11).


(** busy, then region not found *)
Definition busyThenGone : state script :=
  initial (mkScript [failed busy; failed notFound] []) [ri1].

(** busy on the first attempt *)
Definition busyOnce : state script :=
  initial (mkScript [failed busy; failed busy] []) [ri1].

(** not leader, the new leader being peer 12 *)
Definition hintOnce : state script :=
  initial (mkScript [failed (notLeader 1 (Some p12)); failed busy] []) [ri1].

(** not leader, the leader given having no identifier *)
Definition zeroHint : state script :=
  initial (mkScript [failed (notLeader 1 (Some (mkPeer 0 2))); failed busy] [])
          [ri1].

(** not leader without a leader, and PD knows the region but no leader *)
Definition leaderless : state script :=
  initial (mkScript [failed (notLeader 1 None); done [r2; r1']]
                    [inr (Some (mkRegionInfo r1 None))])
          [ri1].

(** a leader without identifier, as PD's scan returns it *)
Definition emptyLeader : state script :=
  initial (mkScript [done [r2; r1']] [])
          [mkRegionInfo r1 (Some (mkPeer 0 0))].

(** the same with a region that has no peer *)
Definition emptyLeaderNoPeer : state script :=
  initial (mkScript [done [r2; r1']] [])
          [mkRegionInfo (mkRegion 1 [Byte.x61] [Byte.x7a] (Some (mkEpoch 1 1)) [])
                        (Some (mkPeer 0 0))].


(** a split whose answer lists both regions *)
Definition splitOnce : state script :=
  initial (mkScript [done [r2; r1']] []) [ri1].

(** a split whose answer lacks the region that was split *)
Definition originMissing : state script :=
  initial (mkScript [done [r2]] []) [ri1].

(** a split answered in the legacy shape, with the left region too *)
Definition legacyAnswer : state script :=
  initial (mkScript [inr (kvrpcpb.mkResponse None (Some r2) (Some r1') [r2; r1'])] [])
          [ri1].
From Stdlib Require Import DecimalString.

(** ** More of what a run shows *)

(** The connections the split requests went over, oldest first. *)
Definition conns_used (tr : list event) : list N :=
  omap (fun e => match e with
                 | EvSplitRegion cn _ _ => Some cn
                 | _ => None
                 end) tr.

(** The connections closed, oldest first. *)
Definition closes (tr : list event) : list N :=
  omap (fun e => match e with
                 | EvClose cn => Some cn
                 | _ => None
                 end) tr.

(** The dials made: the address and whether transport credentials were
    used. *)
Definition dials (tr : list event) : list (string * bool) :=
  omap (fun e => match e with
                 | EvDial addr secure => Some (addr, secure)
                 | _ => None
                 end) tr.

(** The regions a list of answers makes the loop look up (line 292): one
    per NotLeader error that names no leader, under the identifier the
    error carries. *)
Definition lookupsAskedFor
    (l : list (kvrpcpb.SplitRegionRequest * (error + kvrpcpb.SplitRegionResponse)))
    : list N :=
  omap (fun qa => match snd qa with
                  | inr resp =>
                      match kvrpcpb.RegionError resp with
                      | Some e =>
                          match errorpb.NotLeader_ e with
                          | Some nl =>
                              match errorpb.Leader nl with
                              | None => Some (errorpb.RegionId nl)
                              | Some _ => None
                              end
                          | None => None
                          end
                      | None => None
                      end
                  | inl _ => None
                  end) l.

(** What the events [evs] of a run of the loop from [s] to [s'] look
    like, whatever the cluster does. *)
Record run_facts {W} (keys : list (list Byte.byte)) (s s' : state W)
    (evs : list event) : Prop := mkRunFacts {
  facts_trace : trace s' = trace s ++ evs;
  facts_tlsConf : tlsConf s' = tlsConf s;
  facts_cache : cache_incl s s';
  facts_closes : closes evs = [];
  facts_deferred : deferred s' = rev (conns_used evs) ++ deferred s;
  facts_dials : Forall (fun d => snd d = tlsConf s) (dials evs);
  facts_keys :
    Forall (fun qa => kvrpcpb.SplitKeys (fst qa) = keys
                      /\ kvrpcpb.SplitKey (fst qa) = [])
           (rpcs evs);
  facts_lookups : lookups evs = lookupsAskedFor (rpcs evs);
  facts_fetches_once : NoDup (fetches evs);
  facts_fetches_new : forall id, id ∈ fetches evs -> storeCache s !! id = None;
  facts_rpcs_dialed : (length (rpcs evs) <= length (dials evs))%nat }.

(** ** More concrete clusters *)

(** A cluster whose PD cannot resolve any store. *)
Definition storeDown : Env unit :=
  {| pd_GetStore := fun _ w => (inl (ErrExternal 2), w);
     pd_GetRegionByID := fun _ w => (inr (Some ri1), w);
     grpc_Dial := fun _ _ w => (inr 1, w);
     tikv_SplitRegion := fun _ _ w => (failed busy, w);
     conn_Close := fun _ w => w |}.

(** busy, then the connection breaks *)
Definition busyThenBroken : state script :=
  initial (mkScript [failed busy; inl (ErrExternal 14)] []) [ri1].

(** two objects, the first of which is split; the store names peer 12 *)
Definition twoObjects : state script :=
  initial (mkScript [failed (notLeader 1 (Some p12)); done [r2; r1']] [])
          [ri1; mkRegionInfo r2 None].

(** a region without peers whose leader is not known *)
Definition peerless : state script :=
  initial (mkScript [done [r2; r1']] [])
          [mkRegionInfo (mkRegion 1 [Byte.x61] [Byte.x7a] (Some (mkEpoch 1 1)) [])
                        None].

(** ** The HTTP side of the client (lines 399-481) *)

(** *** Strings *)

(** [strings.HasPrefix]. *)
Definition strings_HasPrefix (s pre : string) : bool := String.prefix pre s.

Fixpoint inCutset (c : Ascii.ascii) (cutset : string) : bool :=
  match cutset with
  | EmptyString => false
  | String d rest => Ascii.eqb c d || inCutset c rest
  end.

(** [strings.TrimRight] for a cutset of ASCII characters: [s] without its
    trailing characters that are in the cutset. *)
Fixpoint strings_TrimRight (s cutset : string) : string :=
  match s with
  | EmptyString => EmptyString
  | String c rest =>
      match strings_TrimRight rest cutset with
      | EmptyString =>
          if inCutset c cutset then EmptyString else String c EmptyString
      | t => String c t
      end
  end.

(** The last character of a string. *)
Fixpoint lastChar (s : string) : option Ascii.ascii :=
  match s with
  | EmptyString => None
  | String c EmptyString => Some c
  | String _ rest => lastChar rest
  end.

(** A string of slashes. *)
Fixpoint slashes (n : nat) : string :=
  match n with
  | O => EmptyString
  | S n => "/" +:+ slashes n
  end.

(** The double quote. *)
Definition dquote : string := String (Ascii.ascii_of_nat 34) EmptyString.

(** [strconv.FormatUint (id, 10)]. *)
Definition strconv_FormatUint (id : N) : string :=
  NilZero.string_of_uint (N.to_uint id).

(** *** Requests, answers and the environment *)

Record httpRequest := mkHttpRequest {
  Method : string;
  URL : string;
  Body : option string }.

(** A response: its status, and the handle of its body. *)
Record httpResponse := mkHttpResponse {
  StatusCode : N;
  BodyOf : N }.

(** The errors of this side: the two the client makes itself when PD has
    no leader (lines 403, 425, 439 and 456), and those of the HTTP client,
    of the reading of a body and of JSON. *)
Inductive apiError :=
| ErrRestoreSplitFailed_noLeader
| ErrPDLeaderNotFound
| ErrApiExternal (code : N).

(** What the client does on this side, as the outside sees it, with the
    answer it got. *)
Inductive apiEvent :=
| ApiDo (req : httpRequest) (ans : N + httpResponse)
| ApiReadAll (res : httpResponse) (ans : N + string)
| ApiClose (res : httpResponse) (err : option N).

(** The collaborators: the PD client's view of the leader, the HTTP
    client, the body of a response, and the library functions of which the
    code only uses the result.  [url_ok] is the check of
    [http.NewRequestWithContext] on the URL (the methods the code passes
    are valid, and so is its context). *)
Record Api (W Rule : Type) := mkApi {
  pd_GetLeaderAddr : W -> string;
  url_ok : string -> bool;
  path_Join : list string -> string;
  http_Do : httpRequest -> W -> (N + httpResponse) * W;
  ioutil_ReadAll : httpResponse -> W -> (N + string) * W;
  body_Close : httpResponse -> W -> option N * W;
  json_Marshal : Rule -> N + string;
  json_Unmarshal : string -> Rule -> Rule * option N;
  zeroRule : Rule }.

Arguments pd_GetLeaderAddr {W Rule}.
Arguments url_ok {W Rule}.
Arguments path_Join {W Rule}.
Arguments http_Do {W Rule}.
Arguments ioutil_ReadAll {W Rule}.
Arguments body_Close {W Rule}.
Arguments json_Marshal {W Rule}.
Arguments json_Unmarshal {W Rule}.
Arguments zeroRule {W Rule}.

Record apiState (W : Type) := mkApiState {
  api_world : W;
  api_log : list apiEvent }.

Arguments mkApiState {W}.
Arguments api_world {W}.
Arguments api_log {W}.

(** The requests of a log, oldest first. *)
Definition requests (log : list apiEvent) : list httpRequest :=
  omap (fun e => match e with ApiDo req _ => Some req | _ => None end) log.

(** The responses obtained. *)
Definition obtained (log : list apiEvent) : list httpResponse :=
  omap (fun e => match e with ApiDo _ (inr res) => Some res | _ => None end) log.

(** The responses whose body was read to the end. *)
Definition readInFull (log : list apiEvent) : list httpResponse :=
  omap (fun e => match e with ApiReadAll res (inr _) => Some res | _ => None end)
       log.

(** The responses whose body was closed. *)
Definition closed (log : list apiEvent) : list httpResponse :=
  omap (fun e => match e with ApiClose res _ => Some res | _ => None end) log.

(** The errors the collaborators answered with. *)
Definition failures (log : list apiEvent) : list N :=
  omap (fun e => match e with
                 | ApiDo _ (inl code) | ApiReadAll _ (inl code)
                 | ApiClose _ (Some code) => Some code
                 | _ => None
                 end) log.

(** [allInCutset s cutset]: every character of [s] is in the cutset. *)
Fixpoint allInCutset (s cutset : string) : bool :=
  match s with
  | EmptyString => true
  | String c rest => inCutset c cutset && allInCutset rest cutset
  end.

Section PdApi.

Context {W Rule : Type}.
Variable api : Api W Rule.

(** A call of this side: a result, or [None] when it panics, and the
    state it leaves. *)
Definition ApiM (A : Type) : Type := apiState W -> option A * apiState W.

(** *** getPDAPIAddr (lines 475-481) *)

Definition getPDAPIAddr (w : W) : string :=
  let addr := pd_GetLeaderAddr api w in
  let addr :=
    if negb (String.eqb addr "") && negb (strings_HasPrefix addr "http")
    then "http://" +:+ addr
    else addr in
  strings_TrimRight addr "/".

(** [http.NewRequestWithContext]: nil when the URL does not parse.  The
    code drops the error. *)
Definition http_NewRequest (method url : string) (body : option string)
    : option httpRequest :=
  if url_ok api url then Some (mkHttpRequest method url body) else None.

(** [http.DefaultClient.Do]: it reads the URL of the request first, so a
    nil request makes it panic. *)
Definition call_Do (req : option httpRequest) : ApiM (N + httpResponse) :=
  fun s =>
    match req with
    | None => (None, s)
    | Some req =>
        let '(res, w) := http_Do api req (api_world s) in
        (Some res, mkApiState w (api_log s ++ [ApiDo req res]))
    end.

Definition call_ReadAll (res : httpResponse) : ApiM (N + string) :=
  fun s =>
    let '(b, w) := ioutil_ReadAll api res (api_world s) in
    (Some b, mkApiState w (api_log s ++ [ApiReadAll res b])).

Definition call_Close (res : httpResponse) : ApiM (option N) :=
  fun s =>
    let '(err, w) := body_Close api res (api_world s) in
    (Some err, mkApiState w (api_log s ++ [ApiClose res err])).

Definition api_ret {A} (a : A) : ApiM A := fun s => (Some a, s).

Definition api_bind {A B} (m : ApiM A) (k : A -> ApiM B) : ApiM B :=
  fun s =>
    match m s with
    | (Some a, s1) => k a s1
    | (None, s1) => (None, s1)
    end.

(** [errors.Trace] of an error of a collaborator. *)
Definition traced (err : option N) : option apiError :=
  match err with
  | Some code => Some (ErrApiExternal code)
  | None => None
  end.

(** *** GetPlacementRule (lines 399-420) *)

Definition GetPlacementRule (groupID ruleID : string)
    : ApiM (Rule * option apiError) :=
  fun s =>
    let rule := zeroRule api in
    let addr := getPDAPIAddr (api_world s) in
    if String.eqb addr ""
    then (Some (rule, Some ErrRestoreSplitFailed_noLeader), s)
    else
      let req := http_NewRequest "GET"
                   (addr +:+ path_Join api ["/pd/api/v1/config/rule"; groupID; ruleID])
                   None in
      api_bind (call_Do req) (fun res =>
        match res with
        | inl err => api_ret (rule, Some (ErrApiExternal err))
        | inr res =>
            api_bind (call_ReadAll res) (fun b =>
              match b with
              | inl err => api_ret (rule, Some (ErrApiExternal err))
              | inr b =>
                  api_bind (call_Close res) (fun _ =>
                    let '(rule, err) := json_Unmarshal api b rule in
                    api_ret (rule, traced err))
              end)
        end) s.

(** *** SetPlacementRule (lines 422-434) *)

Definition SetPlacementRule (rule : Rule) : ApiM (option apiError) :=
  fun s =>
    let addr := getPDAPIAddr (api_world s) in
    if String.eqb addr ""
    then (Some (Some ErrPDLeaderNotFound), s)
    else
      let m := match json_Marshal api rule with
               | inr m => m
               | inl _ => EmptyString
               end in
      let req := http_NewRequest "POST"
                   (addr +:+ path_Join api ["/pd/api/v1/config/rule"])
                   (Some m) in
      api_bind (call_Do req) (fun res =>
        match res with
        | inl err => api_ret (Some (ErrApiExternal err))
        | inr res => api_bind (call_Close res) (fun err => api_ret (traced err))
        end) s.

(** *** DeletePlacementRule (lines 436-447) *)

Definition DeletePlacementRule (groupID ruleID : string) : ApiM (option apiError) :=
  fun s =>
    let addr := getPDAPIAddr (api_world s) in
    if String.eqb addr ""
    then (Some (Some ErrPDLeaderNotFound), s)
    else
      let req := http_NewRequest "DELETE"
                   (addr +:+ path_Join api ["/pd/api/v1/config/rule"; groupID; ruleID])
                   None in
      api_bind (call_Do req) (fun res =>
        match res with
        | inl err => api_ret (Some (ErrApiExternal err))
        | inr res => api_bind (call_Close res) (fun err => api_ret (traced err))
        end) s.

(** *** SetStoresLabel (lines 449-473) *)

(** The body of line 452. *)
Definition labelBody (labelKey labelValue : string) : string :=
  "{" +:+ dquote +:+ labelKey +:+ dquote +:+ ": "
      +:+ dquote +:+ labelValue +:+ dquote +:+ "}".

(** The request of lines 458-462 for one store. *)
Definition labelRequest (addr b : string) (id : N) : option httpRequest :=
  http_NewRequest "POST"
    (addr +:+ path_Join api ["/pd/api/v1/store"; strconv_FormatUint id; "label"])
    (Some b).

(** The loop of lines 457-471. *)
Fixpoint labelEach (addr b : string) (stores : list N) : ApiM (option apiError) :=
  match stores with
  | [] => api_ret None
  | id :: rest =>
      api_bind (call_Do (labelRequest addr b id)) (fun res =>
        match res with
        | inl err => api_ret (Some (ErrApiExternal err))
        | inr res =>
            api_bind (call_Close res) (fun err =>
              match err with
              | Some code => api_ret (Some (ErrApiExternal code))
              | None => labelEach addr b rest
              end)
        end)
  end.

Definition SetStoresLabel (stores : list N) (labelKey labelValue : string)
    : ApiM (option apiError) :=
  fun s =>
    let b := labelBody labelKey labelValue in
    let addr := getPDAPIAddr (api_world s) in
    if String.eqb addr ""
    then (Some (Some ErrPDLeaderNotFound), s)
    else labelEach addr b stores s.

End PdApi.

(** *** A concrete HTTP side *)

(** The answers the HTTP client, the reading of a body and its closing
    still have to give, and the leader PD reports. *)
Record apiScript := mkApiScript {
  leaderAddr : string;
  doAnswers : list (N + httpResponse);
  readAnswers : list (N + string);
  closeAnswers : list (option N) }.

(** Rules are kept as their JSON text; a path is joined with slashes. *)
Definition scriptedApi : Api apiScript string :=
  {| pd_GetLeaderAddr := leaderAddr;
     url_ok := fun _ => true;
     path_Join := String.concat "/";
     http_Do := fun _ w =>
       match doAnswers w with
       | a :: rest =>
           (a, mkApiScript (leaderAddr w) rest (readAnswers w) (closeAnswers w))
       | [] => (inl 111, w)
       end;
     ioutil_ReadAll := fun _ w =>
       match readAnswers w with
       | a :: rest =>
           (a, mkApiScript (leaderAddr w) (doAnswers w) rest (closeAnswers w))
       | [] => (inl 5, w)
       end;
     body_Close := fun _ w =>
       match closeAnswers w with
       | a :: rest =>
           (a, mkApiScript (leaderAddr w) (doAnswers w) (readAnswers w) rest)
       | [] => (None, w)
       end;
     json_Marshal := fun rule => inr rule;
     json_Unmarshal := fun b _ => (b, None);
     zeroRule := EmptyString |}.

(** PD has no leader. *)
Definition noLeader : apiState apiScript :=
  mkApiState (mkApiScript EmptyString [] [] []) [].

(** ** The lookups by key (lines 107-119 and 383-397) *)

(** The PD client again, for the two calls that find regions by key.
    [pd_ScanRegions] returns the regions and, in a second slice, their
    leaders. *)
Record Locator (W : Type) := mkLocator {
  pd_GetRegion : list Byte.byte -> W -> (cause + option RegionInfo) * W;
  pd_ScanRegions :
    list Byte.byte -> list Byte.byte -> Z -> W ->
    (cause + (list metapb.Region * list (option Peer))) * W }.

Arguments pd_GetRegion {W}.
Arguments pd_ScanRegions {W}.

Section Lookups.

Context {W : Type}.
Variable loc : Locator W.

Definition call_pd_GetRegion (key : list Byte.byte) : M W (option RegionInfo) :=
  fun s =>
    let '(r, w) := pd_GetRegion loc key (world s) in
    match r with
    | inl e => (Err [e], set_world w s)
    | inr region => (Ok region, set_world w s)
    end.

Definition call_pd_ScanRegions (key endKey : list Byte.byte) (limit : Z)
    : M W (list metapb.Region * list (option Peer)) :=
  fun s =>
    let '(r, w) := pd_ScanRegions loc key endKey limit (world s) in
    match r with
    | inl e => (Err [e], set_world w s)
    | inr found => (Ok found, set_world w s)
    end.

(** *** GetRegion (lines 107-119) *)

Definition GetRegion (key : list Byte.byte) : M W (option ptr) :=
  let! region := or_return (call_pd_GetRegion key) errors_Trace in
  match region with
  | None => ret None
  | Some r =>
      let! p := alloc (mkRegionInfo (Region r) (Leader r)) in
      ret (Some p)
  end.

(** *** ScanRegions (lines 383-397) *)

(** The loop of lines 390-395 from index [i] on, over the regions still to
    come: [leaders[i]] panics when the leaders are fewer than the
    regions. *)
Fixpoint appendRegionInfos (regions : list metapb.Region)
    (leaders : list (option Peer)) (i : nat) (regionInfos : list ptr)
    : M W (list ptr) :=
  match regions with
  | [] => ret regionInfos
  | region :: rest =>
      match leaders !! i with
      | None => panic
      | Some leader =>
          let! p := alloc (mkRegionInfo region leader) in
          appendRegionInfos rest leaders (S i) (regionInfos ++ [p])
      end
  end.

Definition ScanRegions (key endKey : list Byte.byte) (limit : Z)
    : M W (list ptr) :=
  let! found := or_return (call_pd_ScanRegions key endKey limit) errors_Trace in
  appendRegionInfos (fst found) (snd found) 0 [].

End Lookups.

(** A PD whose scan finds regions 2 and 1 and the leaders [leaders]. *)
Definition scanFinds (leaders : list (option Peer)) : Locator unit :=
  {| pd_GetRegion := fun _ w => (inr (Some ri1), w);
     pd_ScanRegions := fun _ _ _ w => (inr ([r2; r1'], leaders), w) |}.

(** ** The txn restore task (pkg/task/restore_txn.go) *)

(** The calls the task makes, with the answer of those that can fail.
    Files and ranges are known by a number. *)
Inductive taskStep :=
| StAdjust
| StWithCancel
| StCancel
| StNewMgr (err : option N)
| StMgrClose
| StNewRestoreClient (err : option N)
| StClientClose
| StSetRateLimit
| StSetConcurrency
| StEnableOnline
| StSetSwitchModeInterval
| StReadBackupMeta (err : option N)
| StRecordSize
| StInitBackupMeta (err : option N)
| StIsRawKvMode (raw : bool)
| StGetFilesInTxnRange (res : N + list N)
| StCollectInt (n : nat)
| StValidateFileRanges (files : list N) (res : N + list N)
| StStartProgress (total : Z) (redirect : bool)
| StSplitRanges (ranges : list N) (err : option N)
| StRestorePreWork (err : option N)
| StRestorePostWork
| StRestoreTxn (files : list N) (err : option N)
| StUpdateChClose
| StSetSuccessStatus (ok : bool)
| StSummary.

(** The error the task returns: its own (line 57), or the error of a
    step, traced. *)
Inductive taskError :=
| ErrRestoreModeMismatch
| ErrOfStep (code : N).

(** The fields of the configuration the task reads itself. *)
Record RestoreConfig := mkRestoreConfig {
  Online : bool;
  LogProgress : bool }.

(** The packages the task calls.  [effect_of] is what a call that returns
    nothing does to the outside. *)
Record Tasks (W : Type) := mkTasks {
  effect_of : taskStep -> W -> W;
  task_NewMgr : W -> option N * W;
  task_NewRestoreClient : W -> option N * W;
  task_ReadBackupMeta : W -> option N * W;
  task_InitBackupMeta : W -> option N * W;
  task_IsRawKvMode : W -> bool * W;
  task_GetFilesInTxnRange : W -> (N + list N) * W;
  task_ValidateFileRanges : list N -> W -> (N + list N) * W;
  task_SplitRanges : list N -> W -> option N * W;
  task_restorePreWork : W -> option N * W;
  task_RestoreTxn : list N -> W -> option N * W }.

Arguments effect_of {W}.
Arguments task_NewMgr {W}.
Arguments task_NewRestoreClient {W}.
Arguments task_ReadBackupMeta {W}.
Arguments task_InitBackupMeta {W}.
Arguments task_IsRawKvMode {W}.
Arguments task_GetFilesInTxnRange {W}.
Arguments task_ValidateFileRanges {W}.
Arguments task_SplitRanges {W}.
Arguments task_restorePreWork {W}.
Arguments task_RestoreTxn {W}.

(** The outside, the calls made so far, and the calls deferred, the last
    deferred first. *)
Record taskState (W : Type) := mkTaskState {
  task_world : W;
  task_log : list taskStep;
  task_deferred : list taskStep }.

Arguments mkTaskState {W}.
Arguments task_world {W}.
Arguments task_log {W}.
Arguments task_deferred {W}.

Section Task.

Context {W : Type}.
Variable tasks : Tasks W.

(** A stretch of the function body: it returns from the function with an
    error or nil ([inl]), or goes on with a value ([inr]). *)
Definition T (A : Type) : Type :=
  taskState W -> (option taskError + A) * taskState W.

Definition goes_on {A} (a : A) : T A := fun s => (inr a, s).

Definition returns {A} (err : option taskError) : T A := fun s => (inl err, s).

Definition then_ {A B} (m : T A) (k : A -> T B) : T B :=
  fun s =>
    match m s with
    | (inr a, s1) => k a s1
    | (inl err, s1) => (inl err, s1)
    end.

(** A call that returns nothing. *)
Definition call (st : taskStep) : T unit :=
  fun s =>
    (inr tt, mkTaskState (effect_of tasks st (task_world s)) (task_log s ++ [st])
                         (task_deferred s)).

(** A call with an answer, logged as [st answer]. *)
Definition ask {A} (f : W -> A * W) (st : A -> taskStep) : T A :=
  fun s =>
    let '(a, w) := f (task_world s) in
    (inr a, mkTaskState w (task_log s ++ [st a]) (task_deferred s)).

(** [defer st] *)
Definition defer (st : taskStep) : T unit :=
  fun s =>
    (inr tt, mkTaskState (task_world s) (task_log s) (st :: task_deferred s)).

(** [if err != nil { return errors.Trace(err) }] *)
Definition check (err : option N) : T unit :=
  match err with
  | Some code => returns (Some (ErrOfStep code))
  | None => goes_on tt
  end.

(** The deferred calls, run when the function returns. *)
Definition run_deferred (s : taskState W) : taskState W :=
  foldl (fun st d =>
           mkTaskState (effect_of tasks d (task_world st)) (task_log st ++ [d])
                       (task_deferred st))
        (mkTaskState (task_world s) (task_log s) []) (task_deferred s).

(** *** RunRestoreTxn (lines 17-103) *)

Definition RunRestoreTxn_body (cfg : RestoreConfig) : T unit :=
  then_ (call StAdjust) (fun _ =>
  then_ (defer StSummary) (fun _ =>
  then_ (call StWithCancel) (fun _ =>
  then_ (defer StCancel) (fun _ =>
  then_ (ask (task_NewMgr tasks) StNewMgr) (fun err =>
  then_ (check err) (fun _ =>
  then_ (defer StMgrClose) (fun _ =>
  then_ (ask (task_NewRestoreClient tasks) StNewRestoreClient) (fun err =>
  then_ (check err) (fun _ =>
  then_ (defer StClientClose) (fun _ =>
  then_ (call StSetRateLimit) (fun _ =>
  then_ (call StSetConcurrency) (fun _ =>
  then_ (if Online cfg then call StEnableOnline else goes_on tt) (fun _ =>
  then_ (call StSetSwitchModeInterval) (fun _ =>
  then_ (ask (task_ReadBackupMeta tasks) StReadBackupMeta) (fun err =>
  then_ (check err) (fun _ =>
  then_ (call StRecordSize) (fun _ =>
  then_ (ask (task_InitBackupMeta tasks) StInitBackupMeta) (fun err =>
  then_ (check err) (fun _ =>
  then_ (ask (task_IsRawKvMode tasks) StIsRawKvMode) (fun raw =>
  if raw then returns (Some ErrRestoreModeMismatch) else
  then_ (ask (task_GetFilesInTxnRange tasks) StGetFilesInTxnRange) (fun files =>
  match files with
  | inl code => returns (Some (ErrOfStep code))
  | inr files =>
  if Nat.eqb (length files) 0 then returns None else
  then_ (call (StCollectInt (length files))) (fun _ =>
  then_ (ask (task_ValidateFileRanges tasks files) (StValidateFileRanges files))
        (fun ranges =>
  match ranges with
  | inl code => returns (Some (ErrOfStep code))
  | inr ranges =>
  then_ (call (StStartProgress (Z.of_nat (length ranges + length files))
                               (negb (LogProgress cfg)))) (fun _ =>
  then_ (ask (task_SplitRanges tasks ranges) (StSplitRanges ranges)) (fun err =>
  then_ (check err) (fun _ =>
  then_ (ask (task_restorePreWork tasks) StRestorePreWork) (fun err =>
  then_ (check err) (fun _ =>
  then_ (defer StRestorePostWork) (fun _ =>
  then_ (ask (task_RestoreTxn tasks files) (StRestoreTxn files)) (fun err =>
  then_ (check err) (fun _ =>
  then_ (call StUpdateChClose) (fun _ =>
  then_ (call (StSetSuccessStatus true)) (fun _ =>
  returns None))))))))))
  end))
  end))))))))))))))))))))).

(** The function: its body, then its deferred calls; the error returned
    and the state it leaves. *)
Definition RunRestoreTxn (cfg : RestoreConfig) (w : W)
    : option taskError * taskState W :=
  let '(r, s) := RunRestoreTxn_body cfg (mkTaskState w [] []) in
  (match r with inl err => err | inr _ => None end, run_deferred s).

End Task.

(** *** What the log of the task shows *)

(** The call that gives back what a call took, when that call succeeded. *)
Definition release (st : taskStep) : option taskStep :=
  match st with
  | StWithCancel => Some StCancel
  | StNewMgr None => Some StMgrClose
  | StNewRestoreClient None => Some StClientClose
  | StRestorePreWork None => Some StRestorePostWork
  | _ => None
  end.

Definition isCleanup (st : taskStep) : bool :=
  match st with
  | StCancel | StMgrClose | StClientClose | StRestorePostWork | StSummary => true
  | _ => false
  end.

(** The errors the steps answered with. *)
Definition stepFailures (log : list taskStep) : list N :=
  omap (fun st => match st with
                  | StNewMgr (Some c) | StNewRestoreClient (Some c)
                  | StReadBackupMeta (Some c) | StInitBackupMeta (Some c)
                  | StGetFilesInTxnRange (inl c) | StValidateFileRanges _ (inl c)
                  | StSplitRanges _ (Some c) | StRestorePreWork (Some c)
                  | StRestoreTxn _ (Some c) => Some c
                  | _ => None
                  end) log.

(** The files handed to [RestoreTxn], with its answer. *)
Definition restores (log : list taskStep) : list (list N * option N) :=
  omap (fun st => match st with
                  | StRestoreTxn files err => Some (files, err)
                  | _ => None
                  end) log.

(** The files the backup archive holds for the range. *)
Definition filesFound (log : list taskStep) : list (list N) :=
  omap (fun st => match st with
                  | StGetFilesInTxnRange (inr files) => Some files
                  | _ => None
                  end) log.

(** The files validated, with the ranges found for them. *)
Definition validated (log : list taskStep) : list (list N * list N) :=
  omap (fun st => match st with
                  | StValidateFileRanges files (inr ranges) => Some (files, ranges)
                  | _ => None
                  end) log.

(** The ranges handed to [SplitRanges]. *)
Definition splits (log : list taskStep) : list (list N) :=
  omap (fun st => match st with
                  | StSplitRanges ranges _ => Some ranges
                  | _ => None
                  end) log.

(** How often the task was marked as succeeded, the progress was started,
    and its channel was closed. *)
Definition successMarks (log : list taskStep) : nat :=
  length (List.filter (fun st => match st with
                                 | StSetSuccessStatus true => true
                                 | _ => false
                                 end) log).

Definition progressStarts (log : list taskStep) : list Z :=
  omap (fun st => match st with
                  | StStartProgress total _ => Some total
                  | _ => None
                  end) log.

Definition progressCloses (log : list taskStep) : nat :=
  length (List.filter (fun st => match st with
                                 | StUpdateChClose => true
                                 | _ => false
                                 end) log).

(** Whether the archive was found to hold raw data. *)
Definition rawSeen (log : list taskStep) : bool :=
  existsb (fun st => match st with StIsRawKvMode true => true | _ => false end) log.

(** A cluster and an archive on which every step does what [answers]
    says: the errors of the nine steps that can fail, in the order of the
    source, then the files and the ranges. *)
Record taskScript := mkTaskScript {
  stepErrors : list (option N);
  isRaw : bool;
  archiveFiles : list N;
  fileRanges : list N }.

Definition nextError (w : taskScript) : option N * taskScript :=
  match stepErrors w with
  | e :: rest => (e, mkTaskScript rest (isRaw w) (archiveFiles w) (fileRanges w))
  | [] => (None, w)
  end.

Definition scriptedTasks : Tasks taskScript :=
  {| effect_of := fun _ w => w;
     task_NewMgr := nextError;
     task_NewRestoreClient := nextError;
     task_ReadBackupMeta := nextError;
     task_InitBackupMeta := nextError;
     task_IsRawKvMode := fun w => (isRaw w, w);
     task_GetFilesInTxnRange := fun w =>
       match nextError w with
       | (Some c, w') => (inl c, w')
       | (None, w') => (inr (archiveFiles w), w')
       end;
     task_ValidateFileRanges := fun _ w =>
       match nextError w with
       | (Some c, w') => (inl c, w')
       | (None, w') => (inr (fileRanges w), w')
       end;
     task_SplitRanges := fun _ => nextError;
     task_restorePreWork := nextError;
     task_RestoreTxn := fun _ => nextError |}.
(** ** Facts about the monad, the calls and the loop *)

(** A run is known once its result is: the state is whatever it left. *)
Lemma run_eq {A B} (x : A * B) (a : A) : fst x = a -> x = (a, snd x).
Proof. intros <-. now destruct x. Qed.

Section Facts.

Context {W : Type}.
Variable env : Env W.
Variable checkRegionEpoch : RegionInfo -> RegionInfo -> bool.



(** Every way a bind can end. *)
Lemma bind_inv {A B} (m : M W A) (k : A -> M W B) s r s' :
  bind m k s = (r, s') ->
  (exists a s1, m s = (Ok a, s1) /\ k a s1 = (r, s'))
  \/ (exists e, m s = (Err e, s') /\ r = Err e)
  \/ (m s = (Panic, s') /\ r = Panic).
Proof.
  unfold bind. destruct (m s) as [[a|e|] s1]; intros H.
  - left. eauto.
  - right. left. inversion H. eauto.
  - right. right. inversion H. eauto.
Qed.


Lemma or_return_inv {A} (m : M W A) f s r s' :
  or_return m f s = (r, s') ->
  (exists a, m s = (Ok a, s') /\ r = Ok a)
  \/ (exists e, m s = (Err e, s') /\ r = Err (f e))
  \/ (m s = (Panic, s') /\ r = Panic).
Proof.
  unfold or_return. destruct (m s) as [[a|e|] s1]; intros H; inversion H; eauto.
Qed.

(** *** Calls to the collaborators *)

Lemma call_pd_GetStore_inv id s r s' :
  call_pd_GetStore env id s = (r, s') ->
  same_client s s' /\ trace s' = trace s ++ [EvPdGetStore id]
  /\ world s' = snd (pd_GetStore env id (world s))
  /\ match fst (pd_GetStore env id (world s)) with
     | inl e => r = Err [e]
     | inr store => r = Ok store
     end.
Proof.
  unfold call_pd_GetStore.
  destruct (pd_GetStore env id (world s)) as [[e|store] w]; intros H;
    inversion H; subst; cbn; unfold same_client; cbn; auto.
Qed.

Lemma call_pd_GetRegionByID_inv id s r s' :
  call_pd_GetRegionByID env id s = (r, s') ->
  same_client s s' /\ trace s' = trace s ++ [EvPdGetRegionByID id]
  /\ world s' = snd (pd_GetRegionByID env id (world s))
  /\ match fst (pd_GetRegionByID env id (world s)) with
     | inl e => r = Err [e]
     | inr region => r = Ok region
     end.
Proof.
  unfold call_pd_GetRegionByID.
  destruct (pd_GetRegionByID env id (world s)) as [[e|region] w]; intros H;
    inversion H; subst; cbn; unfold same_client; cbn; auto.
Qed.

Lemma call_grpc_Dial_inv addr secure s r s' :
  call_grpc_Dial env addr secure s = (r, s') ->
  same_client s s' /\ trace s' = trace s ++ [EvDial addr secure]
  /\ world s' = snd (grpc_Dial env addr secure (world s))
  /\ match fst (grpc_Dial env addr secure (world s)) with
     | inl e => r = Err [e]
     | inr cn => r = Ok cn
     end.
Proof.
  unfold call_grpc_Dial.
  destruct (grpc_Dial env addr secure (world s)) as [[e|cn] w]; intros H;
    inversion H; subst; cbn; unfold same_client; cbn; auto.
Qed.

Lemma call_tikv_SplitRegion_inv cn req s r s' :
  call_tikv_SplitRegion env cn req s = (r, s') ->
  same_client s s'
  /\ world s' = snd (tikv_SplitRegion env cn req (world s))
  /\ match fst (tikv_SplitRegion env cn req (world s)) with
     | inl e => r = Err [e] /\ trace s' = trace s ++ [EvSplitRegion cn req (inl [e])]
     | inr resp =>
        r = Ok resp /\ trace s' = trace s ++ [EvSplitRegion cn req (inr resp)]
     end.
Proof.
  unfold call_tikv_SplitRegion.
  destruct (tikv_SplitRegion env cn req (world s)) as [[e|resp] w]; intros H;
    inversion H; subst; cbn; unfold same_client; cbn; auto.
Qed.

(** *** GetStore *)

Lemma cache_incl_refl (s : state W) : cache_incl s s.
Proof. intros id v H. exact H. Qed.

Lemma cache_incl_trans (s1 s2 s3 : state W) :
  cache_incl s1 s2 -> cache_incl s2 s3 -> cache_incl s1 s3.
Proof. intros H1 H2 id v H. apply H2, H1, H. Qed.

Lemma GetStore_hit id s store :
  storeCache s !! id = Some store -> GetStore env id s = (Ok store, s).
Proof. intros H. unfold GetStore. now rewrite H. Qed.

Lemma GetStore_inv id s r s' :
  GetStore env id s = (r, s') ->
  tlsConf s' = tlsConf s /\ heap s' = heap s /\ deferred s' = deferred s
  /\ cache_incl s s'
  /\ ((exists store, storeCache s !! id = Some store /\ r = Ok store /\ s' = s)
      \/ (storeCache s !! id = None
          /\ trace s' = trace s ++ [EvPdGetStore id]
          /\ world s' = snd (pd_GetStore env id (world s))
          /\ match fst (pd_GetStore env id (world s)) with
             | inl e => r = Err [e] /\ storeCache s' = storeCache s
             | inr store =>
                 r = Ok store /\ storeCache s' = <[id := store]> (storeCache s)
             end)).
Proof.
  unfold GetStore. destruct (storeCache s !! id) as [store|] eqn:Hc.
  - intros H. inversion H; subst. repeat split; auto using cache_incl_refl.
    left. eauto.
  - intros H. apply bind_inv in H as [(a & s1 & H1 & H2)|[(e & H1 & ->)|(H1 & ->)]];
      apply or_return_inv in H1 as [(a' & H1 & E)|[(e' & H1 & E)|(H1 & E)]];
      try discriminate; apply call_pd_GetStore_inv in H1 as ((Ht & Hs & Hh & Hd) & Htr & Hw & Hr).
    + inversion E; subst a'. inversion H2; subst. unfold set_storeCache; cbn.
      repeat split; auto.
      * intros i v Hi. cbn. rewrite Hs. destruct (decide (id = i)) as [->|Hne].
        -- congruence.
        -- now rewrite lookup_insert_ne.
      * right. repeat split; auto.
        destruct (fst (pd_GetStore env id (world s))); [discriminate|].
        inversion Hr; subst. now rewrite Hs.
    + inversion E; subst. repeat split; auto.
      * intros i v Hi. now rewrite Hs.
      * right. repeat split; auto.
        destruct (fst (pd_GetStore env id (world s))); [|discriminate].
        inversion Hr; subst. auto.
    + destruct (fst (pd_GetStore env id (world s))); discriminate.
Qed.

(** *** One attempt *)

Lemma rpcs_app l1 l2 : rpcs (l1 ++ l2) = rpcs l1 ++ rpcs l2.
Proof. apply omap_app. Qed.

Lemma lookups_app l1 l2 : lookups (l1 ++ l2) = lookups l1 ++ lookups l2.
Proof. apply omap_app. Qed.

Lemma sendOnce_inv acc p keys s r s' :
  sendOnce env acc p keys s = (r, s') ->
  tlsConf s' = tlsConf s /\ heap s' = heap s /\ cache_incl s s'
  /\ exists evs, trace s' = trace s ++ evs /\ lookups evs = []
     /\ ((rpcs evs = []
          /\ match r with
             | Ok _ => False
             | Err e => exists tail, e = acc ++ tail
             | Panic => heap s !! p = None
             end)
        \/ (exists ri peer a,
               heap s !! p = Some ri /\ choosePeer ri = Some peer
               /\ rpcs evs = [(batchRequest ri peer keys, a)]
               /\ match a with
                  | inl e => r = Err (acc ++ e)
                  | inr resp => r = Ok (peer, resp)
                  end)).
Proof.
  unfold sendOnce. intros H.
  apply bind_inv in H as [(ri & sa & H1 & H)|[(e & H1 & ->)|(H1 & ->)]];
    unfold load in H1; destruct (heap s !! p) as [ri0|] eqn:Hp; inversion H1; subst; clear H1.
  2:{ repeat split; auto using cache_incl_refl. exists []. rewrite app_nil_r. repeat split; auto. }
  apply bind_inv in H as [(peer & sb & H1 & H)|[(e & H1 & ->)|(H1 & ->)]].
  3:{ destruct (choosePeer ri); discriminate. }
  2:{ destruct (choosePeer ri); inversion H1; subst.
      repeat split; auto using cache_incl_refl. exists []. rewrite app_nil_r.
      repeat split; auto. left. split; eauto. }
  destruct (choosePeer ri) as [peer0|] eqn:Hpeer; inversion H1; subst; clear H1.
  apply bind_inv in H as [(store & s2 & H1 & H)|[(e & H1 & ->)|(H1 & ->)]];
    apply or_return_inv in H1 as [(? & H1 & E)|[(? & H1 & E)|(H1 & E)]];
    try discriminate; inversion E; subst; clear E;
    apply GetStore_inv in H1 as (Ht & Hh & Hd & Hc & Hg).
  3:{ exfalso. destruct Hg as [(st & _ & ? & _)|(_ & _ & _ & Hg)]; [discriminate|].
      destruct (fst (pd_GetStore env (Peer_StoreId peer) (world sb))); destruct Hg; discriminate. }
  2:{ repeat split; auto.
      destruct Hg as [(st & _ & ? & _)|(_ & Htr & _ & Hg)]; [discriminate|].
      exists [EvPdGetStore (Peer_StoreId peer)]. repeat split; auto. left. split; eauto. }
  assert (Hev : exists evs, trace s2 = trace sb ++ evs /\ lookups evs = [] /\ rpcs evs = []).
  { destruct Hg as [(st & _ & ? & ->)|(_ & Htr & _ & Hg)].
    - exists []. now rewrite app_nil_r.
    - eexists. split; [exact Htr|]. split; reflexivity. }
  destruct Hev as (evs & Htr & Hl & Hr). clear Hg.
  apply bind_inv in H as [(secure & s3 & H1 & H)|[(e & H1 & ->)|(H1 & ->)]];
    inversion H1; subst; clear H1.
  apply bind_inv in H as [(cn & s4 & H1 & H)|[(e & H1 & ->)|(H1 & ->)]];
    apply or_return_inv in H1 as [(? & H1 & E)|[(? & H1 & E)|(H1 & E)]];
    try discriminate; inversion E; subst; clear E;
    apply call_grpc_Dial_inv in H1 as ((Ht4 & Hs4 & Hh4 & Hd4) & Htr4 & Hw4 & Hr4).
  3:{ destruct (fst (grpc_Dial _ _ _ _)); discriminate. }
  2:{ repeat split; try congruence.
      - intros i v Hi. rewrite Hs4. auto.
      - eexists. rewrite Htr4, Htr, <- app_assoc. split; [reflexivity|].
        rewrite lookups_app, rpcs_app, Hl, Hr. split; auto. left. split; eauto. }
  apply bind_inv in H as [([] & s5 & H1 & H)|[(e & H1 & ->)|(H1 & ->)]];
    inversion H1; subst; clear H1.
  apply bind_inv in H as [(resp & s6 & H1 & H)|[(e & H1 & ->)|(H1 & ->)]];
    apply or_return_inv in H1 as [(? & H1 & E)|[(? & H1 & E)|(H1 & E)]];
    try discriminate; inversion E; subst; clear E;
    apply call_tikv_SplitRegion_inv in H1 as ((Ht6 & Hs6 & Hh6 & Hd6) & Hw6 & Hr6);
    cbn in *.
  3:{ destruct (fst (tikv_SplitRegion _ _ _ _)); destruct Hr6; discriminate. }
  - inversion H; subst; clear H.
    destruct (fst (tikv_SplitRegion _ _ _ _)) as [e|resp0] eqn:Hrpc; destruct Hr6 as [E Htr6];
      inversion E; subst.
    repeat split; try congruence.
    + intros i v Hi. rewrite Hs6, Hs4. auto.
    + eexists. rewrite Htr6, Htr4, Htr, <- !app_assoc. split; [reflexivity|].
      rewrite !lookups_app, !rpcs_app, Hl, Hr. cbn. split; auto.
      right. exists ri, peer, (inr resp0). auto.
  - destruct (fst (tikv_SplitRegion _ _ _ _)) as [e|resp0] eqn:Hrpc; destruct Hr6 as [E Htr6];
      inversion E; subst.
    repeat split; try congruence.
    + intros i v Hi. rewrite Hs6, Hs4. auto.
    + eexists. rewrite Htr6, Htr4, Htr, <- !app_assoc. split; [reflexivity|].
      rewrite !lookups_app, !rpcs_app, Hl, Hr. cbn. split; auto.
      right. exists ri, peer, (inl [e]). auto.
Qed.

(** The reading of the response, case by case. *)
Lemma interpret_eq acc p resp s :
  interpret env checkRegionEpoch acc p resp s =
  match kvrpcpb.RegionError resp with
  | None => (Ok (Done resp), s)
  | Some e =>
      let acc' := acc ++ [ErrRestoreSplitFailed e] in
      match errorpb.NotLeader_ e with
      | Some nl =>
          match errorpb.Leader nl with
          | Some l =>
              match heap s !! p with
              | Some ri =>
                  (Ok (Retry acc' p),
                   set_heap (<[p := mkRegionInfo (Region ri) (Some l)]> (heap s)) s)
              | None => (Panic, s)
              end
          | None =>
              let id := errorpb.RegionId nl in
              let sL := log_event (EvPdGetRegionByID id)
                          (set_world (snd (pd_GetRegionByID env id (world s))) s) in
              match fst (pd_GetRegionByID env id (world s)) with
              | inl c => (Err (acc' ++ [c]), sL)
              | inr None => (Panic, sL)
              | inr (Some new) =>
                  let new' := mkRegionInfo (Region new) (Leader new) in
                  let sA := set_heap (heap s ++ [new']) sL in
                  match (heap s ++ [new']) !! p with
                  | None => (Panic, sA)
                  | Some old =>
                      if negb (checkRegionEpoch new' old)
                      then (Err (acc' ++ [ErrKVEpochNotMatch]), sA)
                      else match Leader new with
                           | None => (Panic, sA)
                           | Some _ => (Ok (Retry acc' (length (heap s))), sA)
                           end
                  end
              end
          end
      | None =>
          if errorpb.ServerIsBusy e || errorpb.StaleCommand e
          then (Ok (Retry acc' p), s)
          else (Err acc', s)
      end
  end.
Proof.
  unfold interpret.
  destruct (kvrpcpb.RegionError resp) as [e|]; [|reflexivity].
  destruct (errorpb.NotLeader_ e) as [nl|].
  2:{ now destruct (errorpb.ServerIsBusy e || errorpb.StaleCommand e). }
  destruct (errorpb.Leader nl) as [l|].
  { unfold bind, store_Leader. now destruct (heap s !! p). }
  unfold bind at 1, or_return, GetRegionByID, bind at 1, or_return, call_pd_GetRegionByID.
  destruct (pd_GetRegionByID env (errorpb.RegionId nl) (world s)) as [[c|[new|]] w];
    cbn; try reflexivity.
  unfold bind, load, alloc; cbn.
  rewrite list_lookup_middle by reflexivity.
  unfold set_heap, log_event, set_world; cbn.
  destruct ((heap s ++ [mkRegionInfo (Region new) (Leader new)]) !! p) as [old|];
    [|reflexivity].
  destruct (checkRegionEpoch _ old); cbn; [|reflexivity].
  now destruct (Leader new).
Qed.

Lemma attempt_eq acc p keys s :
  attempt env checkRegionEpoch acc p keys s =
  match sendOnce env acc p keys s with
  | (Ok pr, s1) => interpret env checkRegionEpoch acc p (snd pr) s1
  | (Err e, s1) => (Err e, s1)
  | (Panic, s1) => (Panic, s1)
  end.
Proof. reflexivity. Qed.

Lemma retry_S n acc p keys s :
  retry env checkRegionEpoch (S n) acc p keys s =
  match attempt env checkRegionEpoch acc p keys s with
  | (Ok (Done resp), s1) => (Ok resp, s1)
  | (Ok (Retry acc' p'), s1) => retry env checkRegionEpoch n acc' p' keys s1
  | (Err e, s1) => (Err e, s1)
  | (Panic, s1) => (Panic, s1)
  end.
Proof.
  cbn [retry]. unfold bind.
  destruct (attempt env checkRegionEpoch acc p keys s) as [[[resp|acc' p']|e|] s1];
    reflexivity.
Qed.

Lemma interpret_inv acc p resp s r s' :
  interpret env checkRegionEpoch acc p resp s = (r, s') ->
  tlsConf s' = tlsConf s /\ storeCache s' = storeCache s
  /\ (exists evs, trace s' = trace s ++ evs /\ rpcs evs = [] /\ fetches evs = [])
  /\ match kvrpcpb.RegionError resp with
     | None => r = Ok (Done resp) /\ s' = s
     | Some e =>
        match r with
        | Ok (Done _) => False
        | Ok (Retry a _) =>
             a = acc ++ [ErrRestoreSplitFailed e] /\ retryable e = true
        | Err es =>
             (exists tail, es = acc ++ [ErrRestoreSplitFailed e] ++ tail)
             /\ (retryable e = false ->
                 es = acc ++ [ErrRestoreSplitFailed e] /\ s' = s)
        | Panic => retryable e = true
        end
     end.
Proof.
  rewrite interpret_eq. unfold retryable.
  assert (Hnil : exists evs, trace s = trace s ++ evs /\ rpcs evs = [] /\ fetches evs = []).
  { exists []. now rewrite app_nil_r. }
  destruct (kvrpcpb.RegionError resp) as [e|].
  2:{ intros H; inversion H; subst. auto. }
  destruct (errorpb.NotLeader_ e) as [nl|]; cbn zeta.
  2:{ destruct (errorpb.ServerIsBusy e || errorpb.StaleCommand e);
        intros H; inversion H; subst; repeat split; auto.
      exists []. now rewrite app_nil_r. }
  destruct (errorpb.Leader nl) as [l|].
  { destruct (heap s !! p); intros H; inversion H; subst; cbn; auto. }
  assert (Hev : exists evs,
             trace s ++ [EvPdGetRegionByID (errorpb.RegionId nl)] = trace s ++ evs
             /\ rpcs evs = [] /\ fetches evs = []) by eauto.
  destruct (pd_GetRegionByID env (errorpb.RegionId nl) (world s)) as [[c|[new|]] w]; cbn.
  - intros H; inversion H; subst; cbn. repeat split; auto; try discriminate.
    eexists. now rewrite <- app_assoc.
  - destruct ((heap s ++ [mkRegionInfo (Region new) (Leader new)]) !! p) as [old|].
    2:{ intros H; inversion H; subst; cbn. repeat split; auto. }
    destruct (checkRegionEpoch _ old); cbn.
    + destruct (Leader new); intros H; inversion H; subst; cbn; repeat split; auto.
    + intros H; inversion H; subst; cbn; repeat split; auto; try discriminate.
      eexists. now rewrite <- app_assoc.
  - intros H; inversion H; subst; cbn. repeat split; auto.
Qed.

(** *** Deferred calls *)

(** Deferred calls only close connections. *)
Lemma close_all_inv cl (s : state W) :
  let s' := foldl (fun st cn => call_conn_Close env cn st) s cl in
  tlsConf s' = tlsConf s /\ storeCache s' = storeCache s /\ heap s' = heap s
  /\ trace s' = trace s ++ map EvClose cl.
Proof.
  revert s. induction cl as [|cn cl IH]; intros s; cbn.
  - now rewrite app_nil_r.
  - destruct (IH (call_conn_Close env cn s)) as (H1 & H2 & H3 & H4).
    rewrite H1, H2, H3, H4. cbn. now rewrite <- app_assoc.
Qed.

Lemma rpcs_closes cl : rpcs (map EvClose cl) = [].
Proof. induction cl; auto. Qed.

Lemma with_deferred_inv {A} (body : M W A) s r s' :
  with_deferred env body s = (r, s') ->
  exists s1 cl,
    body (set_deferred [] s) = (r, s1)
    /\ tlsConf s' = tlsConf s1 /\ storeCache s' = storeCache s1
    /\ heap s' = heap s1 /\ deferred s' = deferred s
    /\ trace s' = trace s1 ++ map EvClose cl.
Proof.
  unfold with_deferred.
  destruct (body (set_deferred [] s)) as [r1 s1]. intros H; inversion H; subst.
  exists s1, (deferred s1). split; [reflexivity|].
  destruct (close_all_inv (deferred s1) s1) as (H1 & H2 & H3 & H4).
  cbn. auto.
Qed.

(** *** The history of a run *)

Lemma regionErrors_cons_inr q resp l :
  regionErrors ((q, inr resp) :: l) =
  match kvrpcpb.RegionError resp with
  | Some e => e :: regionErrors l
  | None => regionErrors l
  end.
Proof. unfold regionErrors. cbn. now destruct (kvrpcpb.RegionError resp). Qed.

(** One iteration sends at most one request; it goes on only after a
    retryable region error, which it appends to the accumulated errors. *)
Lemma attempt_inv acc p keys s r s' :
  attempt env checkRegionEpoch acc p keys s = (r, s') ->
  tlsConf s' = tlsConf s /\ cache_incl s s'
  /\ exists l, rpcs (trace s') = rpcs (trace s) ++ l
     /\ match l with
        | [] => match r with
                | Ok _ => False
                | Err es => exists tail, es = acc ++ tail
                | Panic => True
                end
        | [(q, inl e)] => r = Err (acc ++ e)
        | [(q, inr resp)] =>
            match kvrpcpb.RegionError resp with
            | None => r = Ok (Done resp)
            | Some e =>
                match r with
                | Ok (Done _) => False
                | Ok (Retry a _) =>
                    a = acc ++ [ErrRestoreSplitFailed e] /\ retryable e = true
                | Err es =>
                    (exists tail, es = acc ++ [ErrRestoreSplitFailed e] ++ tail)
                    /\ (retryable e = false -> es = acc ++ [ErrRestoreSplitFailed e])
                | Panic => retryable e = true
                end
            end
        | _ => False
        end.
Proof.
  rewrite attempt_eq.
  destruct (sendOnce env acc p keys s) as [r1 s1] eqn:H1.
  apply sendOnce_inv in H1 as (Ht & Hh & Hc & evs & Htr & Hl & Hcase).
  destruct Hcase as [(Hr & Hres)|(ri & peer & a & Hp & Hpeer & Hr & Hres)].
  - destruct r1 as [pr|e|]; [contradiction| |]; intros H; inversion H; subst;
      (split; [auto|split; [auto|]]); exists []; rewrite Htr, rpcs_app, Hr; auto.
  - destruct a as [e|resp]; subst r1.
    + intros H; inversion H; subst. split; [auto|split; [auto|]].
      eexists. rewrite Htr, rpcs_app, Hr. split; [reflexivity|]. reflexivity.
    + cbn [snd]. intros H.
      apply interpret_inv in H as (Ht' & Hs' & (evs' & Htr' & Hr' & _) & Hres).
      split; [congruence|]. split.
      { intros i v Hi. rewrite Hs'. auto. }
      eexists. rewrite Htr', rpcs_app, Hr', app_nil_r, Htr, rpcs_app, Hr.
      split; [reflexivity|]. cbn.
      destruct (kvrpcpb.RegionError resp) as [e|]; [|tauto].
      destruct r as [[?|a ?]|es|]; auto. tauto.
Qed.

Lemma history_nil acc r :
  match r with
  | Ok _ => False
  | Err es => exists tail, es = acc ++ tail
  | Panic => True
  end ->
  history acc [] r.
Proof.
  intros H. split_and!.
  - intros es ->. destruct H as [tail ->]. now exists tail.
  - intros i q resp e Hi. discriminate.
  - cbn. lia.
  - intros resp ->. contradiction.
Qed.

Lemma history_transport acc q e :
  history acc [(q, inl e)] (Err (acc ++ e)).
Proof.
  split_and!.
  - intros es E. inversion E; subst. now exists e.
  - intros [|i] q' resp' e' Hi; cbn in Hi; discriminate.
  - cbn. lia.
  - intros resp E. discriminate.
Qed.

Lemma history_done acc q resp :
  kvrpcpb.RegionError resp = None ->
  history acc [(q, inr resp)] (Ok resp).
Proof.
  intros He. split_and!.
  - intros es E. discriminate.
  - intros [|i] q' resp' e' Hi He'; cbn in Hi; [|discriminate].
    inversion Hi; subst. congruence.
  - cbn. lia.
  - intros resp' E. inversion E; subst. now exists q.
Qed.

Lemma history_last acc q resp e r :
  kvrpcpb.RegionError resp = Some e ->
  match r with
  | Ok _ => False
  | Err es =>
      (exists tail, es = acc ++ [ErrRestoreSplitFailed e] ++ tail)
      /\ (retryable e = false -> es = acc ++ [ErrRestoreSplitFailed e])
  | Panic => retryable e = true
  end ->
  history acc [(q, inr resp)] r.
Proof.
  intros He H. split_and!; [| |cbn; lia|intros resp' ->; contradiction].
  - intros es ->. destruct H as [[tail ->] _]. exists tail.
    rewrite regionErrors_cons_inr, He. reflexivity.
  - intros [|i] q' resp' e' Hi He' Hf; cbn in Hi; [|discriminate].
    inversion Hi; subst. rewrite He in He'. inversion He'; subst.
    split; [reflexivity|]. rewrite regionErrors_cons_inr, He. cbn.
    destruct r as [?|es|]; [contradiction| |congruence].
    destruct H as [_ H]. now rewrite (H Hf).
Qed.

Lemma history_cons acc q resp e l r :
  kvrpcpb.RegionError resp = Some e ->
  retryable e = true ->
  history (acc ++ [ErrRestoreSplitFailed e]) l r ->
  history acc ((q, inr resp) :: l) r.
Proof.
  intros He Hre (Hes & Hfatal & Hprev & Hok). split_and!.
  - intros es E. apply Hes in E as [tail ->]. exists tail.
    rewrite regionErrors_cons_inr, He. cbn. now rewrite <- !app_assoc.
  - intros [|i] q' resp' e' Hi He' Hf; cbn in Hi.
    + inversion Hi; subst. congruence.
    + destruct (Hfatal i q' resp' e' Hi He' Hf) as [E ->].
      split; [cbn; lia|].
      rewrite regionErrors_cons_inr, He. cbn. now rewrite <- !app_assoc.
  - intros [|i] Hi; cbn in Hi.
    + exists q, resp, e. auto.
    + apply Hprev. lia.
  - intros resp' E. destruct (Hok resp' E) as (q' & Hlast & He').
    exists q'. rewrite last_cons, Hlast. auto.
Qed.

(** The loop with [n] iterations left sends at most [n] requests. *)
Lemma retry_history n : forall acc p keys s r s',
  retry env checkRegionEpoch n acc p keys s = (r, s') ->
  tlsConf s' = tlsConf s /\ cache_incl s s'
  /\ exists l, rpcs (trace s') = rpcs (trace s) ++ l
     /\ (length l <= n)%nat /\ history acc l r.
Proof.
  induction n as [|n IH]; intros acc p keys s r s' H.
  - inversion H; subst. split; [auto|]. split; [apply cache_incl_refl|].
    exists []. rewrite app_nil_r. split_and!; auto.
    apply history_nil. exists []. unfold errors_Trace. now rewrite app_nil_r.
  - rewrite retry_S in H.
    destruct (attempt env checkRegionEpoch acc p keys s) as [r1 s1] eqn:Ha.
    apply attempt_inv in Ha as (Ht & Hc & l & Hl & Hcase).
    destruct l as [|[q a] l2];
      [|destruct a as [e|resp]; (destruct l2; [|contradiction])].
    + (* nothing was sent *)
      destruct r1 as [c|es|]; [contradiction| |]; inversion H; subst;
        (split; [auto|split; [auto|]]); exists [];
        (split; [assumption|]); (split; [cbn; lia|]); now apply history_nil.
    + (* the transport failed *)
      subst r1. inversion H; subst. split; [auto|split; [auto|]].
      eexists. split; [exact Hl|]. split; [cbn; lia|].
      apply history_transport.
    + (* the store answered *)
      destruct (kvrpcpb.RegionError resp) as [e|] eqn:He.
      2:{ subst r1. inversion H; subst. split; [auto|split; [auto|]].
          eexists. split; [exact Hl|]. split; [cbn; lia|].
          now apply history_done. }
      destruct r1 as [[?|acc' p']|es|]; [contradiction| | |].
      * (* the loop goes on *)
        destruct Hcase as [-> Hre].
        apply IH in H as (Ht' & Hc' & l' & Hl' & Hlen & Hh).
        split; [congruence|]. split; [eauto using cache_incl_trans|].
        exists ((q, inr resp) :: l').
        rewrite Hl', Hl, <- app_assoc. split; [reflexivity|].
        split; [cbn; lia|]. eapply history_cons; eauto.
      * (* the call fails on this answer *)
        inversion H; subst. split; [auto|split; [auto|]].
        eexists. split; [exact Hl|]. split; [cbn; lia|].
        eapply history_last; eauto.
      * inversion H; subst. split; [auto|split; [auto|]].
        eexists. split; [exact Hl|]. split; [cbn; lia|].
        eapply history_last; eauto.
Qed.

Lemma sendSplitRegionRequest_history p keys s r s' :
  sendSplitRegionRequest env checkRegionEpoch p keys s = (r, s') ->
  tlsConf s' = tlsConf s /\ cache_incl s s' /\ deferred s' = deferred s
  /\ exists l, rpcs (trace s') = rpcs (trace s) ++ l
     /\ (length l <= splitRegionMaxRetryTime)%nat /\ history [] l r.
Proof.
  unfold sendSplitRegionRequest. intros H.
  apply with_deferred_inv in H as (s1 & cl & H & Ht & Hs & Hh & Hd & Htr).
  apply retry_history in H as (Ht1 & Hc1 & l & Hl & Hlen & Hhist).
  split; [now rewrite Ht, Ht1|]. split.
  { intros i v Hi. rewrite Hs. now apply Hc1. }
  split; [assumption|].
  exists l. rewrite Htr, rpcs_app, rpcs_closes, app_nil_r. auto.
Qed.

(** *** A cooperative cluster *)





(** *** The store cache *)

Lemma keeps_ret {A} (a : A) : keeps_cache (@ret W A a).
Proof. intros s r s' H. inversion H; subst. apply cache_incl_refl. Qed.

Lemma keeps_fail {A} e : keeps_cache (@fail W A e).
Proof. intros s r s' H. inversion H; subst. apply cache_incl_refl. Qed.

Lemma keeps_bind {A B} (m : M W A) (k : A -> M W B) :
  keeps_cache m -> (forall a, keeps_cache (k a)) -> keeps_cache (bind m k).
Proof.
  intros Hm Hk s r s' H.
  apply bind_inv in H as [(a & s1 & H1 & H2)|[(e & H1 & _)|(H1 & _)]]; eauto.
  eapply cache_incl_trans; [eapply Hm|eapply Hk]; eauto.
Qed.

Lemma keeps_or_return {A} (m : M W A) f :
  keeps_cache m -> keeps_cache (or_return m f).
Proof.
  intros Hm s r s' H.
  apply or_return_inv in H as [(a & H1 & _)|[(e & H1 & _)|(H1 & _)]]; eauto.
Qed.

Lemma keeps_same {A} (m : M W A) :
  (forall s r s', m s = (r, s') -> storeCache s' = storeCache s) ->
  keeps_cache m.
Proof. intros Hm s r s' H i v Hi. now rewrite (Hm _ _ _ H). Qed.

Lemma keeps_with_deferred {A} (m : M W A) :
  keeps_cache m -> keeps_cache (with_deferred env m).
Proof.
  intros Hm s r s' H.
  apply with_deferred_inv in H as (s1 & cl & H & _ & Hs & _).
  intros i v Hi. rewrite Hs. now apply (Hm _ _ _ H).
Qed.

Lemma keeps_GetStore id : keeps_cache (GetStore env id).
Proof. intros s r s' H. now apply GetStore_inv in H. Qed.

Lemma keeps_load p : keeps_cache (@load W p).
Proof.
  apply keeps_same. unfold load. intros s r s' H.
  destruct (heap s !! p); inversion H; now subst.
Qed.

Lemma keeps_Dial addr secure : keeps_cache (call_grpc_Dial env addr secure).
Proof.
  apply keeps_same. intros s r s' H.
  now apply call_grpc_Dial_inv in H as ((_ & ? & _) & _).
Qed.

Lemma keeps_tikv cn req : keeps_cache (call_tikv_SplitRegion env cn req).
Proof.
  apply keeps_same. intros s r s' H.
  now apply call_tikv_SplitRegion_inv in H as ((_ & ? & _) & _).
Qed.

Lemma keeps_defer_Close cn : keeps_cache (@defer_Close W cn).
Proof. apply keeps_same. intros s r s' H. inversion H; now subst. Qed.

Lemma keeps_GetRegionByID id : keeps_cache (GetRegionByID env id).
Proof.
  unfold GetRegionByID. apply keeps_bind.
  - apply keeps_or_return, keeps_same. intros s r s' H.
    now apply call_pd_GetRegionByID_inv in H as ((_ & ? & _) & _).
  - intros [r|]; [|apply keeps_ret].
    apply keeps_bind; [|intros; apply keeps_ret].
    apply keeps_same. intros s r0 s' H. inversion H; now subst.
Qed.

Lemma keeps_SplitRegion p key : keeps_cache (SplitRegion env p key).
Proof.
  unfold SplitRegion. apply keeps_with_deferred.
  apply keeps_bind; [apply keeps_load|]. intros ri.
  apply keeps_bind.
  { destruct (Leader ri); [apply keeps_ret|].
    destruct (Peers (Region ri)); [apply keeps_fail|apply keeps_ret]. }
  intros peer. apply keeps_bind; [apply keeps_or_return, keeps_GetStore|].
  intros store. apply keeps_bind; [apply keeps_or_return, keeps_Dial|].
  intros cn. apply keeps_bind; [apply keeps_defer_Close|]. intros _.
  apply keeps_bind; [apply keeps_or_return, keeps_tikv|]. intros resp.
  destruct (kvrpcpb.RegionError resp); [apply keeps_fail|].
  match goal with |- keeps_cache (match ?x with _ => _ end) => destruct x end;
    [apply keeps_ret|apply keeps_fail].
Qed.

Lemma keeps_BatchSplitRegionsWithOrigin p keys :
  keeps_cache (BatchSplitRegionsWithOrigin env checkRegionEpoch p keys).
Proof.
  unfold BatchSplitRegionsWithOrigin. apply keeps_bind.
  - apply keeps_or_return. intros s r s' H.
    now apply sendSplitRegionRequest_history in H.
  - intros resp. apply keeps_bind; [apply keeps_load|]. intros; apply keeps_ret.
Qed.

Lemma keeps_BatchSplitRegions p keys :
  keeps_cache (BatchSplitRegions env checkRegionEpoch p keys).
Proof.
  unfold BatchSplitRegions. apply keeps_bind.
  - apply keeps_BatchSplitRegionsWithOrigin.
  - intros; apply keeps_ret.
Qed.

Lemma keeps_snd {A} (m : M W A) s : keeps_cache m -> cache_incl s (snd (m s)).
Proof. intros Hm. destruct (m s) as [r s'] eqn:H. now apply (Hm _ _ _ H). Qed.

Lemma later_cache s s' :
  later env checkRegionEpoch s s' -> cache_incl s s'.
Proof.
  induction 1 as [s|s s1 s' Hs Ht Hl IH|id s s' Hl IH|id s s' Hl IH
                  |p key s s' Hl IH|p keys s s' Hl IH|p keys s s' Hl IH].
  - apply cache_incl_refl.
  - intros i v Hi. apply IH. now rewrite Hs.
  - eapply cache_incl_trans; [|exact IH]. apply keeps_snd, keeps_GetStore.
  - eapply cache_incl_trans; [|exact IH]. apply keeps_snd, keeps_GetRegionByID.
  - eapply cache_incl_trans; [|exact IH]. apply keeps_snd, keeps_SplitRegion.
  - eapply cache_incl_trans; [|exact IH].
    apply keeps_snd, keeps_BatchSplitRegionsWithOrigin.
  - eapply cache_incl_trans; [|exact IH]. apply keeps_snd, keeps_BatchSplitRegions.
Qed.

Lemma GetStore_caches id s store s1 :
  GetStore env id s = (Ok store, s1) -> storeCache s1 !! id = Some store.
Proof.
  intros H. apply GetStore_inv in H as (_ & _ & _ & _ & [(st & Hc & E & ->)|(_ & _ & _ & Hr)]).
  - now inversion E; subst.
  - destruct (fst (pd_GetStore env id (world s))); destruct Hr as [E Hs];
      inversion E; subst. rewrite Hs. apply lookup_insert_eq.
Qed.

(** *** The heap across one attempt *)

(** One iteration on a valid working pointer, as seen from the heap. *)
Lemma attempt_step acc p keys s r1 s1 ri :
  attempt env checkRegionEpoch acc p keys s = (r1, s1) ->
  heap s !! p = Some ri ->
  exists l1, rpcs (trace s1) = rpcs (trace s) ++ l1
    /\ match r1 with
       | Ok (Retry acc' p') =>
           exists q resp e,
             l1 = [(q, inr resp)] /\ kvrpcpb.RegionError resp = Some e
             /\ match errorpb.NotLeader_ e with
                | Some nl =>
                    match errorpb.Leader nl with
                    | Some h =>
                        p' = p
                        /\ heap s1 = <[p := mkRegionInfo (Region ri) (Some h)]> (heap s)
                    | None =>
                        p' = length (heap s)
                        /\ exists new, heap s1 = heap s ++ [new]
                    end
                | None => p' = p /\ heap s1 = heap s
                end
       | _ =>
           (heap s1 = heap s \/ exists new, heap s1 = heap s ++ [new])
           /\ forall leader, hintedLeader leader l1 = leader
       end.
Proof.
  rewrite attempt_eq. intros H Hp.
  destruct (sendOnce env acc p keys s) as [r0 s0] eqn:H0.
  apply sendOnce_inv in H0 as (_ & Hheap & _ & evs & Htr & _ & Hcase).
  destruct Hcase as [(Hr & Hres)|(ri' & peer & a & Hp' & Hpeer & Hr & Hres)].
  { destruct r0 as [?|e|]; [contradiction| |]; inversion H; subst;
      exists []; rewrite Htr, rpcs_app, Hr; auto. }
  rewrite Hp in Hp'. inversion Hp'; subst ri'. clear Hp'.
  destruct a as [e|resp]; subst r0.
  { inversion H; subst. eexists. rewrite Htr, rpcs_app, Hr. split; [reflexivity|].
    auto. }
  cbn [snd] in H. rewrite interpret_eq in H.
  assert (Hl : forall (s2 : state W) evs2,
             trace s2 = trace s0 ++ evs2 -> rpcs evs2 = [] ->
             rpcs (trace s2)
             = rpcs (trace s) ++ [(batchRequest ri peer keys, inr resp)]).
  { intros s2 evs2 E1 E2. now rewrite E1, rpcs_app, E2, app_nil_r, Htr, rpcs_app, Hr. }
  assert (Hl0 := Hl s0 [] ltac:(now rewrite app_nil_r) eq_refl).
  destruct (kvrpcpb.RegionError resp) as [e|] eqn:He.
  2:{ inversion H; subst. eexists. split; [exact Hl0|]. cbn. rewrite He. auto. }
  cbn zeta in H. destruct (errorpb.NotLeader_ e) as [nl|] eqn:Hnl.
  2:{ destruct (errorpb.ServerIsBusy e || errorpb.StaleCommand e);
        inversion H; subst; (eexists; split; [exact Hl0|]).
      - exists (batchRequest ri peer keys), resp, e. rewrite Hnl. auto.
      - cbn. rewrite He, Hnl. auto. }
  destruct (errorpb.Leader nl) as [h|] eqn:Hld.
  { rewrite Hheap, Hp in H. inversion H; subst. eexists. split.
    - apply (Hl _ []); [cbn; now rewrite app_nil_r|reflexivity].
    - exists (batchRequest ri peer keys), resp, e. rewrite Hnl, Hld. cbn.
      auto. }
  assert (Hhint : forall leader,
             hintedLeader leader [(batchRequest ri peer keys, inr resp)] = leader).
  { intros leader. cbn. now rewrite He, Hnl, Hld. }
  destruct (pd_GetRegionByID env (errorpb.RegionId nl) (world s0)) as [[c|[new|]] w];
    cbn in H.
  - inversion H; subst. eexists. split; [eapply Hl; [cbn; reflexivity|reflexivity]|].
    cbn [heap log_event set_world]. auto.
  - rewrite Hheap, lookup_app_l in H by (now apply lookup_lt_Some in Hp).
    rewrite Hp in H.
    destruct (checkRegionEpoch _ ri); cbn in H;
      [destruct (Leader new)|]; inversion H; subst;
      (eexists; split; [eapply Hl; [cbn; reflexivity|reflexivity]|]);
      cbn [heap set_heap log_event set_world].
    + exists (batchRequest ri peer keys), resp, e. rewrite Hnl, Hld. eauto.
    + eauto.
    + eauto.
  - inversion H; subst. eexists. split; [eapply Hl; [cbn; reflexivity|reflexivity]|].
    cbn [heap log_event set_world]. auto.
Qed.

End Facts.

(** ** The caller's object and the regions returned *)

Section Aliasing.

Context {W : Type}.
Variable env : Env W.
Variable checkRegionEpoch : RegionInfo -> RegionInfo -> bool.

(** The caller's object across a run of the loop: its region is never
    written; its leader is written only while the loop works on it. *)
Lemma retry_caller n : forall acc p keys s r s' p0 ri0 ri,
  retry env checkRegionEpoch n acc p keys s = (r, s') ->
  heap s !! p0 = Some ri0 ->
  heap s !! p = Some ri ->
  exists l, rpcs (trace s') = rpcs (trace s) ++ l
    /\ heap s' !! p0
       = Some (mkRegionInfo (Region ri0)
                 (if decide (p = p0) then hintedLeader (Leader ri0) l
                  else Leader ri0)).
Proof.
  induction n as [|n IH]; intros acc p keys s r s' p0 ri0 ri H Hp0 Hp.
  - inversion H; subst. exists []. rewrite app_nil_r. split; [reflexivity|].
    rewrite Hp0. destruct ri0. cbn. now destruct (decide (p = p0)).
  - rewrite retry_S in H.
    destruct (attempt env checkRegionEpoch acc p keys s) as [r1 s1] eqn:Ha.
    destruct (attempt_step env checkRegionEpoch _ _ _ _ _ _ _ Ha Hp)
      as (l1 & Hl1 & Hcase).
    assert (Hstop :
      (heap s1 = heap s \/ exists new, heap s1 = heap s ++ [new])
      /\ (forall leader, hintedLeader leader l1 = leader) ->
      rpcs (trace s1) = rpcs (trace s) ++ l1
      /\ heap s1 !! p0
        = Some (mkRegionInfo (Region ri0)
                   (if decide (p = p0) then hintedLeader (Leader ri0) l1
                    else Leader ri0))).
    { intros [Hheap Hhint]. split; [assumption|]. rewrite Hhint.
      assert (E : heap s1 !! p0 = Some ri0).
      { destruct Hheap as [->|[new ->]]; [assumption|].
        rewrite lookup_app_l; [assumption|]. now apply lookup_lt_Some in Hp0. }
      rewrite E. destruct ri0. cbn. now destruct (decide (p = p0)). }
    destruct r1 as [[resp|acc' p']|e|];
      try (inversion H; subst; exists l1; now apply Hstop).
    destruct Hcase as (q & resp & e & -> & He & Hcase).
    destruct (errorpb.NotLeader_ e) as [nl|] eqn:Hnl;
      [destruct (errorpb.Leader nl) as [h|] eqn:Hld|].
    + (* the leader is overwritten through the working pointer *)
      destruct Hcase as [-> Hheap].
      assert (Hp' : heap s1 !! p = Some (mkRegionInfo (Region ri) (Some h))).
      { rewrite Hheap. apply list_lookup_insert_eq. now apply lookup_lt_Some in Hp. }
      destruct (decide (p = p0)) as [->|Hne].
      * rewrite Hp0 in Hp. inversion Hp; subst ri0.
        destruct (IH _ _ _ _ _ _ p0 _ _ H Hp' Hp') as (l & Hl & Hc).
        exists ((q, inr resp) :: l). rewrite Hl, Hl1, <- app_assoc.
        split; [reflexivity|]. rewrite Hc. cbn.
        rewrite He, Hnl, Hld. now destruct (decide (p0 = p0)).
      * assert (Hp0' : heap s1 !! p0 = Some ri0).
        { rewrite Hheap. now rewrite list_lookup_insert_ne. }
        destruct (IH _ _ _ _ _ _ p0 _ _ H Hp0' Hp') as (l & Hl & Hc).
        exists ((q, inr resp) :: l). rewrite Hl, Hl1, <- app_assoc.
        split; [reflexivity|]. rewrite Hc. now destruct (decide (p = p0)).
    + (* the loop moves to the object of the fresh lookup *)
      destruct Hcase as [-> [new Hheap]].
      assert (Hp' : heap s1 !! length (heap s) = Some new).
      { rewrite Hheap. now apply list_lookup_middle. }
      assert (Hp0' : heap s1 !! p0 = Some ri0).
      { rewrite Hheap, lookup_app_l; [assumption|]. now apply lookup_lt_Some in Hp0. }
      assert (Hne : length (heap s) <> p0).
      { apply lookup_lt_Some in Hp0. lia. }
      destruct (IH _ _ _ _ _ _ p0 _ _ H Hp0' Hp') as (l & Hl & Hc).
      exists ((q, inr resp) :: l). rewrite Hl, Hl1, <- app_assoc.
      split; [reflexivity|]. rewrite Hc. cbn. rewrite He, Hnl, Hld.
      destruct (decide (length (heap s) = p0)); [contradiction|].
      now destruct (decide (p = p0)).
    + (* the working object is left as it is *)
      destruct Hcase as [-> Hheap]. rewrite <- Hheap in Hp0, Hp.
      destruct (IH _ _ _ _ _ _ p0 _ _ H Hp0 Hp) as (l & Hl & Hc).
      exists ((q, inr resp) :: l). rewrite Hl, Hl1, <- app_assoc.
      split; [reflexivity|]. rewrite Hc. cbn. now rewrite He, Hnl.
Qed.

(** The request sender as a whole: what it returns and what it leaves in
    the caller's object. *)
Lemma sendSplitRegionRequest_caller p keys s r s' ri :
  sendSplitRegionRequest env checkRegionEpoch p keys s = (r, s') ->
  heap s !! p = Some ri ->
  exists l, rpcs (trace s') = rpcs (trace s) ++ l
    /\ history [] l r
    /\ heap s' !! p
       = Some (mkRegionInfo (Region ri) (hintedLeader (Leader ri) l)).
Proof.
  unfold sendSplitRegionRequest. intros H Hp.
  apply with_deferred_inv in H as (s1 & cl & H & _ & _ & Hh & _ & Htr).
  destruct (retry_history env checkRegionEpoch _ _ _ _ _ _ _ H)
    as (_ & _ & l & Hl & _ & Hhist).
  destruct (retry_caller _ _ _ _ _ _ _ p ri ri H Hp Hp) as (l' & Hl' & Hc).
  rewrite Hl in Hl'. apply app_inv_head in Hl'. subst l'.
  exists l. rewrite Htr, rpcs_app, rpcs_closes, app_nil_r, Hh.
  split; [exact Hl|]. split; [exact Hhist|].
  rewrite Hc. now destruct (decide (p = p)).
Qed.

(** The loop over the regions of the answer keeps the last region with
    the identifier as the origin and the others, in order, as new. *)
Lemma classify_foldl ri rs : forall o ns,
  foldl (classify ri) (o, ns) rs
  = (match last (List.filter (sameId ri) rs) with
     | Some r => Some (withLeader (Leader ri) r)
     | None => o
     end,
     ns ++ map (withLeader (Leader ri))
               (List.filter (fun r => negb (sameId ri r)) rs)).
Proof.
  induction rs as [|r rs IH]; intros o ns; cbn.
  - now rewrite app_nil_r.
  - unfold classify at 2. fold (sameId ri r). destruct (sameId ri r); cbn.
    + rewrite IH. f_equal. rewrite last_cons.
      now destruct (last (List.filter (sameId ri) rs)).
    + rewrite IH. f_equal. now rewrite <- app_assoc.
Qed.

Lemma BatchSplitRegionsWithOrigin_inv p keys s origin news s' ri :
  BatchSplitRegionsWithOrigin env checkRegionEpoch p keys s
  = (Ok (origin, news), s') ->
  heap s !! p = Some ri ->
  exists l q resp,
    rpcs (trace s') = rpcs (trace s) ++ l
    /\ last l = Some (q, inr resp)
    /\ kvrpcpb.RegionError resp = None
    /\ heap s' !! p = Some (mkRegionInfo (Region ri) (hintedLeader (Leader ri) l))
    /\ (origin, news)
       = foldl (classify (mkRegionInfo (Region ri) (hintedLeader (Leader ri) l)))
               (None, []) (kvrpcpb.Regions resp).
Proof.
  unfold BatchSplitRegionsWithOrigin. intros H Hp.
  apply bind_inv in H as [(resp & s1 & H1 & H)|[(e & _ & ?)|(_ & ?)]];
    try discriminate.
  apply or_return_inv in H1 as [(resp' & H1 & E)|[(? & _ & ?)|(_ & ?)]];
    try discriminate. inversion E; subst resp'; clear E.
  destruct (sendSplitRegionRequest_caller _ _ _ _ _ _ H1 Hp)
    as (l & Hl & (_ & _ & _ & Hok) & Hc).
  destruct (Hok resp eq_refl) as (q & Hlast & He).
  unfold bind, load in H. rewrite Hc in H. inversion H; subst.
  exists l, q, resp. auto.
Qed.



(** The first peer on the store, when several are there. *)
Lemma leaderOnSameStore_first l peers q :
  leaderOnSameStore (Some l) peers = Some q ->
  exists before after,
    peers = before ++ q :: after
    /\ forall x, x ∈ before -> Peer_StoreId x <> Peer_StoreId l.
Proof.
  cbn. induction peers as [|p0 peers IH]; [discriminate|]. cbn.
  destruct (Peer_StoreId p0 =? Peer_StoreId l) eqn:E.
  - intros H. inversion H; subst. exists [], peers. split; [reflexivity|].
    intros x Hx. inversion Hx.
  - intros H. destruct (IH H) as (before & after & -> & Hb).
    exists (p0 :: before), after. split; [reflexivity|].
    intros x Hx. apply N.eqb_neq in E. inversion Hx; subst; auto.
Qed.

Lemma SplitRegion_inv p key s ri' s' ri :
  SplitRegion env p key s = (Ok ri', s') ->
  heap s !! p = Some ri ->
  exists q resp,
    rpcs (trace s') = rpcs (trace s) ++ [(q, inr resp)]
    /\ kvrpcpb.Peer (kvrpcpb.Context_ q)
       = match Leader ri with
        | Some leader => Some leader
        | None => head (Peers (Region ri))
        end
    /\ kvrpcpb.RegionError resp = None
    /\ heap s' = heap s
    /\ Some (Region ri')
       = match kvrpcpb.Left resp with
        | Some lr => Some lr
        | None =>
             find (fun r => bytes_Equal (StartKey r) (StartKey (Region ri)))
                  (kvrpcpb.Regions resp)
        end
    /\ Leader ri' = leaderOnSameStore (Leader ri) (Peers (Region ri')).
Proof.
  unfold SplitRegion. intros H Hp.
  apply with_deferred_inv in H as (s1 & cl & H & _ & _ & Hh & _ & Htr).
  apply bind_inv in H as [(ri0 & sa & H1 & H)|[(? & _ & ?)|(_ & ?)]];
    try discriminate.
  unfold load in H1. cbn in H1. rewrite Hp in H1. inversion H1; subst; clear H1.
  apply bind_inv in H as [(peer & sb & H1 & H)|[(? & _ & ?)|(_ & ?)]];
    try discriminate.
  assert (Hpeer : sb = set_deferred [] s
                  /\ Some peer = match Leader ri0 with
                                 | Some leader => Some leader
                                 | None => head (Peers (Region ri0))
                                 end).
  { destruct (Leader ri0); [inversion H1; now subst|].
    destruct (Peers (Region ri0)); inversion H1; now subst. }
  destruct Hpeer as [-> Hpeer]. clear H1.
  apply bind_inv in H as [(store & sc & H1 & H)|[(? & _ & ?)|(_ & ?)]];
    try discriminate.
  apply or_return_inv in H1 as [(a0 & H1 & E)|[(? & _ & ?)|(_ & ?)]];
    try discriminate. injection E as <-.
  apply GetStore_inv in H1 as (_ & Hhc & _ & _ & Hg).
  assert (Hrc : rpcs (trace sc) = rpcs (trace s)).
  { destruct Hg as [(? & _ & _ & ->)|(_ & -> & _)]; [reflexivity|].
    rewrite rpcs_app. cbn. now rewrite app_nil_r. }
  clear Hg.
  apply bind_inv in H as [(cn & sd & H1 & H)|[(? & _ & ?)|(_ & ?)]];
    try discriminate.
  apply or_return_inv in H1 as [(a0 & H1 & E)|[(? & _ & ?)|(_ & ?)]];
    try discriminate. injection E as <-.
  apply call_grpc_Dial_inv in H1 as ((_ & _ & Hhd & _) & Htrd & _).
  apply bind_inv in H as [([] & se & H1 & H)|[(? & _ & ?)|(_ & ?)]];
    try discriminate.
  inversion H1; subst; clear H1.
  apply bind_inv in H as [(resp & sf & H1 & H)|[(? & _ & ?)|(_ & ?)]];
    try discriminate.
  apply or_return_inv in H1 as [(a0 & H1 & E)|[(? & _ & ?)|(_ & ?)]];
    try discriminate. injection E as <-.
  apply call_tikv_SplitRegion_inv in H1 as ((_ & _ & Hhf & _) & _ & Hr).
  destruct (fst (tikv_SplitRegion _ _ _ _)) as [e0|resp0]; destruct Hr as [E Htrf];
    [discriminate|]. injection E as E. subst resp0.
  cbn in Htrf, Hhf.
  destruct (kvrpcpb.RegionError resp) eqn:He; [discriminate|].
  match type of H with
  | match ?x with _ => _ end _ = _ => destruct x as [newRegion|] eqn:Hnew
  end; [|discriminate].
  inversion H; subst; clear H.
  eexists _, resp. rewrite Htr, rpcs_app, rpcs_closes, app_nil_r, Htrf, rpcs_app.
  rewrite Htrd, rpcs_app, Hrc. cbn. rewrite app_nil_r.
  split; [reflexivity|]. cbn. split; [exact Hpeer|].
  split; [exact He|]. cbn in Hhc. split; [congruence|]. split; [|reflexivity].
  now rewrite Hnew.
Qed.

End Aliasing.

(** ** Steps of the executor *)

(** The executor of the batch split addresses the leader of the working
    region_info when it has one with an identifier, and the first peer of
    the region otherwise. *)
Lemma choosePeer_spec ri :
  choosePeer ri
  = match Leader ri with
    | Some leader =>
        if Peer_Id leader =? 0 then head (Peers (Region ri)) else Some leader
    | None => head (Peers (Region ri))
    end.
Proof.
  unfold choosePeer. destruct (Leader ri) as [leader|]; [|reflexivity].
  now destruct (Peer_Id leader =? 0).
Qed.

Lemma sendOnce_addresses_chosen_peer
    {W} (env : Env W) acc p keys s peer resp s1 ri :
  sendOnce env acc p keys s = (Ok (peer, resp), s1) ->
  heap s !! p = Some ri ->
  choosePeer ri = Some peer
  /\ rpcs (trace s1) = rpcs (trace s) ++ [(batchRequest ri peer keys, inr resp)].
Proof.
  intros H Hp.
  destruct (sendOnce_inv env _ _ _ _ _ _ H)
    as (_ & _ & _ & evs & Htr & _ & [(_ & [])|(ri' & peer' & a & Hp' & Hpeer & Hr & Hres)]).
  destruct a as [?|resp']; [discriminate|]. injection Hres as <- <-.
  rewrite Hp in Hp'. injection Hp' as <-.
  split; [exact Hpeer|]. now rewrite Htr, rpcs_app, Hr.
Qed.

(** Without a usable leader and without a peer the call fails at once with
    the no-peer error after the errors accumulated, and nothing is sent. *)
Lemma no_peer_fails_without_retry
    {W} (env : Env W) checkRegionEpoch n acc p keys s ri :
  heap s !! p = Some ri ->
  choosePeer ri = None ->
  retry env checkRegionEpoch (S n) acc p keys s
  = (Err (acc ++ [ErrRestoreNoPeer (Region_Id (Region ri))]), s).
Proof.
  intros Hp Hpeer. rewrite retry_S, attempt_eq.
  unfold sendOnce, bind, load. now rewrite Hp, Hpeer.
Qed.

(** What the executor does after a NotLeader answer without a leader, when
    the by-ID lookup returns a region: one lookup, by the identifier of the
    NotLeader error; the epoch-mismatch error when the check of the fresh
    object against the working one fails; otherwise the loop goes on with
    the fresh object, provided it has a leader, and the call panics on
    line 299 when it has none. *)
Lemma not_leader_without_hint_step
    {W} (env : Env W) checkRegionEpoch acc p keys s peer resp s1 e nl new w :
  sendOnce env acc p keys s = (Ok (peer, resp), s1) ->
  kvrpcpb.RegionError resp = Some e ->
  errorpb.NotLeader_ e = Some nl ->
  errorpb.Leader nl = None ->
  pd_GetRegionByID env (errorpb.RegionId nl) (world s1) = (inr (Some new), w) ->
  exists ri s2,
    heap s !! p = Some ri
    /\ trace s2 = trace s1 ++ [EvPdGetRegionByID (errorpb.RegionId nl)]
    /\ heap s2 = heap s ++ [mkRegionInfo (Region new) (Leader new)]
    /\ attempt env checkRegionEpoch acc p keys s
       = (if checkRegionEpoch (mkRegionInfo (Region new) (Leader new)) ri
          then match Leader new with
               | Some _ =>
                   Ok (Retry (acc ++ [ErrRestoreSplitFailed e]) (length (heap s)))
               | None => Panic
               end
          else Err (acc ++ [ErrRestoreSplitFailed e] ++ [ErrKVEpochNotMatch]),
          s2).
Proof.
  intros Hsend He Hnl Hld Hlook.
  destruct (sendOnce_inv env _ _ _ _ _ _ Hsend)
    as (_ & Hh & _ & evs & Htr & Hlk & [(_ & [])|(ri & peer' & a & Hp & Hpeer & Hr & Hres)]).
  exists ri,
    (set_heap (heap s ++ [mkRegionInfo (Region new) (Leader new)])
       (log_event (EvPdGetRegionByID (errorpb.RegionId nl)) (set_world w s1))).
  split; [exact Hp|]. split; [reflexivity|]. split; [reflexivity|].
  rewrite attempt_eq, Hsend. cbn [snd]. rewrite interpret_eq, He. cbn zeta.
  rewrite Hnl, Hld, Hlook. cbn [fst snd].
  rewrite Hh, lookup_app_l by (now apply lookup_lt_Some in Hp). rewrite Hp.
  destruct (checkRegionEpoch _ ri); cbn;
    [destruct (Leader new)|rewrite <- app_assoc]; reflexivity.
Qed.

(** Running the client on a concrete cluster: the result is computed, the
    state is the one the run leaves. *)
Ltac by_run := apply run_eq; vm_compute; reflexivity.

(** ** Properties of the split client *)



(** C2 as amended: a successful batch split chooses the origin by
    identifier alone, whatever the left and right fields of the answer
    hold: the origin is the last region of the answer with the identifier
    of the region that was split (the only one when there is exactly one),
    and nil when the answer has none, the call succeeding all the same;
    the new regions are the others, in order.  The single-key split returns
    instead the left region of the answer when it has one, and otherwise
    the first region that starts where the region that was split
    started. *)
Theorem origin_is_last_region_with_the_identifier
    {W} (env : Env W) checkRegionEpoch p s ri :
  heap s !! p = Some ri ->
  (forall keys origin news s',
      BatchSplitRegionsWithOrigin env checkRegionEpoch p keys s
      = (Ok (origin, news), s') ->
      exists l q resp,
        rpcs (trace s') = rpcs (trace s) ++ l
        /\ last l = Some (q, inr resp)
        /\ kvrpcpb.RegionError resp = None
        /\ Region <$> origin
           = last (List.filter (sameId ri) (kvrpcpb.Regions resp))
        /\ map Region news
           = List.filter (fun r => negb (sameId ri r)) (kvrpcpb.Regions resp))
  /\ (forall key x s',
        SplitRegion env p key s = (Ok x, s') ->
        exists q resp,
          rpcs (trace s') = rpcs (trace s) ++ [(q, inr resp)]
          /\ kvrpcpb.RegionError resp = None
          /\ Some (Region x)
             = match kvrpcpb.Left resp with
               | Some lr => Some lr
               | None =>
                   find (fun r => bytes_Equal (StartKey r) (StartKey (Region ri)))
                        (kvrpcpb.Regions resp)
               end).
Proof.
  intros Hp. split.
  - intros keys origin news s' H.
    destruct (BatchSplitRegionsWithOrigin_inv env checkRegionEpoch _ _ _ _ _ _ _ H Hp)
      as (l & q & resp & Hl & Hlast & He & _ & Hfold).
    exists l, q, resp. split; [exact Hl|]. split; [exact Hlast|]. split; [exact He|].
    rewrite classify_foldl in Hfold. injection Hfold as -> ->.
    change (sameId (mkRegionInfo (Region ri) (hintedLeader (Leader ri) l)))
      with (sameId ri).
    split.
    + now destruct (last (List.filter (sameId ri) (kvrpcpb.Regions resp))).
    + cbn. rewrite map_map. cbn. apply map_id.
  - intros key x s' H.
    destruct (SplitRegion_inv env _ _ _ _ _ _ H Hp)
      as (q & resp & Hl & _ & He & _ & Hx & _).
    exists q, resp. auto.
Qed.

(** Region 1 split at m: the answer lists regions 2 and 1, and region 1 is
    the origin. *)
Lemma origin_is_last_region_with_the_identifier_witness :
  heap splitOnce !! 0%nat = Some ri1
  /\ exists resp,
       kvrpcpb.RegionError resp = None
       /\ Some r1' = last (List.filter (sameId ri1) (kvrpcpb.Regions resp))
       /\ [r2] = List.filter (fun r => negb (sameId ri1 r)) (kvrpcpb.Regions resp).
Proof.
  split; [reflexivity|].
  destruct (proj1 (origin_is_last_region_with_the_identifier scripted epochDominates
                     0%nat splitOnce ri1 eq_refl)
              [] (Some (mkRegionInfo r1' (Some p11)))
              [mkRegionInfo r2 (Some (mkPeer 21 1))]
              (snd (BatchSplitRegionsWithOrigin scripted epochDominates 0%nat []
                      splitOnce)))
    as (l & q & resp & _ & _ & He & Ho & Hn).
  - by_run.
  - exists resp. split; [exact He|]. split; [exact Ho|exact Hn].
Defined.

(** C2 as worded fails: a batch split whose answer lacks the region that
    was split succeeds with a nil origin, and the single-key split returns
    the left region of the answer, whose identifier is another one. *)
Lemma origin_not_always_found_by_identifier :
  ~ batch_origin_always_found /\ ~ single_split_returns_same_identifier.
Proof.
  split.
  - intros H.
    assert (E : BatchSplitRegionsWithOrigin scripted epochDominates 0%nat []
                  originMissing
                = (Ok (None, [mkRegionInfo r2 (Some (mkPeer 21 1))]),
                   snd (BatchSplitRegionsWithOrigin scripted epochDominates
                          0%nat [] originMissing))) by by_run.
    destruct (H script scripted epochDominates 0%nat [] originMissing ri1 _ _ _
                eq_refl E) as (x & Hx & _).
    discriminate.
  - intros H.
    assert (E : SplitRegion scripted 0%nat [Byte.x6d] legacyAnswer
                = (Ok (mkRegionInfo r2 (Some (mkPeer 21 1))),
                   snd (SplitRegion scripted 0%nat [Byte.x6d] legacyAnswer)))
      by by_run.
    assert (E' := H script scripted 0%nat [Byte.x6d] legacyAnswer ri1 _ _
                    eq_refl E).
    discriminate.
Qed.

(** C3 as amended: after a NotLeader answer that carries a leader, the
    iteration writes that leader into the working object, calls nothing
    more (no by-ID lookup is made) and goes on with the same pointer and
    one iteration less; when the next attempt reaches the store, it has made
    no lookup either, and it addresses the new leader if its identifier is
    not zero, the first peer of the region otherwise. *)
Theorem not_leader_hint_is_written_and_followed
    {W} (env : Env W) checkRegionEpoch acc p keys s peer resp s1 e nl h n :
  sendOnce env acc p keys s = (Ok (peer, resp), s1) ->
  kvrpcpb.RegionError resp = Some e ->
  errorpb.NotLeader_ e = Some nl ->
  errorpb.Leader nl = Some h ->
  exists ri s2,
    heap s !! p = Some ri
    /\ attempt env checkRegionEpoch acc p keys s
       = (Ok (Retry (acc ++ [ErrRestoreSplitFailed e]) p), s2)
    /\ heap s2 !! p = Some (mkRegionInfo (Region ri) (Some h))
    /\ trace s2 = trace s1 /\ world s2 = world s1
    /\ lookups (trace s2) = lookups (trace s)
    /\ retry env checkRegionEpoch (S n) acc p keys s
       = retry env checkRegionEpoch n (acc ++ [ErrRestoreSplitFailed e]) p keys s2
    /\ forall acc2 peer2 resp2 s3,
         sendOnce env acc2 p keys s2 = (Ok (peer2, resp2), s3) ->
         lookups (trace s3) = lookups (trace s)
         /\ (Peer_Id h <> 0 ->
             rpcs (trace s3)
             = rpcs (trace s2)
               ++ [(batchRequest (mkRegionInfo (Region ri) (Some h)) h keys,
                    inr resp2)])
         /\ (Peer_Id h = 0 -> head (Peers (Region ri)) = Some peer2).
Proof.
  intros Hsend He Hnl Hld.
  destruct (sendOnce_inv env _ _ _ _ _ _ Hsend)
    as (_ & Hh & _ & evs & Htr & Hlk & [(_ & [])|(ri & peer' & a & Hp & Hpeer & Hr & Hres)]).
  destruct a as [?|resp']; [discriminate|]. injection Hres as <- <-.
  exists ri. eexists.
  assert (Ha : attempt env checkRegionEpoch acc p keys s
               = (Ok (Retry (acc ++ [ErrRestoreSplitFailed e]) p),
                  set_heap (<[p := mkRegionInfo (Region ri) (Some h)]> (heap s1)) s1)).
  { rewrite attempt_eq, Hsend. cbn [snd]. rewrite interpret_eq, He. cbn zeta.
    now rewrite Hnl, Hld, Hh, Hp. }
  assert (Hp2 : heap (set_heap (<[p := mkRegionInfo (Region ri) (Some h)]> (heap s1)) s1)
                !! p = Some (mkRegionInfo (Region ri) (Some h))).
  { cbn. rewrite Hh. apply list_lookup_insert_eq. now apply lookup_lt_Some in Hp. }
  split; [exact Hp|]. split; [exact Ha|]. split; [exact Hp2|].
  split; [reflexivity|]. split; [reflexivity|]. split.
  { cbn. now rewrite Htr, lookups_app, Hlk, app_nil_r. }
  split.
  { now rewrite retry_S, Ha. }
  intros acc2 peer2 resp2 s3 Hsend2.
  destruct (sendOnce_inv env _ _ _ _ _ _ Hsend2)
    as (_ & _ & _ & evs2 & Htr2 & Hlk2
        & [(_ & [])|(ri2 & peer2' & a2 & Hp2' & Hpeer2 & Hr2 & Hres2)]).
  destruct a2 as [?|resp2']; [discriminate|]. injection Hres2 as <- <-.
  rewrite Hp2 in Hp2'. injection Hp2' as <-.
  split.
  { rewrite Htr2, lookups_app, Hlk2, app_nil_r. cbn.
    now rewrite Htr, lookups_app, Hlk, app_nil_r. }
  unfold choosePeer in Hpeer2. cbn in Hpeer2. split.
  - intros Hid. apply N.eqb_neq in Hid. rewrite Hid in Hpeer2. cbn in Hpeer2.
    injection Hpeer2 as <-. now rewrite Htr2, rpcs_app, Hr2.
  - intros Hid. apply N.eqb_eq in Hid. rewrite Hid in Hpeer2. exact Hpeer2.
Qed.

(** A store that names peer 12 as the leader. *)
Lemma not_leader_hint_is_written_and_followed_witness :
  exists s2,
    attempt scripted epochDominates [] 0%nat [] hintOnce
    = (Ok (Retry [ErrRestoreSplitFailed (notLeader 1 (Some p12))] 0%nat), s2)
    /\ heap s2 !! 0%nat = Some (mkRegionInfo r1 (Some p12))
    /\ lookups (trace s2) = [].
Proof.
  destruct (not_leader_hint_is_written_and_followed scripted epochDominates
              [] 0%nat [] hintOnce p11
              (kvrpcpb.mkResponse (Some (notLeader 1 (Some p12))) None None [])
              (snd (sendOnce scripted [] 0%nat [] hintOnce))
              (notLeader 1 (Some p12)) (errorpb.mkNotLeader 1 (Some p12)) p12 3)
    as (ri & s2 & Hp & Ha & Hh & _ & _ & Hl & _).
  - by_run.
  - reflexivity.
  - reflexivity.
  - reflexivity.
  - injection Hp as <-. exists s2. split; [exact Ha|]. split; [exact Hh|exact Hl].
Defined.

(** C3 as worded fails: when the leader given by the NotLeader answer has
    no identifier, the next attempt addresses the first peer of the
    region. *)
Lemma hinted_leader_not_always_addressed : ~ hinted_leader_always_addressed.
Proof.
  intros H.
  pose (step := attempt scripted epochDominates [] 0%nat [] zeroHint).
  assert (E1 : sendOnce scripted [] 0%nat [] zeroHint
               = (Ok (p11, kvrpcpb.mkResponse
                             (Some (notLeader 1 (Some (mkPeer 0 2)))) None None []),
                  snd (sendOnce scripted [] 0%nat [] zeroHint))) by by_run.
  assert (E2 : sendOnce scripted [] 0%nat [] (snd step)
               = (Ok (p11, kvrpcpb.mkResponse (Some busy) None None []),
                  snd (sendOnce scripted [] 0%nat [] (snd step)))) by by_run.
  assert (E := H script scripted epochDominates [] 0%nat [] zeroHint _ _ _ _
                 (errorpb.mkNotLeader 1 (Some (mkPeer 0 2))) (mkPeer 0 2)
                 (fst step) (snd step)
                 E1 eq_refl eq_refl eq_refl (surjective_pairing step)
                 _ _ _ _ E2).
  discriminate.
Qed.

(** C4, at the input on which the code fails: the store answers NotLeader
    without a leader, PD finds the region, with the same epoch, but knows
    no leader for it either; the epoch check passes and the call panics on
    the nil leader read by the log statement of line 299, after one request
    and one lookup, instead of going on with the fresh region_info. *)
Theorem reresolved_region_without_leader_panics :
  let run := sendSplitRegionRequest scripted epochDominates 0%nat [] leaderless in
  fst run = Panic
  /\ length (rpcs (trace (snd run))) = 1%nat
  /\ lookups (trace (snd run)) = [1]
  /\ epochDominates (mkRegionInfo r1 None) ri1 = true.
Proof. vm_compute. auto. Qed.

(** C5: an answer whose region error is neither NotLeader, ServerIsBusy nor
    StaleCommand ends the call at once: it is the last request sent, and the
    error returned lists the region errors of all the attempts of the call,
    this one included, every attempt having answered with one. *)
Theorem fatal_region_error_is_returned_at_once
    {W} (env : Env W) checkRegionEpoch p keys s r s' l i q resp e :
  sendSplitRegionRequest env checkRegionEpoch p keys s = (r, s') ->
  rpcs (trace s') = rpcs (trace s) ++ l ->
  l !! i = Some (q, inr resp) ->
  kvrpcpb.RegionError resp = Some e ->
  errorpb.NotLeader_ e = None ->
  errorpb.ServerIsBusy e = false ->
  errorpb.StaleCommand e = false ->
  S i = length l
  /\ length (regionErrors l) = length l
  /\ r = Err (map ErrRestoreSplitFailed (regionErrors l)).
Proof.
  intros H Hl Hi He Hnl Hb Hst.
  apply sendSplitRegionRequest_history in H as (_ & _ & _ & l' & Hl' & _ & Hh).
  rewrite Hl in Hl'. apply app_inv_head in Hl'. subst l'.
  destruct Hh as (_ & Hfatal & Hprev & _).
  assert (Hf : retryable e = false).
  { unfold retryable. now rewrite Hnl, Hb, Hst. }
  destruct (Hfatal i q resp e Hi He Hf) as [Hlen Hr].
  split; [assumption|]. split; [|assumption].
  clear Hfatal Hr. revert i Hi Hlen Hprev. clear - He.
  induction l as [|[q' a] l IH]; intros i Hi Hlen Hprev; [reflexivity|].
  destruct i as [|i]; cbn in Hi, Hlen.
  - inversion Hi; subst. destruct l; [|discriminate].
    rewrite regionErrors_cons_inr, He. reflexivity.
  - destruct (Hprev 0%nat) as (q0 & resp0 & e0 & H0 & He0 & _); [cbn; lia|].
    cbn in H0. inversion H0; subst.
    rewrite regionErrors_cons_inr, He0. cbn. f_equal.
    apply (IH i); auto. intros j Hj. apply (Hprev (S j)). cbn. lia.
Qed.

(** Busy, then region not found: the second request is the last, and both
    errors are returned. *)
Lemma fatal_region_error_is_returned_at_once_witness :
  let run := sendSplitRegionRequest scripted epochDominates 0%nat [] busyThenGone in
  let l := rpcs (trace (snd run)) in
  S 1 = length l
  /\ length (regionErrors l) = length l
  /\ fst run = Err (map ErrRestoreSplitFailed (regionErrors l)).
Proof.
  intros run l.
  apply (fatal_region_error_is_returned_at_once scripted epochDominates 0%nat []
           busyThenGone (fst run) (snd run) l 1%nat
           (batchRequest ri1 p11 []) (kvrpcpb.mkResponse (Some notFound) None None [])
           notFound).
  - apply surjective_pairing.
  - reflexivity.
  - vm_compute. reflexivity.
  - reflexivity.
  - reflexivity.
  - reflexivity.
  - reflexivity.
Defined.

(** C6: after an answer whose region error is ServerIsBusy or StaleCommand
    (and not NotLeader, which is read first), the iteration ends in the
    state the answer left, going on with the same working pointer: the
    object behind it is untouched, and the loop goes on with one iteration
    less; when the next attempt reaches the store, its request is the same
    as this one's: same region, epoch, peer and keys. *)
Theorem busy_or_stale_retries_with_same_region_info
    {W} (env : Env W) checkRegionEpoch acc p keys s peer resp s1 e n :
  sendOnce env acc p keys s = (Ok (peer, resp), s1) ->
  kvrpcpb.RegionError resp = Some e ->
  errorpb.NotLeader_ e = None ->
  errorpb.ServerIsBusy e || errorpb.StaleCommand e = true ->
  exists ri,
    heap s !! p = Some ri
    /\ rpcs (trace s1) = rpcs (trace s) ++ [(batchRequest ri peer keys, inr resp)]
    /\ attempt env checkRegionEpoch acc p keys s
       = (Ok (Retry (acc ++ [ErrRestoreSplitFailed e]) p), s1)
    /\ heap s1 = heap s
    /\ retry env checkRegionEpoch (S n) acc p keys s
       = retry env checkRegionEpoch n (acc ++ [ErrRestoreSplitFailed e]) p keys s1
    /\ forall acc2 peer2 resp2 s2,
         sendOnce env acc2 p keys s1 = (Ok (peer2, resp2), s2) ->
         rpcs (trace s2)
         = rpcs (trace s1) ++ [(batchRequest ri peer keys, inr resp2)].
Proof.
  intros Hsend He Hnl Hbusy.
  assert (Ha : attempt env checkRegionEpoch acc p keys s
               = (Ok (Retry (acc ++ [ErrRestoreSplitFailed e]) p), s1)).
  { rewrite attempt_eq, Hsend. cbn [snd]. rewrite interpret_eq, He. cbn zeta.
    now rewrite Hnl, Hbusy. }
  destruct (sendOnce_inv env _ _ _ _ _ _ Hsend)
    as (_ & Hh & _ & evs & Htr & _ & [(_ & [])|(ri & peer' & a & Hp & Hpeer & Hr & Hres)]).
  destruct a as [?|resp']; [discriminate|]. injection Hres as <- <-.
  exists ri. split; [exact Hp|]. split.
  { now rewrite Htr, rpcs_app, Hr. }
  split; [exact Ha|]. split; [exact Hh|]. split.
  { now rewrite retry_S, Ha. }
  intros acc2 peer2 resp2 s2 Hsend2.
  destruct (sendOnce_inv env _ _ _ _ _ _ Hsend2)
    as (_ & _ & _ & evs2 & Htr2 & _ & [(_ & [])|(ri2 & peer2' & a2 & Hp2 & Hpeer2 & Hr2 & Hres2)]).
  destruct a2 as [?|resp2']; [discriminate|]. injection Hres2 as <- <-.
  rewrite Hh, Hp in Hp2. injection Hp2 as <-.
  rewrite Hpeer in Hpeer2. injection Hpeer2 as <-.
  now rewrite Htr2, rpcs_app, Hr2.
Qed.

(** A busy store on the first attempt. *)
Lemma busy_or_stale_retries_with_same_region_info_witness :
  let s1 := snd (sendOnce scripted [] 0%nat [] busyOnce) in
  attempt scripted epochDominates [] 0%nat [] busyOnce
  = (Ok (Retry [ErrRestoreSplitFailed busy] 0%nat), s1)
  /\ heap s1 = heap busyOnce.
Proof.
  intros s1.
  destruct (busy_or_stale_retries_with_same_region_info scripted epochDominates
              [] 0%nat [] busyOnce p11
              (kvrpcpb.mkResponse (Some busy) None None []) s1 busy 3)
    as (ri & _ & _ & Ha & Hh & _).
  - by_run.
  - reflexivity.
  - reflexivity.
  - reflexivity.
  - split; [exact Ha|exact Hh].
Defined.

(** C7, at the inputs on which the single-key split fails it: with a
    leader whose identifier is zero, [SplitRegion] addresses that leader,
    on store 0, where the executor of the batch split addresses the first
    peer; and when the region has no peer either it still sends the
    request, where the batch split returns the no-peer error. *)
Theorem SplitRegion_addresses_leader_without_identifier :
  let single := SplitRegion scripted 0%nat [Byte.x6d] emptyLeader in
  let batch := sendSplitRegionRequest scripted epochDominates 0%nat [[Byte.x6d]]
                 emptyLeader in
  let single0 := SplitRegion scripted 0%nat [Byte.x6d] emptyLeaderNoPeer in
  let batch0 := sendSplitRegionRequest scripted epochDominates 0%nat [[Byte.x6d]]
                  emptyLeaderNoPeer in
  map (fun qa => kvrpcpb.Peer (kvrpcpb.Context_ (fst qa))) (rpcs (trace (snd single)))
  = [Some (mkPeer 0 0)]
  /\ fetches (trace (snd single)) = [0]
  /\ map (fun qa => kvrpcpb.Peer (kvrpcpb.Context_ (fst qa))) (rpcs (trace (snd batch)))
     = [Some p11]
  /\ map (fun qa => kvrpcpb.Peer (kvrpcpb.Context_ (fst qa))) (rpcs (trace (snd single0)))
     = [Some (mkPeer 0 0)]
  /\ fst batch0 = Err [ErrRestoreNoPeer 1]
  /\ rpcs (trace (snd batch0)) = [].
Proof. vm_compute. auto 10. Qed.




(** C9: once [GetStore] has succeeded for a store identifier, any later
    [GetStore] for it in the life of the client returns the same store and
    leaves the whole state as it was: nothing is fetched from PD, and no
    call in between can have dropped the entry. *)
Theorem GetStore_cached_for_life
    {W} (env : Env W) checkRegionEpoch id s store s1 s2 :
  GetStore env id s = (Ok store, s1) ->
  later env checkRegionEpoch s1 s2 ->
  GetStore env id s2 = (Ok store, s2).
Proof.
  intros H Hl. apply GetStore_hit.
  apply (later_cache env checkRegionEpoch s1 s2 Hl).
  now apply GetStore_caches in H.
Qed.

(** Store 1 is fetched once, a batch split runs, and store 1 is still
    served from the cache. *)
Lemma GetStore_cached_for_life_witness :
  let s1 := snd (GetStore scripted 1 busyOnce) in
  let s2 := snd (BatchSplitRegions scripted epochDominates 0%nat [] s1) in
  GetStore scripted 1 busyOnce = (Ok (Some (mkStore 1 "tikv")), s1)
  /\ GetStore scripted 1 s2 = (Ok (Some (mkStore 1 "tikv")), s2).
Proof.
  intros s1 s2.
  assert (E : GetStore scripted 1 busyOnce = (Ok (Some (mkStore 1 "tikv")), s1))
    by by_run.
  split; [exact E|].
  apply (GetStore_cached_for_life scripted epochDominates 1 busyOnce
           (Some (mkStore 1 "tikv")) s1 s2 E).
  apply (later_BatchSplitRegions scripted epochDominates 0%nat [] s1 s2).
  apply later_refl.
Defined.

(** C10: [BatchSplitRegions] returns the new regions, the error and the
    effects of [BatchSplitRegionsWithOrigin] on the same inputs, and drops
    the origin. *)
Theorem BatchSplitRegions_drops_origin
    {W} (env : Env W) checkRegionEpoch p keys s :
  BatchSplitRegions env checkRegionEpoch p keys s
  = BatchSplitRegions_spec env checkRegionEpoch p keys s.
Proof.
  unfold BatchSplitRegions, BatchSplitRegions_spec, bind.
  destruct (BatchSplitRegionsWithOrigin env checkRegionEpoch p keys s)
    as [[[origin newRegions]|err|] s']; reflexivity.
Qed.


(** * More of the client *)

(** ** The log of a run *)

Section Traces.

Context {W : Type}.
Variable env : Env W.
Variable checkRegionEpoch : RegionInfo -> RegionInfo -> bool.

(** Lines 251-281, event by event. *)
Lemma sendOnce_trace acc p keys s r s1 :
  sendOnce env acc p keys s = (r, s1) ->
  heap s1 = heap s /\ tlsConf s1 = tlsConf s
  /\ match heap s !! p with
     | None => r = Panic /\ s1 = s
     | Some ri =>
         match choosePeer ri with
         | None =>
             r = Err (acc ++ [ErrRestoreNoPeer (Region_Id (Region ri))]) /\ s1 = s
         | Some peer =>
             exists fetch,
               (fetch = []
                \/ fetch = [EvPdGetStore (Peer_StoreId peer)]
                   /\ storeCache s !! Peer_StoreId peer = None)
               /\ ((exists e,
                      r = Err (acc ++ e) /\ fetch <> []
                      /\ trace s1 = trace s ++ fetch
                      /\ deferred s1 = deferred s
                      /\ storeCache s1 = storeCache s)
                   \/ exists store,
                        storeCache s1 !! Peer_StoreId peer = Some store
                        /\ ((exists e,
                               r = Err (acc ++ e)
                               /\ trace s1
                                  = trace s ++ fetch
                                    ++ [EvDial (GetAddress store) (tlsConf s)]
                               /\ deferred s1 = deferred s)
                            \/ exists cn a,
                                 trace s1
                                 = trace s ++ fetch
                                   ++ [EvDial (GetAddress store) (tlsConf s);
                                       EvSplitRegion cn (batchRequest ri peer keys) a]
                                 /\ deferred s1 = cn :: deferred s
                                 /\ match a with
                                    | inl e => r = Err (acc ++ e)
                                    | inr resp => r = Ok (peer, resp)
                                    end))
         end
     end.
Proof.
  unfold sendOnce. intros H.
  apply bind_inv in H as [(ri & sa & H1 & H)|[(e & H1 & ->)|(H1 & ->)]];
    unfold load in H1; destruct (heap s !! p) as [ri0|] eqn:Hp;
    inversion H1; subst; clear H1; [|auto].
  apply bind_inv in H as [(peer & sb & H1 & H)|[(e & H1 & ->)|(H1 & ->)]];
    destruct (choosePeer ri) as [peer0|] eqn:Hpeer; inversion H1; subst; clear H1;
    [|auto].
  apply bind_inv in H as [(store & sc & H1 & H)|[(e & H1 & ->)|(H1 & ->)]];
    apply or_return_inv in H1 as [(? & H1 & E)|[(e0 & H1 & E)|(H1 & E)]];
    try discriminate; apply GetStore_inv in H1 as (Ht & Hh & Hd & Hc & Hg).
  3:{ exfalso. destruct Hg as [(st & _ & ? & _)|(_ & _ & _ & Hg)]; [discriminate|].
      destruct (fst (pd_GetStore env (Peer_StoreId peer) (world sb))); destruct Hg;
        discriminate. }
  2:{ injection E as ->. unfold multierr_Append. split; [auto|]. split; [auto|].
      destruct Hg as [(st & _ & ? & _)|(Hmiss & Htr & _ & Hg)]; [discriminate|].
      exists [EvPdGetStore (Peer_StoreId peer)]. split; [auto|]. left.
      destruct (fst (pd_GetStore env (Peer_StoreId peer) (world sb)));
        destruct Hg as [E Hs]; [|discriminate].
      exists e0. split_and!; auto; discriminate. }
  injection E as <-.
  assert (Hfetch : exists fetch,
             (fetch = []
              \/ fetch = [EvPdGetStore (Peer_StoreId peer)]
                 /\ storeCache sb !! Peer_StoreId peer = None)
             /\ trace sc = trace sb ++ fetch
             /\ storeCache sc !! Peer_StoreId peer = Some store).
  { destruct Hg as [(st & Hhit & E & ->)|(Hmiss & Htr & _ & Hg)].
    - injection E as <-. exists []. rewrite app_nil_r. auto.
    - exists [EvPdGetStore (Peer_StoreId peer)]. split; [auto|]. split; [exact Htr|].
      destruct (fst (pd_GetStore env (Peer_StoreId peer) (world sb)));
        destruct Hg as [E Hs]; [discriminate|]. injection E as <-.
      rewrite Hs. apply lookup_insert_eq. }
  destruct Hfetch as (fetch & Hfetch & Htr & Hstore). clear Hg.
  apply bind_inv in H as [(secure & sd & H1 & H)|[(e & H1 & ->)|(H1 & ->)]];
    inversion H1; subst; clear H1.
  apply bind_inv in H as [(cn & se & H1 & H)|[(e & H1 & ->)|(H1 & ->)]];
    apply or_return_inv in H1 as [(? & H1 & E)|[(e0 & H1 & E)|(H1 & E)]];
    try discriminate;
    apply call_grpc_Dial_inv in H1 as ((Ht4 & Hs4 & Hh4 & Hd4) & Htr4 & Hw4 & Hr4).
  3:{ destruct (fst (grpc_Dial _ _ _ _)); discriminate. }
  2:{ injection E as ->. unfold multierr_Append. split; [congruence|]. split; [congruence|].
      exists fetch. split; [exact Hfetch|]. right. exists store.
      split; [now rewrite Hs4|]. left. exists e0.
      rewrite Htr4, Htr, <- app_assoc, Ht. split_and!; auto. congruence. }
  injection E as <-.
  apply bind_inv in H as [([] & sf & H1 & H)|[(e & H1 & ->)|(H1 & ->)]];
    inversion H1; subst; clear H1.
  assert (Hrpc : exists a s2,
             r = match a with
                 | inl e => Err (acc ++ e)
                 | inr resp => Ok (peer, resp)
                 end
             /\ s1 = s2
             /\ call_tikv_SplitRegion env cn (batchRequest ri peer keys)
                  (set_deferred (cn :: deferred se) se)
                = (match a with inl e => Err e | inr resp => Ok resp end, s2)
             /\ trace s2 = trace se ++ [EvSplitRegion cn (batchRequest ri peer keys) a]).
  { apply bind_inv in H as [(resp & sg & H1 & H)|[(e & H1 & ->)|(H1 & ->)]];
      apply or_return_inv in H1 as [(? & H1 & E)|[(e0 & H1 & E)|(H1 & E)]];
      try discriminate; unfold splitRegionWithFailpoint in H1;
      pose proof H1 as H2;
      apply call_tikv_SplitRegion_inv in H2 as (_ & _ & Hr6);
      destruct (fst (tikv_SplitRegion _ _ _ _)) as [e1|resp1];
      destruct Hr6 as [E' Htr6]; try discriminate.
    - injection E as <-. injection E' as <-. inversion H; subst.
      exists (inr resp), s1. auto.
    - injection E as ->. injection E' as ->.
      exists (inl [e1]), s1. auto. }
  destruct Hrpc as (a & s2 & -> & <- & H1 & Htr6).
  apply call_tikv_SplitRegion_inv in H1 as ((Ht6 & Hs6 & Hh6 & Hd6) & _).
  cbn in Ht6, Hs6, Hh6, Hd6.
  split; [congruence|]. split; [congruence|].
  exists fetch. split; [exact Hfetch|]. right. exists store.
  split; [now rewrite Hs6, Hs4|]. right. exists cn, a.
  rewrite Htr6, Htr4, Htr, Ht, Hd6, Hd4, Hd. cbn.
  rewrite <- !app_assoc. split_and!; auto.
  now destruct a.
Qed.

End Traces.

Section Logs.

Context {W : Type}.
Variable env : Env W.
Variable checkRegionEpoch : RegionInfo -> RegionInfo -> bool.

Lemma conns_used_app l1 l2 : conns_used (l1 ++ l2) = conns_used l1 ++ conns_used l2.
Proof. apply omap_app. Qed.

Lemma closes_app l1 l2 : closes (l1 ++ l2) = closes l1 ++ closes l2.
Proof. apply omap_app. Qed.

Lemma dials_app l1 l2 : dials (l1 ++ l2) = dials l1 ++ dials l2.
Proof. apply omap_app. Qed.

Lemma fetches_app l1 l2 : fetches (l1 ++ l2) = fetches l1 ++ fetches l2.
Proof. apply omap_app. Qed.

Lemma lookupsAskedFor_app l1 l2 :
  lookupsAskedFor (l1 ++ l2) = lookupsAskedFor l1 ++ lookupsAskedFor l2.
Proof. apply omap_app. Qed.

(** Lines 282-324: the reading of a response logs the lookup it asks for
    and nothing else, and leaves the client's fields alone. *)
Lemma interpret_log acc p resp s r s' q :
  interpret env checkRegionEpoch acc p resp s = (r, s') ->
  tlsConf s' = tlsConf s /\ storeCache s' = storeCache s
  /\ deferred s' = deferred s
  /\ trace s' = trace s ++ map EvPdGetRegionByID (lookupsAskedFor [(q, inr resp)]).
Proof.
  rewrite interpret_eq. unfold lookupsAskedFor. cbn.
  destruct (kvrpcpb.RegionError resp) as [e|]; cbn.
  2:{ intros H; inversion H; subst. now rewrite app_nil_r. }
  destruct (errorpb.NotLeader_ e) as [nl|]; cbn.
  2:{ destruct (errorpb.ServerIsBusy e || errorpb.StaleCommand e);
        intros H; inversion H; subst; now rewrite app_nil_r. }
  destruct (errorpb.Leader nl) as [l|]; cbn.
  { destruct (heap s !! p); intros H; inversion H; subst; cbn;
      now rewrite app_nil_r. }
  destruct (fst (pd_GetRegionByID env (errorpb.RegionId nl) (world s)))
    as [c|[new|]]; try (intros H; inversion H; subst; cbn; auto).
  revert H.
  destruct ((heap s ++ [mkRegionInfo (Region new) (Leader new)]) !! p) as [old|];
    [destruct (negb (checkRegionEpoch _ old)); [|destruct (Leader new)]|];
    intros H; inversion H; subst; cbn; auto.
Qed.


Lemma lookup_events look :
  closes (map EvPdGetRegionByID look) = []
  /\ conns_used (map EvPdGetRegionByID look) = []
  /\ dials (map EvPdGetRegionByID look) = []
  /\ rpcs (map EvPdGetRegionByID look) = []
  /\ fetches (map EvPdGetRegionByID look) = []
  /\ lookups (map EvPdGetRegionByID look) = look.
Proof.
  induction look as [|id look IH]; cbn; [auto 10|].
  destruct IH as (? & ? & ? & ? & ? & ?). split_and!; auto. now f_equal.
Qed.

(** Lines 251-281: what one send adds to the log, followed by the lookups
    [look] the reading of the answer makes. *)
Lemma sendOnce_log acc p keys s r s0 :
  sendOnce env acc p keys s = (r, s0) ->
  exists evs,
    (forall s1 look,
        trace s1 = trace s0 ++ map EvPdGetRegionByID look ->
        tlsConf s1 = tlsConf s0 -> storeCache s1 = storeCache s0 ->
        deferred s1 = deferred s0 ->
        look = lookupsAskedFor (rpcs evs) ->
        run_facts keys s s1 (evs ++ map EvPdGetRegionByID look))
    /\ (length (fetches evs) <= 1)%nat /\ (length (dials evs) <= 1)%nat
    /\ match r with
       | Ok (peer, resp) =>
           (exists q, rpcs evs = [(q, inr resp)])
           /\ forall id, id ∈ fetches evs -> is_Some (storeCache s0 !! id)
       | Err _ => lookupsAskedFor (rpcs evs) = []
       | Panic => evs = []
       end.
Proof.
  intros H. pose proof (sendOnce_inv env _ _ _ _ _ _ H) as (_ & _ & Hc & _).
  apply sendOnce_trace in H as (Hh & Ht & H).
  assert (Hfacts : forall evs,
    trace s0 = trace s ++ evs -> closes evs = [] ->
    deferred s0 = rev (conns_used evs) ++ deferred s ->
    Forall (fun d => snd d = tlsConf s) (dials evs) ->
    Forall (fun qa => kvrpcpb.SplitKeys (fst qa) = keys
                      /\ kvrpcpb.SplitKey (fst qa) = []) (rpcs evs) ->
    lookups evs = [] -> NoDup (fetches evs) ->
    (forall id, id ∈ fetches evs -> storeCache s !! id = None) ->
    (length (rpcs evs) <= length (dials evs))%nat ->
    forall s1 look,
      trace s1 = trace s0 ++ map EvPdGetRegionByID look ->
      tlsConf s1 = tlsConf s0 -> storeCache s1 = storeCache s0 ->
      deferred s1 = deferred s0 ->
      look = lookupsAskedFor (rpcs evs) ->
      run_facts keys s s1 (evs ++ map EvPdGetRegionByID look)).
  { intros evs Htr Hcl Hd Hdi Hk Hl Hn Hnew Hlen s1 look Htr1 Ht1 Hs1 Hd1 Hlook.
    destruct (lookup_events look) as (L1 & L2 & L3 & L4 & L5 & L6).
    constructor;
      rewrite ?closes_app, ?conns_used_app, ?dials_app, ?rpcs_app, ?fetches_app,
        ?lookups_app, ?L1, ?L2, ?L3, ?L4, ?L5, ?L6, ?app_nil_r; auto;
      try congruence.
    - rewrite Htr1, Htr. now rewrite <- app_assoc.
    - intros id v Hid. rewrite Hs1. now apply Hc.
    - now rewrite Hl. }
  destruct (heap s !! p) as [ri|].
  2:{ destruct H as [-> ->]. exists []. split; [|cbn; auto].
      apply (Hfacts []); cbn; auto; try constructor.
      - now rewrite app_nil_r.
      - intros id Hid. inversion Hid. }
  destruct (choosePeer ri) as [peer|].
  2:{ destruct H as [-> ->]. exists []. split; [|cbn; auto].
      apply (Hfacts []); cbn; auto; try constructor.
      - now rewrite app_nil_r.
      - intros id Hid. inversion Hid. }
  destruct H as (fetch & Hfetch & H).
  assert (Hf : (length (fetches fetch) <= 1)%nat /\ NoDup (fetches fetch)
               /\ (forall id, id ∈ fetches fetch -> storeCache s !! id = None)
               /\ (forall id, id ∈ fetches fetch -> id = Peer_StoreId peer)
               /\ closes fetch = [] /\ conns_used fetch = [] /\ dials fetch = []
               /\ rpcs fetch = [] /\ lookups fetch = []).
  { destruct Hfetch as [->|[-> Hmiss]]; cbn; split_and!; auto; try constructor;
      try (intros id Hid; inversion Hid; subst; auto;
           match goal with X : _ ∈ [] |- _ => inversion X end).
    - intros Hin. inversion Hin.
    - constructor. }
  destruct Hf as (Hf1 & Hf2 & Hf3 & Hf3' & Hf4 & Hf5 & Hf6 & Hf7 & Hf8).
  destruct H as [(e & -> & _ & Htr & Hd & _)
                |(store & Hstore & [(e & -> & Htr & Hd)|(cn & a & Htr & Hd & Hr)])].
  - exists fetch. split; [|rewrite Hf6, Hf7; cbn; auto].
    apply Hfacts; rewrite ?Hf5, ?Hf6, ?Hf7, ?Hf8; cbn; auto.
  - exists (fetch ++ [EvDial (GetAddress store) (tlsConf s)]).
    split; [|rewrite fetches_app, dials_app, rpcs_app, Hf6, Hf7; cbn;
             rewrite app_nil_r; auto].
    apply Hfacts; rewrite ?fetches_app, ?closes_app, ?conns_used_app, ?dials_app,
      ?rpcs_app, ?lookups_app, ?Hf4, ?Hf5, ?Hf6, ?Hf7, ?Hf8; cbn;
      rewrite ?app_nil_r; auto.
  - exists (fetch ++ [EvDial (GetAddress store) (tlsConf s);
                      EvSplitRegion cn (batchRequest ri peer keys) a]).
    split; [|rewrite fetches_app, dials_app, rpcs_app, Hf6, Hf7; cbn;
             rewrite app_nil_r; split_and!; auto].
    + apply Hfacts; rewrite ?fetches_app, ?closes_app, ?conns_used_app, ?dials_app,
        ?rpcs_app, ?lookups_app, ?Hf4, ?Hf5, ?Hf6, ?Hf7, ?Hf8; cbn;
        rewrite ?app_nil_r; auto; repeat constructor.
    + destruct a as [e|resp]; subst r; [reflexivity|]. split; [eauto|].
      intros id Hid. apply Hf3' in Hid as ->. rewrite Hstore. eauto.
Qed.

(** One iteration of the loop (lines 250-324), event by event. *)
Lemma attempt_log acc p keys s r s1 :
  attempt env checkRegionEpoch acc p keys s = (r, s1) ->
  exists evs,
    run_facts keys s s1 evs
    /\ (length (fetches evs) <= 1)%nat /\ (length (dials evs) <= 1)%nat
    /\ match r with
       | Ok _ => forall id, id ∈ fetches evs -> is_Some (storeCache s1 !! id)
       | _ => True
       end.
Proof.
  rewrite attempt_eq.
  destruct (sendOnce env acc p keys s) as [r0 s0] eqn:H0.
  apply sendOnce_log in H0 as (evs & Hfacts & Hf & Hd & Hr).
  destruct (lookup_events (lookupsAskedFor (rpcs evs))) as (_ & _ & L3 & _ & L5 & _).
  destruct r0 as [[peer resp]|e|].
  - destruct Hr as [[q Hq] Hcached]. cbn [snd]. intros H.
    apply (interpret_log _ _ _ _ _ _ q) in H as (Ht & Hs & Hdf & Htr).
    exists (evs ++ map EvPdGetRegionByID (lookupsAskedFor (rpcs evs))).
    rewrite fetches_app, dials_app, L3, L5, !app_nil_r.
    split_and!; auto.
    + apply Hfacts; auto. now rewrite Hq.
    + destruct r; auto. intros id Hid. rewrite Hs. auto.
  - intros H; inversion H; subst. exists (evs ++ map EvPdGetRegionByID []).
    split; [|cbn; rewrite app_nil_r; auto].
    apply (Hfacts s1 []); cbn; auto. now rewrite app_nil_r.
  - intros H; inversion H; subst. exists ([] ++ map EvPdGetRegionByID []).
    split; [|cbn; auto].
    apply (Hfacts s1 []); cbn; auto. now rewrite app_nil_r.
Qed.


Lemma run_facts_refl keys (s : state W) : run_facts keys s s [].
Proof.
  constructor; cbn; auto using cache_incl_refl; try constructor.
  - now rewrite app_nil_r.
  - intros id Hid. inversion Hid.
Qed.

(** Two stretches of a run, the first of which cached every store it
    fetched. *)
Lemma run_facts_trans keys (s s1 s2 : state W) evs1 evs2 :
  run_facts keys s s1 evs1 ->
  run_facts keys s1 s2 evs2 ->
  (forall id, id ∈ fetches evs1 -> is_Some (storeCache s1 !! id)) ->
  run_facts keys s s2 (evs1 ++ evs2).
Proof.
  intros [T1 C1 I1 K1 D1 L1 Q1 U1 N1 F1 R1] [T2 C2 I2 K2 D2 L2 Q2 U2 N2 F2 R2] Hc.
  constructor;
    rewrite ?closes_app, ?conns_used_app, ?dials_app, ?rpcs_app, ?fetches_app,
      ?lookups_app, ?lookupsAskedFor_app.
  - now rewrite T2, T1, <- app_assoc.
  - congruence.
  - eauto using cache_incl_trans.
  - now rewrite K1, K2.
  - now rewrite D2, D1, rev_app_distr, <- app_assoc.
  - apply Forall_app. split; [assumption|]. now rewrite <- C1.
  - apply Forall_app. now split.
  - now rewrite U1, U2.
  - apply NoDup_app. split; [assumption|]. split; [|assumption].
    intros id H1 H2. apply Hc in H1 as [v Hv]. apply F2 in H2. congruence.
  - intros id Hid. apply elem_of_app in Hid as [Hid|Hid]; [auto|].
    apply F2 in Hid. destruct (storeCache s !! id) as [v|] eqn:E; [|reflexivity].
    apply I1 in E. congruence.
  - rewrite !length_app. lia.
Qed.

(** The loop of lines 250-326. *)
Lemma retry_log n : forall acc p keys s r s',
  retry env checkRegionEpoch n acc p keys s = (r, s') ->
  exists evs,
    run_facts keys s s' evs
    /\ (length (fetches evs) <= n)%nat /\ (length (dials evs) <= n)%nat.
Proof.
  induction n as [|n IH]; intros acc p keys s r s' H.
  - inversion H; subst. exists []. split; [apply run_facts_refl|]. cbn. lia.
  - rewrite retry_S in H.
    destruct (attempt env checkRegionEpoch acc p keys s) as [r1 s1] eqn:Ha.
    apply attempt_log in Ha as (evs1 & Hfacts & Hf & Hd & Hc).
    assert (Hstop : s' = s1 ->
              exists evs, run_facts keys s s' evs
                /\ (length (fetches evs) <= S n)%nat
                /\ (length (dials evs) <= S n)%nat).
    { intros ->. exists evs1. split; [assumption|]. lia. }
    destruct r1 as [[resp|acc' p']|e|];
      try (apply Hstop; now inversion H).
    apply IH in H as (evs2 & Hfacts2 & Hf2 & Hd2).
    exists (evs1 ++ evs2). split; [eapply run_facts_trans; eauto|].
    rewrite fetches_app, dials_app, !length_app. lia.
Qed.

(** A function body with its deferred calls: the connections deferred by
    the body are closed, last deferred first. *)
Lemma with_deferred_closes {A} (body : M W A) s r s' :
  with_deferred env body s = (r, s') ->
  exists s1,
    body (set_deferred [] s) = (r, s1)
    /\ tlsConf s' = tlsConf s1 /\ storeCache s' = storeCache s1
    /\ heap s' = heap s1 /\ deferred s' = deferred s
    /\ trace s' = trace s1 ++ map EvClose (deferred s1).
Proof.
  unfold with_deferred.
  destruct (body (set_deferred [] s)) as [r1 s1]. intros H; inversion H; subst.
  exists s1. split; [reflexivity|].
  destruct (close_all_inv env (deferred s1) s1) as (H1 & H2 & H3 & H4).
  cbn. auto.
Qed.

(** The request sender as a whole (lines 246-327): the events of the loop,
    then the deferred closes. *)
Lemma sendSplitRegionRequest_log p keys s r s' :
  sendSplitRegionRequest env checkRegionEpoch p keys s = (r, s') ->
  exists evs s1,
    run_facts keys (set_deferred [] s) s1 evs
    /\ trace s' = trace s ++ evs ++ map EvClose (rev (conns_used evs))
    /\ storeCache s' = storeCache s1
    /\ deferred s' = deferred s
    /\ (length (fetches evs) <= splitRegionMaxRetryTime)%nat
    /\ (length (dials evs) <= splitRegionMaxRetryTime)%nat.
Proof.
  unfold sendSplitRegionRequest. intros H.
  apply with_deferred_closes in H as (s1 & H & Ht & Hs & Hh & Hd & Htr).
  apply retry_log in H as (evs & Hfacts & Hf & Hdi).
  exists evs, s1. split_and!; auto.
  rewrite Htr, (facts_trace _ _ _ _ Hfacts), (facts_deferred _ _ _ _ Hfacts).
  cbn. now rewrite app_nil_r, <- app_assoc.
Qed.

End Logs.
Section Single.

Context {W : Type}.
Variable env : Env W.

Lemma close_events cl :
  closes (map EvClose cl) = cl
  /\ conns_used (map EvClose cl) = []
  /\ dials (map EvClose cl) = []
  /\ fetches (map EvClose cl) = []
  /\ lookups (map EvClose cl) = [].
Proof.
  induction cl as [|cn cl IH]; cbn; [auto|].
  destruct IH as (? & ? & ? & ? & ?). split_and!; auto. now f_equal.
Qed.

Lemma conns_used_length evs : length (conns_used evs) = length (rpcs evs).
Proof.
  induction evs as [|[| | | |] evs IH]; cbn; auto.
Qed.

(** The single-key split (lines 135-205), event by event. *)
Lemma SplitRegion_log p key s r s' :
  SplitRegion env p key s = (r, s') ->
  heap s' = heap s /\ tlsConf s' = tlsConf s /\ deferred s' = deferred s
  /\ cache_incl s s'
  /\ exists evs,
       trace s' = trace s ++ evs ++ map EvClose (rev (conns_used evs))
       /\ closes evs = [] /\ lookups evs = []
       /\ (length (fetches evs) <= 1)%nat /\ (length (dials evs) <= 1)%nat
       /\ (length (rpcs evs) <= length (dials evs))%nat
       /\ Forall (fun d => snd d = false) (dials evs)
       /\ Forall (fun qa => kvrpcpb.SplitKey (fst qa) = key
                            /\ kvrpcpb.SplitKeys (fst qa) = [])
                 (rpcs evs)
       /\ (forall id, id ∈ fetches evs -> storeCache s !! id = None)
       /\ forall q a, (q, a) ∈ rpcs evs ->
            match a with
            | inl e => r = Err e
            | inr resp =>
                match kvrpcpb.RegionError resp with
                | Some e => r = Err [ErrRestoreSplitFailed e]
                | None => True
                end
            end.
Proof.
  unfold SplitRegion. intros H.
  apply with_deferred_closes in H as (s1 & H & Ht & Hs & Hh & Hd & Htr).
  assert (Hgoal : exists evs,
    trace s1 = trace s ++ evs /\ deferred s1 = rev (conns_used evs)
    /\ heap s1 = heap s /\ tlsConf s1 = tlsConf s /\ cache_incl s s1
    /\ closes evs = [] /\ lookups evs = []
    /\ (length (fetches evs) <= 1)%nat /\ (length (dials evs) <= 1)%nat
    /\ (length (rpcs evs) <= length (dials evs))%nat
    /\ Forall (fun d => snd d = false) (dials evs)
    /\ Forall (fun qa => kvrpcpb.SplitKey (fst qa) = key
                         /\ kvrpcpb.SplitKeys (fst qa) = [])
              (rpcs evs)
    /\ (forall id, id ∈ fetches evs -> storeCache s !! id = None)
    /\ forall q a, (q, a) ∈ rpcs evs ->
         match a with
         | inl e => r = Err e
         | inr resp =>
             match kvrpcpb.RegionError resp with
             | Some e => r = Err [ErrRestoreSplitFailed e]
             | None => True
             end
         end).
  2:{ destruct Hgoal as (evs & E1 & E2 & E3 & E4 & E5 & Hrest).
      rewrite Hh, Ht. split_and!; auto.
      - intros i v Hi. rewrite Hs. now apply E5.
      - exists evs. split; [|exact Hrest].
        now rewrite Htr, E1, E2, <- app_assoc. }
  clear Htr Ht Hs Hh Hd s'.
  assert (Hnone : forall s2 : state W,
            s2 = set_deferred [] s ->
            exists evs,
              trace s2 = trace s ++ evs /\ deferred s2 = rev (conns_used evs)
              /\ heap s2 = heap s /\ tlsConf s2 = tlsConf s /\ cache_incl s s2
              /\ closes evs = [] /\ lookups evs = []
              /\ (length (fetches evs) <= 1)%nat /\ (length (dials evs) <= 1)%nat
              /\ (length (rpcs evs) <= length (dials evs))%nat
              /\ Forall (fun d => snd d = false) (dials evs)
              /\ Forall (fun qa => kvrpcpb.SplitKey (fst qa) = key
                                   /\ kvrpcpb.SplitKeys (fst qa) = [])
                        (rpcs evs)
              /\ (forall id, id ∈ fetches evs -> storeCache s !! id = None)
              /\ forall q a, (q, a) ∈ rpcs evs ->
                   match a with
                   | inl e => r = Err e
                   | inr resp =>
                       match kvrpcpb.RegionError resp with
                       | Some e => r = Err [ErrRestoreSplitFailed e]
                       | None => True
                       end
                   end).
  { intros s2 ->. exists []. cbn. rewrite app_nil_r.
    assert (Hci : cache_incl s (set_deferred [] s)) by (intros i v Hi; exact Hi).
    split_and!; auto; try lia; try (now constructor).
    - intros id Hid. inversion Hid.
    - intros q a Hin. inversion Hin. }
  apply bind_inv in H as [(ri & sa & H1 & H)|[(e & H1 & ->)|(H1 & ->)]];
    unfold load in H1; cbn in H1; destruct (heap s !! p) as [ri0|] eqn:Hp;
    inversion H1; subst; clear H1; [|now apply Hnone].
  match type of H with bind _ ?k _ = _ => set (rest := k) in H end.
  assert (Hpeer : (exists e, (r, s1) = (Err e, set_deferred [] s))
                  \/ exists peer, rest peer (set_deferred [] s) = (r, s1)).
  { unfold bind in H.
    destruct (Leader ri) as [ld|]; [|destruct (Peers (Region ri)) as [|p0 ps]];
      cbn in H; eauto. }
  clear H. destruct Hpeer as [[e E]|[peer H]].
  { inversion E; subst. now apply Hnone. }
  subst rest. cbv beta in H.
  apply bind_inv in H as [(store & sc & H1 & H)|[(e & H1 & ->)|(H1 & ->)]];
    apply or_return_inv in H1 as [(? & H1 & E)|[(e0 & H1 & E)|(H1 & E)]];
    try discriminate; apply GetStore_inv in H1 as (Ht & Hh & Hd & Hc & Hg);
    cbn in Ht, Hh, Hd, Hg.
  3:{ exfalso. destruct Hg as [(st & _ & ? & _)|(_ & _ & _ & Hg)]; [discriminate|].
      destruct (fst (pd_GetStore env (Peer_StoreId peer) (world s)));
        destruct Hg; discriminate. }
  2:{ destruct Hg as [(st & _ & ? & _)|(Hmiss & Htr & _ & Hg)]; [discriminate|].
      exists [EvPdGetStore (Peer_StoreId peer)]. cbn.
      split_and!; auto; try lia; try (now constructor).
      - intros id Hid. apply list_elem_of_singleton in Hid as ->. exact Hmiss.
      - intros q a Hin. inversion Hin. }
  injection E as <-.
  assert (Hfetch : exists fetch,
             (fetch = []
              \/ fetch = [EvPdGetStore (Peer_StoreId peer)]
                 /\ storeCache s !! Peer_StoreId peer = None)
             /\ trace sc = trace s ++ fetch).
  { destruct Hg as [(st & Hhit & E & ->)|(Hmiss & Htr & _ & Hg)].
    - exists []. cbn. rewrite app_nil_r. auto.
    - exists [EvPdGetStore (Peer_StoreId peer)]. auto. }
  destruct Hfetch as (fetch & Hfetch & Htr). clear Hg.
  assert (Hf : (length (fetches fetch) <= 1)%nat
               /\ (forall id, id ∈ fetches fetch -> storeCache s !! id = None)
               /\ closes fetch = [] /\ conns_used fetch = [] /\ dials fetch = []
               /\ rpcs fetch = [] /\ lookups fetch = []).
  { destruct Hfetch as [->|[-> Hmiss]]; cbn; split_and!; auto;
      intros id Hid; [inversion Hid|].
    apply list_elem_of_singleton in Hid as ->. exact Hmiss. }
  destruct Hf as (Hf1 & Hf3 & Hf4 & Hf5 & Hf6 & Hf7 & Hf8).
  apply bind_inv in H as [(cn & se & H1 & H)|[(e & H1 & ->)|(H1 & ->)]];
    apply or_return_inv in H1 as [(? & H1 & E)|[(e0 & H1 & E)|(H1 & E)]];
    try discriminate;
    apply call_grpc_Dial_inv in H1 as ((Ht4 & Hs4 & Hh4 & Hd4) & Htr4 & Hw4 & Hr4).
  3:{ destruct (fst (grpc_Dial _ _ _ _)); discriminate. }
  2:{ exists (fetch ++ [EvDial (GetAddress store) false]).
      rewrite closes_app, conns_used_app, dials_app, rpcs_app, fetches_app,
        lookups_app, Hf4, Hf5, Hf6, Hf7, Hf8. cbn. rewrite app_nil_r.
      split_and!; auto; try congruence.
      - now rewrite Htr4, Htr, <- app_assoc.
      - intros i v Hi. rewrite Hs4. now apply Hc.
      - intros q a Hin. inversion Hin. }
  injection E as <-.
  apply bind_inv in H as [([] & sf & H1 & H)|[(e & H1 & ->)|(H1 & ->)]];
    inversion H1; subst; clear H1.
  match type of H with
  | bind (or_return (call_tikv_SplitRegion _ _ ?q) _) _ _ = _ => set (req := q) in *
  end.
  assert (Hrpc : exists a s2,
             trace s2 = trace se ++ [EvSplitRegion cn req a]
             /\ same_client (set_deferred (cn :: deferred se) se) s2
             /\ s1 = s2
             /\ match a with
                | inl e => r = Err e
                | inr resp =>
                    match kvrpcpb.RegionError resp with
                    | Some e => r = Err [ErrRestoreSplitFailed e]
                    | None => True
                    end
                end).
  { apply bind_inv in H as [(resp & sg & H1 & H)|[(e & H1 & ->)|(H1 & ->)]];
      apply or_return_inv in H1 as [(? & H1 & E)|[(e0 & H1 & E)|(H1 & E)]];
      try discriminate;
      apply call_tikv_SplitRegion_inv in H1 as (Hsame & _ & Hr6);
      destruct (fst (tikv_SplitRegion _ _ _ _)) as [e1|resp1];
      destruct Hr6 as [E' Htr6]; try discriminate.
    - injection E as <-. injection E' as <-.
      assert (Hend : s1 = sg
                     /\ match kvrpcpb.RegionError resp with
                        | Some e => r = Err [ErrRestoreSplitFailed e]
                        | None => True
                        end).
      { destruct (kvrpcpb.RegionError resp) as [e|]; [now inversion H|].
        split; [|exact I].
        destruct (match kvrpcpb.Left resp with Some l => Some l | None => _ end);
          now inversion H. }
      destruct Hend as [-> Hend]. exists (inr resp), sg. auto.
    - injection E as ->. injection E' as ->.
      exists (inl [e1]), s1. auto. }
  destruct Hrpc as (a & s2 & Htr6 & (Ht6 & Hs6 & Hh6 & Hd6) & <- & Hr).
  cbn in Ht6, Hs6, Hh6, Hd6.
  exists (fetch ++ [EvDial (GetAddress store) false; EvSplitRegion cn req a]).
  rewrite closes_app, conns_used_app, dials_app, rpcs_app, fetches_app,
    lookups_app, Hf4, Hf5, Hf6, Hf7, Hf8. cbn. rewrite app_nil_r.
  split_and!; auto; try congruence; try (now repeat constructor).
  - rewrite Htr6, Htr4, Htr, <- !app_assoc. reflexivity.
  - intros i v Hi. rewrite Hs6, Hs4. now apply Hc.
  - intros q a' Hin. apply list_elem_of_singleton in Hin. injection Hin as -> ->.
    exact Hr.
Qed.

End Single.
(** ** The request sender, whatever the cluster does *)

Lemma lookupsAskedFor_length l : (length (lookupsAskedFor l) <= length l)%nat.
Proof.
  unfold lookupsAskedFor. induction l as [|[q [e|resp]] l IH]; cbn; [lia..|].
  destruct (kvrpcpb.RegionError resp) as [e|];
    [destruct (errorpb.NotLeader_ e) as [nl|]; [destruct (errorpb.Leader nl)|]|];
    cbn; lia.
Qed.

(** X1: whatever the cluster answers, one call of the request sender
    fetches at most four stores, dials at most four times, sends no more
    requests than it dialed connections, looks up no more regions than it
    sent requests, and closes as many connections as it sent requests. *)
Theorem request_sender_effort_is_bounded
    {W} (env : Env W) checkRegionEpoch p keys s :
  exists evs,
    trace (snd (sendSplitRegionRequest env checkRegionEpoch p keys s))
    = trace s ++ evs
    /\ (length (fetches evs) <= 4)%nat
    /\ (length (dials evs) <= 4)%nat
    /\ (length (rpcs evs) <= length (dials evs))%nat
    /\ (length (lookups evs) <= length (rpcs evs))%nat
    /\ length (closes evs) = length (rpcs evs).
Proof.
  destruct (sendSplitRegionRequest env checkRegionEpoch p keys s) as [r s'] eqn:H.
  apply sendSplitRegionRequest_log in H as (evs & s1 & F & Htr & _ & _ & Hf & Hd).
  destruct (close_events (rev (conns_used evs))) as (C1 & _ & C3 & C4 & C5).
  exists (evs ++ map EvClose (rev (conns_used evs))). cbn [snd].
  rewrite fetches_app, dials_app, rpcs_app, lookups_app, closes_app, rpcs_closes,
    C1, C3, C4, C5, !app_nil_r, (facts_closes _ _ _ _ F),
    (facts_lookups _ _ _ _ F).
  cbn. rewrite length_rev, conns_used_length.
  split_and!; auto using lookupsAskedFor_length.
  apply (facts_rpcs_dialed _ _ _ _ F).
Qed.

(** X2: the request sender closes no connection before it is done with its
    requests; then it closes each connection a request went over, once, the
    last one first, and leaves the deferred calls of its caller alone. *)
Theorem connections_are_closed_last_opened_first
    {W} (env : Env W) checkRegionEpoch p keys s :
  exists evs,
    trace (snd (sendSplitRegionRequest env checkRegionEpoch p keys s))
    = trace s ++ evs ++ map EvClose (rev (conns_used evs))
    /\ closes evs = []
    /\ deferred (snd (sendSplitRegionRequest env checkRegionEpoch p keys s))
       = deferred s.
Proof.
  destruct (sendSplitRegionRequest env checkRegionEpoch p keys s) as [r s'] eqn:H.
  apply sendSplitRegionRequest_log in H as (evs & s1 & F & Htr & _ & Hd & _).
  exists evs. split_and!; auto. apply (facts_closes _ _ _ _ F).
Qed.

(** X3: every request of the batch path carries the keys of the call in
    [SplitKeys] and leaves [SplitKey] empty, on every attempt; the request
    of the single-key split carries its key in [SplitKey] and leaves
    [SplitKeys] empty. *)
Theorem requests_carry_the_keys_of_the_call
    {W} (env : Env W) checkRegionEpoch p keys key s :
  (exists evs,
      trace (snd (sendSplitRegionRequest env checkRegionEpoch p keys s))
      = trace s ++ evs
      /\ Forall (fun qa => kvrpcpb.SplitKeys (fst qa) = keys
                           /\ kvrpcpb.SplitKey (fst qa) = [])
                (rpcs evs))
  /\ (exists evs,
        trace (snd (SplitRegion env p key s)) = trace s ++ evs
        /\ Forall (fun qa => kvrpcpb.SplitKey (fst qa) = key
                             /\ kvrpcpb.SplitKeys (fst qa) = [])
                  (rpcs evs)).
Proof.
  split.
  - destruct (sendSplitRegionRequest env checkRegionEpoch p keys s) as [r s'] eqn:H.
    apply sendSplitRegionRequest_log in H as (evs & s1 & F & Htr & _).
    exists (evs ++ map EvClose (rev (conns_used evs))). split; [exact Htr|].
    rewrite rpcs_app, rpcs_closes, app_nil_r. apply (facts_keys _ _ _ _ F).
  - destruct (SplitRegion env p key s) as [r s'] eqn:H.
    apply SplitRegion_log in H as (_ & _ & _ & _ & evs & Htr & _ & _ & _ & _ & _ & _ & Hk & _).
    exists (evs ++ map EvClose (rev (conns_used evs))). split; [exact Htr|].
    now rewrite rpcs_app, rpcs_closes, app_nil_r.
Qed.

(** X4: the request sender asks PD for a region by its identifier once for
    each answer that carries a NotLeader error without a leader, in the
    order of the answers and under the identifier the error names; it
    makes no other lookup. *)
Theorem lookups_follow_the_leaderless_NotLeader_answers
    {W} (env : Env W) checkRegionEpoch p keys s :
  exists evs,
    trace (snd (sendSplitRegionRequest env checkRegionEpoch p keys s))
    = trace s ++ evs
    /\ lookups evs = lookupsAskedFor (rpcs evs).
Proof.
  destruct (sendSplitRegionRequest env checkRegionEpoch p keys s) as [r s'] eqn:H.
  apply sendSplitRegionRequest_log in H as (evs & s1 & F & Htr & _).
  destruct (close_events (rev (conns_used evs))) as (_ & _ & _ & _ & C5).
  exists (evs ++ map EvClose (rev (conns_used evs))). split; [exact Htr|].
  rewrite lookups_app, rpcs_app, rpcs_closes, C5, !app_nil_r.
  apply (facts_lookups _ _ _ _ F).
Qed.

(** X5: within one call the request sender fetches no store twice, and
    none that the cache held when the call began. *)
Theorem each_store_is_fetched_at_most_once
    {W} (env : Env W) checkRegionEpoch p keys s :
  exists evs,
    trace (snd (sendSplitRegionRequest env checkRegionEpoch p keys s))
    = trace s ++ evs
    /\ NoDup (fetches evs)
    /\ forall id, id ∈ fetches evs -> storeCache s !! id = None.
Proof.
  destruct (sendSplitRegionRequest env checkRegionEpoch p keys s) as [r s'] eqn:H.
  apply sendSplitRegionRequest_log in H as (evs & s1 & F & Htr & _).
  destruct (close_events (rev (conns_used evs))) as (_ & _ & _ & C4 & _).
  exists (evs ++ map EvClose (rev (conns_used evs))). split; [exact Htr|].
  rewrite fetches_app, C4, !app_nil_r. split.
  - apply (facts_fetches_once _ _ _ _ F).
  - apply (facts_fetches_new _ _ _ _ F).
Qed.

(** X6: the batch path dials with transport credentials exactly when the
    client has a TLS configuration; the single-key split dials without
    them whatever the configuration. *)
Theorem only_the_batch_path_dials_with_tls
    {W} (env : Env W) checkRegionEpoch p keys key s :
  (exists evs,
      trace (snd (sendSplitRegionRequest env checkRegionEpoch p keys s))
      = trace s ++ evs
      /\ Forall (fun d => snd d = tlsConf s) (dials evs))
  /\ (exists evs,
        trace (snd (SplitRegion env p key s)) = trace s ++ evs
        /\ Forall (fun d => snd d = false) (dials evs)).
Proof.
  split.
  - destruct (sendSplitRegionRequest env checkRegionEpoch p keys s) as [r s'] eqn:H.
    apply sendSplitRegionRequest_log in H as (evs & s1 & F & Htr & _).
    destruct (close_events (rev (conns_used evs))) as (_ & _ & C3 & _).
    exists (evs ++ map EvClose (rev (conns_used evs))). split; [exact Htr|].
    rewrite dials_app, C3, app_nil_r. apply (facts_dials _ _ _ _ F).
  - destruct (SplitRegion env p key s) as [r s'] eqn:H.
    apply SplitRegion_log in H as (_ & _ & _ & _ & evs & Htr & _ & _ & _ & _ & _ & Hd & _).
    destruct (close_events (rev (conns_used evs))) as (_ & _ & C3 & _).
    exists (evs ++ map EvClose (rev (conns_used evs))). split; [exact Htr|].
    now rewrite dials_app, C3, app_nil_r.
Qed.

(** X7: the single-key split never retries and never asks PD for the
    region: it sends at most one request, over at most one connection,
    which it closes afterwards; a region error of any kind, the retryable
    ones of the batch path included, is returned as the failure of the
    split; and the region_info of the caller is not written. *)
Theorem SplitRegion_never_retries {W} (env : Env W) p key s :
  heap (snd (SplitRegion env p key s)) = heap s
  /\ exists evs,
       trace (snd (SplitRegion env p key s))
       = trace s ++ evs ++ map EvClose (rev (conns_used evs))
       /\ closes evs = [] /\ lookups evs = []
       /\ (length (rpcs evs) <= 1)%nat
       /\ forall q resp e,
            (q, inr resp) ∈ rpcs evs ->
            kvrpcpb.RegionError resp = Some e ->
            fst (SplitRegion env p key s) = Err [ErrRestoreSplitFailed e].
Proof.
  destruct (SplitRegion env p key s) as [r s'] eqn:H.
  apply SplitRegion_log in H
    as (Hh & _ & _ & _ & evs & Htr & Hc & Hl & _ & Hd & Hr & _ & _ & _ & Hres).
  split; [exact Hh|]. exists evs. cbn [fst snd]. split_and!; auto; [lia|].
  intros q resp e Hin He. apply Hres in Hin. now rewrite He in Hin.
Qed.

(** ** Failures of the transport and of PD *)

(** The loop of lines 250-326 and an answer that is an error of the
    transport. *)
Lemma retry_transport {W} (env : Env W) checkRegionEpoch n :
  forall acc p keys s r s' l i q e,
    retry env checkRegionEpoch n acc p keys s = (r, s') ->
    rpcs (trace s') = rpcs (trace s) ++ l ->
    l !! i = Some (q, inl e) ->
    S i = length l
    /\ r = Err (acc ++ map ErrRestoreSplitFailed (regionErrors l) ++ e).
Proof.
  induction n as [|n IH]; intros acc p keys s r s' l i q e H Hl Hi.
  - inversion H; subst. rewrite <- (app_nil_r (rpcs (trace s'))) in Hl at 1.
    apply app_inv_head in Hl. subst l. discriminate.
  - rewrite retry_S in H.
    destruct (attempt env checkRegionEpoch acc p keys s) as [r1 s1] eqn:Ha.
    apply attempt_inv in Ha as (_ & _ & l1 & Hl1 & Hcase).
    assert (Hstop : s' = s1 -> l = l1).
    { intros ->. rewrite Hl1 in Hl. now apply app_inv_head in Hl. }
    destruct l1 as [|[q1 a1] l2];
      [|destruct a1 as [e1|resp]; (destruct l2; [|contradiction])].
    + destruct r1 as [c|es|]; [contradiction| |]; inversion H; subst;
        rewrite (Hstop eq_refl) in Hi; discriminate.
    + subst r1. inversion H; subst. rewrite (Hstop eq_refl) in Hi |- *.
      destruct i as [|i]; [|discriminate]. injection Hi as -> ->. auto.
    + destruct (kvrpcpb.RegionError resp) as [e0|] eqn:He.
      2:{ subst r1. inversion H; subst. rewrite (Hstop eq_refl) in Hi.
          destruct i as [|i]; discriminate. }
      destruct r1 as [[?|acc' p']|es|]; [contradiction| | |];
        try (inversion H; subst; rewrite (Hstop eq_refl) in Hi;
             destruct i as [|i]; discriminate).
      destruct Hcase as [-> _].
      pose proof (retry_history env checkRegionEpoch _ _ _ _ _ _ _ H)
        as (_ & _ & l' & Hl' & _).
      assert (E : l = (q1, inr resp) :: l').
      { rewrite Hl', Hl1, <- app_assoc in Hl. now apply app_inv_head in Hl. }
      subst l. destruct i as [|i]; [discriminate|]. cbn in Hi.
      destruct (IH _ _ _ _ _ _ _ _ _ _ H Hl' Hi) as [Hlen ->].
      split; [cbn; lia|]. rewrite regionErrors_cons_inr, He. cbn.
      now rewrite <- !app_assoc.
Qed.

(** X8: an error of the transport is not retried: the request it answers
    is the last one of the call, and the call returns the region errors
    received before it, followed by the error of the transport. *)
Theorem transport_error_ends_the_call
    {W} (env : Env W) checkRegionEpoch p keys s r s' l i q e :
  sendSplitRegionRequest env checkRegionEpoch p keys s = (r, s') ->
  rpcs (trace s') = rpcs (trace s) ++ l ->
  l !! i = Some (q, inl e) ->
  S i = length l
  /\ r = Err (map ErrRestoreSplitFailed (regionErrors l) ++ e).
Proof.
  unfold sendSplitRegionRequest. intros H Hl Hi.
  apply with_deferred_inv in H as (s1 & cl & H & _ & _ & _ & _ & Htr).
  rewrite Htr, rpcs_app, rpcs_closes, app_nil_r in Hl.
  apply (retry_transport env checkRegionEpoch _ _ _ _ _ _ _ _ _ _ _ H Hl Hi).
Qed.

(** The store is busy, then the connection breaks: the second request is
    the last, and both failures are returned. *)
Lemma transport_error_ends_the_call_witness :
  let run := sendSplitRegionRequest scripted epochDominates 0%nat [[Byte.x6d]]
               busyThenBroken in
  let l := rpcs (trace (snd run)) in
  S 1 = length l
  /\ fst run = Err (map ErrRestoreSplitFailed (regionErrors l) ++ [ErrExternal 14]).
Proof.
  intros run l.
  apply (transport_error_ends_the_call scripted epochDominates 0%nat [[Byte.x6d]]
           busyThenBroken (fst run) (snd run) l 1%nat
           (batchRequest ri1 p11 [[Byte.x6d]]) [ErrExternal 14]).
  - apply surjective_pairing.
  - reflexivity.
  - vm_compute. reflexivity.
Defined.

(** X9: a failed fetch of a store is not remembered: the error of PD is
    returned, the cache is left as it was, and the next call for the same
    store asks PD again. *)
Theorem GetStore_failure_is_not_cached {W} (env : Env W) id s e s1 :
  GetStore env id s = (Err e, s1) ->
  storeCache s !! id = None
  /\ storeCache s1 = storeCache s
  /\ fetches (trace s1) = fetches (trace s) ++ [id]
  /\ fetches (trace (snd (GetStore env id s1))) = fetches (trace s1) ++ [id].
Proof.
  intros H. apply GetStore_inv in H as (_ & _ & _ & _ & Hg).
  destruct Hg as [(st & _ & ? & _)|(Hmiss & Htr & _ & Hg)]; [discriminate|].
  assert (Hs : storeCache s1 = storeCache s).
  { destruct (fst (pd_GetStore env id (world s))); destruct Hg as [E Hs];
      [exact Hs|discriminate]. }
  split; [exact Hmiss|]. split; [exact Hs|].
  split; [now rewrite Htr, fetches_app|].
  destruct (GetStore env id s1) as [r2 s2] eqn:H2.
  apply GetStore_inv in H2 as (_ & _ & _ & _ & Hg2).
  destruct Hg2 as [(st & Hhit & _)|(_ & Htr2 & _)]; [congruence|].
  cbn [snd]. now rewrite Htr2, fetches_app.
Qed.

(** PD cannot resolve store 1: two calls, two fetches, nothing cached. *)
Lemma GetStore_failure_is_not_cached_witness :
  let run := GetStore storeDown 1 (initial tt []) in
  storeCache (snd run) = ∅
  /\ fetches (trace (snd (GetStore storeDown 1 (snd run)))) = [1; 1].
Proof.
  intros run.
  destruct (GetStore_failure_is_not_cached storeDown 1 (initial tt [])
              [ErrExternal 2] (snd run) eq_refl) as (_ & Hs & _ & Hf).
  split; [exact Hs|exact Hf].
Defined.

(** X10: whatever way the call ends, the request sender writes nothing but
    the leader of the region_info it was given: that leader ends as the
    hints of the answers leave it, the region of the object is the one
    passed in, and every other object is as it was. *)
Theorem call_writes_only_the_leader_of_its_region_info
    {W} (env : Env W) checkRegionEpoch p keys s r s' ri :
  sendSplitRegionRequest env checkRegionEpoch p keys s = (r, s') ->
  heap s !! p = Some ri ->
  exists l,
    rpcs (trace s') = rpcs (trace s) ++ l
    /\ heap s' !! p = Some (mkRegionInfo (Region ri) (hintedLeader (Leader ri) l))
    /\ forall p0 ri0,
         p0 <> p -> heap s !! p0 = Some ri0 -> heap s' !! p0 = Some ri0.
Proof.
  intros H Hp.
  destruct (sendSplitRegionRequest_caller env checkRegionEpoch _ _ _ _ _ _ H Hp)
    as (l & Hl & _ & Hc).
  exists l. split; [exact Hl|]. split; [exact Hc|].
  intros p0 ri0 Hne Hp0. unfold sendSplitRegionRequest in H.
  apply with_deferred_inv in H as (s1 & cl & H & _ & _ & Hh & _ & _).
  destruct (retry_caller env checkRegionEpoch _ _ _ _ _ _ _ p0 ri0 ri H Hp0 Hp)
    as (l0 & _ & Hc0).
  rewrite Hh, Hc0. destruct (decide (p = p0)); [congruence|]. now destruct ri0.
Qed.

(** Two objects; the store names peer 12 while the first is split: the
    first object gets that leader, the second is untouched. *)
Lemma call_writes_only_the_leader_of_its_region_info_witness :
  let run := sendSplitRegionRequest scripted epochDominates 0%nat [[Byte.x6d]]
               twoObjects in
  exists l,
    rpcs (trace (snd run)) = rpcs (trace twoObjects) ++ l
    /\ heap (snd run) !! 0%nat
       = Some (mkRegionInfo (Region ri1) (hintedLeader (Leader ri1) l))
    /\ forall p0 ri0,
         p0 <> 0%nat -> heap twoObjects !! p0 = Some ri0 ->
         heap (snd run) !! p0 = Some ri0.
Proof.
  intros run.
  apply (call_writes_only_the_leader_of_its_region_info scripted epochDominates
           0%nat [[Byte.x6d]] twoObjects (fst run) (snd run) ri1).
  - apply surjective_pairing.
  - reflexivity.
Defined.

(** X11: a region without peers whose leader cannot be used is refused
    before PD, a store or the cache is touched, by both entry points: by
    the single-key split, when the leader is nil, with the no-peer error
    that does not name the region (line 141); by the batch path, when the
    leader is nil or has no identifier, with the no-peer error that names
    it (lines 258-259). *)
Theorem region_without_peer_fails_before_any_call
    {W} (env : Env W) checkRegionEpoch p keys key s ri :
  heap s !! p = Some ri ->
  Peers (Region ri) = [] ->
  (Leader ri = None ->
   SplitRegion env p key s = (Err [ErrRestoreNoPeerUnnamed], s))
  /\ (Leader ri = None \/ (exists l, Leader ri = Some l /\ Peer_Id l = 0) ->
      sendSplitRegionRequest env checkRegionEpoch p keys s
      = (Err [ErrRestoreNoPeer (Region_Id (Region ri))], s)).
Proof.
  intros Hp Hpeers. split.
  - intros Hl. unfold SplitRegion, with_deferred, bind, load. cbn.
    rewrite Hp, Hl, Hpeers. cbn. now destruct s.
  - intros Hl.
    assert (Hc : choosePeer ri = None).
    { rewrite choosePeer_spec, Hpeers.
      destruct Hl as [->|(l & -> & ->)]; reflexivity. }
    unfold sendSplitRegionRequest, with_deferred.
    change splitRegionMaxRetryTime with (S 3).
    rewrite (no_peer_fails_without_retry env checkRegionEpoch 3 [] p keys
               (set_deferred [] s) ri Hp Hc).
    cbn. now destruct s.
Qed.

(** A region without peers and without leader. *)
Lemma region_without_peer_fails_before_any_call_witness :
  SplitRegion scripted 0%nat [Byte.x6d] peerless
  = (Err [ErrRestoreNoPeerUnnamed], peerless)
  /\ sendSplitRegionRequest scripted epochDominates 0%nat [[Byte.x6d]] peerless
     = (Err [ErrRestoreNoPeer 1], peerless).
Proof.
  destruct (region_without_peer_fails_before_any_call scripted epochDominates
              0%nat [[Byte.x6d]] [Byte.x6d] peerless _ eq_refl eq_refl)
    as [H1 H2].
  split; [exact (H1 eq_refl)|exact (H2 (or_introl eq_refl))].
Defined.

(** ** The address of the PD API *)

Lemma TrimRight_empty s cutset :
  strings_TrimRight s cutset = EmptyString <-> allInCutset s cutset = true.
Proof.
  induction s as [|c rest IH]; cbn; [tauto|].
  destruct (strings_TrimRight rest cutset) as [|d t].
  - destruct (inCutset c cutset); cbn; [tauto|]. split; discriminate.
  - split; [discriminate|]. intros H. apply andb_true_iff in H as [_ H].
    apply IH in H. discriminate.
Qed.

Lemma TrimRight_cons c rest cutset :
  strings_TrimRight (String c rest) cutset
  = if allInCutset (String c rest) cutset then EmptyString
    else String c (strings_TrimRight rest cutset).
Proof.
  cbn. pose proof (TrimRight_empty rest cutset) as H.
  destruct (strings_TrimRight rest cutset) as [|d t].
  - rewrite (proj1 H eq_refl), andb_true_r. reflexivity.
  - destruct (allInCutset rest cutset); [discriminate (proj2 H eq_refl)|].
    now rewrite andb_false_r.
Qed.

Lemma TrimRight_split s cutset :
  exists tail,
    s = strings_TrimRight s cutset +:+ tail /\ allInCutset tail cutset = true.
Proof.
  induction s as [|c rest (tail & E & Hall)].
  - exists EmptyString. auto.
  - rewrite TrimRight_cons. destruct (allInCutset (String c rest) cutset) eqn:Ha.
    + exists (String c rest). auto.
    + exists tail. split; [|assumption].
      change (String c rest = String c (strings_TrimRight rest cutset +:+ tail)).
      now f_equal.
Qed.

Lemma TrimRight_lastChar s cutset c :
  lastChar (strings_TrimRight s cutset) = Some c -> inCutset c cutset = false.
Proof.
  induction s as [|d rest IH]; [discriminate|].
  cbn [strings_TrimRight].
  destruct (strings_TrimRight rest cutset) as [|d' t] eqn:E.
  - destruct (inCutset d cutset) eqn:Hd; [discriminate|]. cbn. congruence.
  - cbn [lastChar]. exact IH.
Qed.

Lemma allInCutset_slashes tail :
  allInCutset tail "/" = true -> exists n, tail = slashes n.
Proof.
  induction tail as [|c rest IH]; cbn.
  - exists 0%nat. reflexivity.
  - rewrite orb_false_r. intros H. apply andb_true_iff in H as [Hc H].
    destruct (IH H) as [n ->]. apply Ascii.eqb_eq in Hc as ->.
    exists (S n). reflexivity.
Qed.

Lemma HasPrefix_http_TrimRight s :
  strings_HasPrefix s "http" = true ->
  strings_HasPrefix (strings_TrimRight s "/") "http" = true.
Proof.
  unfold strings_HasPrefix.
  destruct s as [|c1 [|c2 [|c3 [|c4 rest]]]]; cbn [String.prefix];
    try discriminate;
    repeat match goal with
           | |- context [Ascii.ascii_dec ?a ?b] =>
               destruct (Ascii.ascii_dec a b); [subst|discriminate]
           | |- (if ?b then _ else _) = true -> _ =>
               destruct b eqn:?; [|discriminate]
           end.
  all: try discriminate.
  intros _. rewrite !TrimRight_cons. cbn.
  now destruct (strings_TrimRight rest "/").
Qed.

Lemma getPDAPIAddr_empty {W Rule} (api : Api W Rule) w :
  getPDAPIAddr api w = EmptyString <-> pd_GetLeaderAddr api w = EmptyString.
Proof.
  unfold getPDAPIAddr.
  destruct (String.eqb_spec (pd_GetLeaderAddr api w) "") as [->|Hne].
  { cbn. tauto. }
  split; [|contradiction]. cbn [negb andb]. intros H. exfalso.
  assert (Hp : strings_HasPrefix
                 (if negb (strings_HasPrefix (pd_GetLeaderAddr api w) "http")
                  then "http://" +:+ pd_GetLeaderAddr api w
                  else pd_GetLeaderAddr api w) "http" = true).
  { destruct (strings_HasPrefix (pd_GetLeaderAddr api w) "http") eqn:E; cbn.
    - exact E.
    - unfold strings_HasPrefix. cbn.
      repeat (destruct (Ascii.ascii_dec _ _); [|congruence]).
      now destruct (pd_GetLeaderAddr api w). }
  apply HasPrefix_http_TrimRight in Hp. rewrite H in Hp. discriminate.
Qed.

(** X12: the address of the PD API is the address of the leader as the PD
    client knows it, with http:// put before it unless it is empty or
    starts with http already, and without its trailing slashes.  So it
    never ends with a slash, it is empty exactly when the leader address
    is, and otherwise it starts with http. *)
Theorem getPDAPIAddr_normalises_the_leader_address
    {W Rule} (api : Api W Rule) w :
  let leader := pd_GetLeaderAddr api w in
  let addr := getPDAPIAddr api w in
  (exists n,
      (if String.eqb leader "" || strings_HasPrefix leader "http"
       then leader else "http://" +:+ leader)
      = addr +:+ slashes n)
  /\ (forall c, lastChar addr = Some c -> inCutset c "/" = false)
  /\ (addr = EmptyString <-> leader = EmptyString)
  /\ (leader <> EmptyString -> strings_HasPrefix addr "http" = true).
Proof.
  intros leader addr. split_and!.
  - unfold addr, getPDAPIAddr. fold leader.
    rewrite <- negb_orb.
    destruct (String.eqb leader "" || strings_HasPrefix leader "http"); cbn [negb].
    + destruct (TrimRight_split leader "/") as (tail & E & Hall).
      apply allInCutset_slashes in Hall as [n ->]. eauto.
    + destruct (TrimRight_split ("http://" +:+ leader) "/") as (tail & E & Hall).
      apply allInCutset_slashes in Hall as [n ->]. eauto.
  - intros c. apply TrimRight_lastChar.
  - apply getPDAPIAddr_empty.
  - intros Hne. unfold addr, getPDAPIAddr. fold leader.
    apply HasPrefix_http_TrimRight.
    destruct (String.eqb_spec leader "") as [E|_]; [contradiction|].
    cbn [negb andb].
    destruct (strings_HasPrefix leader "http") eqn:E; cbn; [exact E|].
    unfold strings_HasPrefix. cbn.
    repeat (destruct (Ascii.ascii_dec _ _); [|congruence]).
    now destruct leader.
Qed.

(** ** The calls to the PD API *)

Section PdApiFacts.

Context {W Rule : Type}.
Variable api : Api W Rule.

Lemma requests_app l1 l2 : requests (l1 ++ l2) = requests l1 ++ requests l2.
Proof. apply omap_app. Qed.

Lemma obtained_app l1 l2 : obtained (l1 ++ l2) = obtained l1 ++ obtained l2.
Proof. apply omap_app. Qed.

Lemma closed_app l1 l2 : closed (l1 ++ l2) = closed l1 ++ closed l2.
Proof. apply omap_app. Qed.

Lemma failures_app l1 l2 : failures (l1 ++ l2) = failures l1 ++ failures l2.
Proof. apply omap_app. Qed.

Lemma call_Do_inv req s r s' :
  call_Do api req s = (r, s') ->
  match req with
  | None => r = None /\ s' = s
  | Some q =>
      exists ans, r = Some ans /\ api_log s' = api_log s ++ [ApiDo q ans]
                  /\ (ans, api_world s') = http_Do api q (api_world s)
  end.
Proof.
  unfold call_Do. destruct req as [q|]; [|now inversion 1].
  destruct (http_Do api q (api_world s)) as [ans w]. inversion 1; subst. eauto.
Qed.

Lemma call_Close_inv res s r s' :
  call_Close api res s = (r, s') ->
  exists err, r = Some err /\ api_log s' = api_log s ++ [ApiClose res err].
Proof.
  unfold call_Close. destruct (body_Close api res (api_world s)) as [err w].
  inversion 1; subst. eauto.
Qed.

Lemma call_ReadAll_inv res s r s' :
  call_ReadAll api res s = (r, s') ->
  exists ans, r = Some ans /\ api_log s' = api_log s ++ [ApiReadAll res ans].
Proof.
  unfold call_ReadAll. destruct (ioutil_ReadAll api res (api_world s)) as [ans w].
  inversion 1; subst. eauto.
Qed.

Lemma api_bind_inv {A B} (m : @ApiM W A) (k : A -> @ApiM W B) s r s' :
  api_bind m k s = (r, s') ->
  (exists a s1, m s = (Some a, s1) /\ k a s1 = (r, s'))
  \/ (m s = (None, s') /\ r = None).
Proof.
  unfold api_bind. destruct (m s) as [[a|] s1]; intros E.
  - left. eauto.
  - right. now inversion E.
Qed.

(** The loop of lines 457-471. *)
Lemma labelEach_log addr b stores : forall s r s',
  labelEach api addr b stores s = (r, s') ->
  exists evs n,
    api_log s' = api_log s ++ evs
    /\ (n <= length stores)%nat
    /\ map Some (requests evs) = map (labelRequest api addr b) (take n stores)
    /\ closed evs = obtained evs
    /\ match r with
       | Some None => n = length stores /\ failures evs = []
       | Some (Some e) => exists code, e = ErrApiExternal code /\ failures evs = [code]
       | None => exists id, stores !! n = Some id
                            /\ labelRequest api addr b id = None
       end.
Proof.
  induction stores as [|id rest IH]; intros s r s' E.
  - inversion E; subst. exists [], 0%nat. rewrite app_nil_r. cbn.
    split_and!; auto.
  - cbn [labelEach] in E.
    apply api_bind_inv in E as [(ans & s1 & E1 & E)|(E1 & ->)];
      apply call_Do_inv in E1; destruct (labelRequest api addr b id) as [q|] eqn:Hq;
      try (destruct E1 as [? _]; discriminate).
    2:{ destruct E1 as (? & ? & _). discriminate. }
    2:{ destruct E1 as [_ ->]. exists [], 0%nat. rewrite app_nil_r. cbn.
        split_and!; auto; [lia|]. eauto. }
    destruct E1 as (ans' & Ha & Hlog1 & _). injection Ha as <-.
    destruct ans as [code|res].
    { inversion E; subst. exists [ApiDo q (inl code)], 1%nat. cbn.
      rewrite Hq. split_and!; auto; [lia|]. eauto. }
    apply api_bind_inv in E as [(err & s2 & E2 & E)|(E2 & ->)];
      apply call_Close_inv in E2 as (err' & He & Hlog2); [|discriminate].
    injection He as <-. destruct err as [code|].
    { inversion E; subst.
      exists [ApiDo q (inr res); ApiClose res (Some code)], 1%nat. cbn.
      rewrite Hq, Hlog2, Hlog1, <- app_assoc. split_and!; auto; [lia|]. eauto. }
    apply IH in E as (evs & n & Hlog & Hn & Hreq & Hcl & Hr).
    exists ([ApiDo q (inr res); ApiClose res None] ++ evs), (S n).
    rewrite requests_app, closed_app, obtained_app, failures_app. cbn.
    rewrite Hlog, Hlog2, Hlog1, <- !app_assoc, Hq, Hreq, Hcl.
    split_and!; auto; [lia|].
    destruct r as [[e|]|]; auto. destruct Hr as [-> Hr]. auto.
Qed.

(** A request sent once, the body of whose response is closed at once
    (lines 430-434 and 443-447). *)
Lemma send_and_close_inv req s r s' :
  api_bind (call_Do api req) (fun res =>
    match res with
    | inl err => api_ret (Some (ErrApiExternal err))
    | inr res => api_bind (call_Close api res) (fun err => api_ret (traced err))
    end) s = (r, s') ->
  exists evs,
    api_log s' = api_log s ++ evs
    /\ match req with
       | None => r = None /\ evs = []
       | Some q =>
           (exists code, evs = [ApiDo q (inl code)]
                         /\ r = Some (Some (ErrApiExternal code)))
           \/ (exists res err, evs = [ApiDo q (inr res); ApiClose res err]
                               /\ r = Some (traced err))
       end.
Proof.
  intros E.
  apply api_bind_inv in E as [(ans & s1 & E1 & E)|(E1 & ->)];
    apply call_Do_inv in E1; destruct req as [q|];
    try (destruct E1 as [? _]; discriminate).
  2:{ destruct E1 as (? & ? & _). discriminate. }
  2:{ destruct E1 as [_ ->]. exists []. rewrite app_nil_r. auto. }
  destruct E1 as (ans' & Ha & Hlog1 & _). injection Ha as <-.
  destruct ans as [code|res].
  { inversion E; subst. exists [ApiDo q (inl code)]. split; [exact Hlog1|].
    left. eauto. }
  apply api_bind_inv in E as [(err & s2 & E2 & E)|(E2 & ->)];
    apply call_Close_inv in E2 as (err' & He & Hlog2); [|discriminate].
  injection He as <-. inversion E; subst.
  exists [ApiDo q (inr res); ApiClose res err].
  rewrite Hlog2, Hlog1, <- app_assoc. split; [reflexivity|]. right. eauto.
Qed.

End PdApiFacts.

(** X13: when PD reports no leader, none of the four calls sends a
    request; GetPlacementRule fails as a split that failed, the other
    three with the error that the PD leader was not found. *)
Theorem without_a_leader_nothing_is_requested
    {W Rule} (api : Api W Rule) s groupID ruleID rule stores labelKey labelValue :
  pd_GetLeaderAddr api (api_world s) = EmptyString ->
  GetPlacementRule api groupID ruleID s
  = (Some (zeroRule api, Some ErrRestoreSplitFailed_noLeader), s)
  /\ SetPlacementRule api rule s = (Some (Some ErrPDLeaderNotFound), s)
  /\ DeletePlacementRule api groupID ruleID s
     = (Some (Some ErrPDLeaderNotFound), s)
  /\ SetStoresLabel api stores labelKey labelValue s
     = (Some (Some ErrPDLeaderNotFound), s).
Proof.
  intros Hl. apply getPDAPIAddr_empty in Hl.
  unfold GetPlacementRule, SetPlacementRule, DeletePlacementRule, SetStoresLabel.
  rewrite Hl. cbn. auto.
Qed.

(** A PD without leader: the rule is not fetched and no store is
    labelled. *)
Lemma without_a_leader_nothing_is_requested_witness :
  GetPlacementRule scriptedApi "pd" "default" noLeader
  = (Some (EmptyString, Some ErrRestoreSplitFailed_noLeader), noLeader)
  /\ SetStoresLabel scriptedApi [1; 2] "zone" "z1" noLeader
     = (Some (Some ErrPDLeaderNotFound), noLeader).
Proof.
  destruct (without_a_leader_nothing_is_requested scriptedApi noLeader
              "pd" "default" EmptyString [1; 2] "zone" "z1" eq_refl)
    as (H1 & _ & _ & H4).
  split; [exact H1|exact H4].
Defined.

(** X14: SetStoresLabel labels the stores one after the other, in the
    order given, each with a request to the address read when the call
    began and with the same body; it stops at the first request or close
    that fails and returns that error, the stores before it staying
    labelled; it panics at the first store whose URL does not parse; and
    it closes the body of every response it gets. *)
Theorem SetStoresLabel_labels_the_stores_in_order_until_one_fails
    {W Rule} (api : Api W Rule) stores labelKey labelValue s :
  exists evs n,
    api_log (snd (SetStoresLabel api stores labelKey labelValue s))
    = api_log s ++ evs
    /\ (n <= length stores)%nat
    /\ map Some (requests evs)
       = map (labelRequest api (getPDAPIAddr api (api_world s))
                           (labelBody labelKey labelValue))
             (take n stores)
    /\ closed evs = obtained evs
    /\ match fst (SetStoresLabel api stores labelKey labelValue s) with
       | Some None => n = length stores /\ failures evs = []
       | Some (Some ErrPDLeaderNotFound) => evs = []
       | Some (Some (ErrApiExternal code)) => failures evs = [code]
       | Some (Some ErrRestoreSplitFailed_noLeader) => False
       | None =>
           exists id,
             stores !! n = Some id
             /\ labelRequest api (getPDAPIAddr api (api_world s))
                             (labelBody labelKey labelValue) id = None
       end.
Proof.
  unfold SetStoresLabel.
  destruct (String.eqb (getPDAPIAddr api (api_world s)) "").
  { exists [], 0%nat. cbn. rewrite app_nil_r. split_and!; auto. lia. }
  destruct (labelEach api _ _ stores s) as [r s'] eqn:E.
  apply labelEach_log in E as (evs & n & Hlog & Hn & Hreq & Hcl & Hr).
  exists evs, n. cbn [fst snd]. split_and!; auto.
  destruct r as [[e|]|]; auto. destruct Hr as (code & -> & Hf). exact Hf.
Qed.

(** X15: SetPlacementRule and DeletePlacementRule send at most one
    request, the one of the method and path of the call, and close the
    body of the response they get; what they return is the error of the
    request or else of the close, whatever the response says. *)
Theorem placement_rule_is_set_and_deleted_by_one_request
    {W Rule} (api : Api W Rule) rule groupID ruleID s :
  (exists evs,
      api_log (snd (SetPlacementRule api rule s)) = api_log s ++ evs
      /\ (length (requests evs) <= 1)%nat
      /\ closed evs = obtained evs
      /\ (forall req, req ∈ requests evs ->
            Method req = "POST"
            /\ URL req = getPDAPIAddr api (api_world s)
                         +:+ path_Join api ["/pd/api/v1/config/rule"])
      /\ (forall req code, ApiDo req (inl code) ∈ evs ->
            fst (SetPlacementRule api rule s) = Some (Some (ErrApiExternal code)))
      /\ (forall res err, ApiClose res err ∈ evs ->
            fst (SetPlacementRule api rule s) = Some (traced err)))
  /\ (exists evs,
        api_log (snd (DeletePlacementRule api groupID ruleID s)) = api_log s ++ evs
        /\ (length (requests evs) <= 1)%nat
        /\ closed evs = obtained evs
        /\ (forall req, req ∈ requests evs ->
              Method req = "DELETE" /\ Body req = None
              /\ URL req = getPDAPIAddr api (api_world s)
                           +:+ path_Join api ["/pd/api/v1/config/rule"; groupID; ruleID])
        /\ (forall req code, ApiDo req (inl code) ∈ evs ->
              fst (DeletePlacementRule api groupID ruleID s)
              = Some (Some (ErrApiExternal code)))
        /\ (forall res err, ApiClose res err ∈ evs ->
              fst (DeletePlacementRule api groupID ruleID s) = Some (traced err))).
Proof.
  assert (Hshape : forall method url body s r s',
    api_bind (call_Do api (http_NewRequest api method url body)) (fun res =>
      match res with
      | inl err => api_ret (Some (ErrApiExternal err))
      | inr res => api_bind (call_Close api res) (fun err => api_ret (traced err))
      end) s = (r, s') ->
    exists evs,
      api_log s' = api_log s ++ evs
      /\ (length (requests evs) <= 1)%nat
      /\ closed evs = obtained evs
      /\ (forall req, req ∈ requests evs ->
            Method req = method /\ Body req = body /\ URL req = url)
      /\ (forall req code, ApiDo req (inl code) ∈ evs ->
            r = Some (Some (ErrApiExternal code)))
      /\ (forall res err, ApiClose res err ∈ evs -> r = Some (traced err))).
  { intros method url body s0 r s' E.
    apply send_and_close_inv in E as (evs & Hlog & Hcase).
    exists evs. split; [exact Hlog|].
    unfold http_NewRequest in Hcase. destruct (url_ok api url).
    - destruct Hcase as [(code & -> & ->)|(res & err & -> & ->)]; cbn;
        (split_and!; auto; [intros req Hin|intros req c Hin|intros res0 e Hin]);
        repeat (apply elem_of_cons in Hin as [Hin|Hin]; [|]);
        try (now apply elem_of_nil in Hin); try discriminate;
        try (subst; cbn; auto; fail); try (now inversion Hin).
    - destruct Hcase as [-> ->]. cbn. split_and!; auto;
        intros; match goal with X : _ ∈ [] |- _ => now apply elem_of_nil in X end. }
  split.
  - unfold SetPlacementRule.
    destruct (String.eqb (getPDAPIAddr api (api_world s)) "").
    { exists []. cbn. rewrite app_nil_r. split_and!; auto;
        intros; match goal with X : _ ∈ [] |- _ => now apply elem_of_nil in X end. }
    match goal with
    | |- context [api_bind ?m ?k s] => destruct (api_bind m k s) as [r s'] eqn:E
    end.
    apply Hshape in E as (evs & E1 & E2 & E3 & E4 & E5 & E6).
    exists evs. cbn [fst snd]. split_and!; auto.
    intros req Hin. apply E4 in Hin. tauto.
  - unfold DeletePlacementRule.
    destruct (String.eqb (getPDAPIAddr api (api_world s)) "").
    { exists []. cbn. rewrite app_nil_r. split_and!; auto;
        intros; match goal with X : _ ∈ [] |- _ => now apply elem_of_nil in X end. }
    match goal with
    | |- context [api_bind ?m ?k s] => destruct (api_bind m k s) as [r s'] eqn:E
    end.
    apply Hshape in E as (evs & E1 & E2 & E3 & E4 & E5 & E6).
    exists evs. cbn [fst snd]. split_and!; auto.
Qed.

(** X16: GetPlacementRule sends at most one GET request, reads the body
    of the response, and closes it only when it could be read to the end:
    after a read error the call returns with the body open.  The error of
    the close and the status of the response play no part in the result:
    when the body was read, the rule and the error returned are those of
    the decoding of its bytes. *)
Theorem GetPlacementRule_closes_only_a_body_it_could_read
    {W Rule} (api : Api W Rule) groupID ruleID s :
  exists evs,
    api_log (snd (GetPlacementRule api groupID ruleID s)) = api_log s ++ evs
    /\ (length (requests evs) <= 1)%nat
    /\ closed evs = readInFull evs
    /\ (forall req, req ∈ requests evs ->
          Method req = "GET" /\ Body req = None
          /\ URL req = getPDAPIAddr api (api_world s)
                       +:+ path_Join api ["/pd/api/v1/config/rule"; groupID; ruleID])
    /\ (forall res code, ApiReadAll res (inl code) ∈ evs ->
          obtained evs = [res] /\ closed evs = []
          /\ fst (GetPlacementRule api groupID ruleID s)
             = Some (zeroRule api, Some (ErrApiExternal code)))
    /\ (forall res b, ApiReadAll res (inr b) ∈ evs ->
          obtained evs = [res] /\ closed evs = [res]
          /\ fst (GetPlacementRule api groupID ruleID s)
             = Some (fst (json_Unmarshal api b (zeroRule api)),
                     traced (snd (json_Unmarshal api b (zeroRule api))))).
Proof.
  unfold GetPlacementRule.
  destruct (String.eqb (getPDAPIAddr api (api_world s)) "").
  { exists []. cbn. rewrite app_nil_r. split_and!; auto;
      intros; match goal with X : _ ∈ [] |- _ => now apply elem_of_nil in X end. }
  match goal with
  | |- context [api_bind ?m ?k s] => destruct (api_bind m k s) as [r s'] eqn:E
  end.
  cbn [fst snd].
  apply api_bind_inv in E as [(ans & s1 & E1 & E)|(E1 & ->)];
    apply call_Do_inv in E1; unfold http_NewRequest in E1;
    destruct (url_ok api _);
    try (destruct E1 as [? _]; discriminate).
  2:{ destruct E1 as (? & ? & _). discriminate. }
  2:{ destruct E1 as [_ ->]. exists []. rewrite app_nil_r. cbn. split_and!; auto;
        intros; match goal with X : _ ∈ [] |- _ => now apply elem_of_nil in X end. }
  destruct E1 as (ans' & Ha & Hlog1 & _). injection Ha as <-.
  destruct ans as [code|res].
  { inversion E; subst. eexists. split; [exact Hlog1|]. cbn.
    split_and!; auto;
      [intros req Hin|intros res0 c Hin|intros res0 b Hin];
      apply list_elem_of_singleton in Hin; try discriminate.
    subst req. auto. }
  apply api_bind_inv in E as [(b & s2 & E2 & E)|(E2 & ->)];
    apply call_ReadAll_inv in E2 as (b' & Hb & Hlog2); [|discriminate].
  injection Hb as <-. destruct b as [code|b].
  { inversion E; subst. eexists. rewrite Hlog2, Hlog1, <- app_assoc.
    split; [reflexivity|]. cbn.
    split_and!; auto;
      [intros req Hin|intros res0 c Hin|intros res0 b Hin];
      repeat (apply elem_of_cons in Hin as [Hin|Hin]; [|]);
      try (now apply elem_of_nil in Hin); try discriminate.
    - subst req. auto.
    - now inversion Hin. }
  apply api_bind_inv in E as [(err & s3 & E3 & E)|(E3 & ->)];
    apply call_Close_inv in E3 as (err' & He & Hlog3); [|discriminate].
  injection He as <-.
  destruct (json_Unmarshal api b (zeroRule api)) as [rule uerr] eqn:Hu.
  inversion E; subst. eexists. rewrite Hlog3, Hlog2, Hlog1, <- !app_assoc.
  split; [reflexivity|]. cbn.
  split_and!; auto;
    [intros req Hin|intros res0 c Hin|intros res0 b0 Hin];
    repeat (apply elem_of_cons in Hin as [Hin|Hin]; [|]);
    try (now apply elem_of_nil in Hin); try discriminate.
  - subst req. auto.
  - injection Hin as -> ->. now rewrite Hu.
Qed.

(** ** The lookups by key *)

Section LookupFacts.

Context {W : Type}.
Variable loc : Locator W.

(** The loop of lines 390-395 when every region has a leader slot. *)
Lemma appendRegionInfos_zip regions : forall leaders i regionInfos (s : state W),
  (i + length regions <= length leaders)%nat ->
  appendRegionInfos regions leaders i regionInfos s
  = (Ok (regionInfos ++ seq (length (heap s)) (length regions)),
     set_heap (heap s ++ zip_with mkRegionInfo regions (drop i leaders)) s).
Proof.
  induction regions as [|region rest IH]; intros leaders i acc s Hlen;
    cbn [appendRegionInfos length zip_with seq].
  - rewrite !app_nil_r. now destruct s.
  - cbn [length] in Hlen. destruct (leaders !! i) as [leader|] eqn:Hi.
    2:{ exfalso. apply lookup_ge_None in Hi. lia. }
    rewrite (drop_S _ _ _ Hi). cbn. unfold bind, alloc. cbn.
    rewrite IH by lia. cbn. rewrite length_app. cbn.
    rewrite <- !app_assoc. cbn. replace (length (heap s) + 1)%nat
      with (S (length (heap s))) by lia.
    reflexivity.
Qed.

(** The loop of lines 390-395 when the leaders run out. *)
Lemma appendRegionInfos_panics regions : forall leaders i regionInfos (s : state W),
  (i <= length leaders)%nat ->
  (length leaders < i + length regions)%nat ->
  fst (appendRegionInfos regions leaders i regionInfos s) = Panic.
Proof.
  induction regions as [|region rest IH]; intros leaders i acc s Hi Hlen;
    cbn [appendRegionInfos]; cbn [length] in Hlen.
  - exfalso. lia.
  - destruct (leaders !! i) as [leader|] eqn:E; [|reflexivity].
    apply lookup_lt_Some in E.
    unfold bind, alloc. cbn. apply IH; lia.
Qed.

(** The loop of lines 390-395 only adds objects. *)
Lemma appendRegionInfos_frame regions : forall leaders i regionInfos (s : state W),
  let s' := snd (appendRegionInfos regions leaders i regionInfos s) in
  storeCache s' = storeCache s /\ tlsConf s' = tlsConf s /\ trace s' = trace s
  /\ deferred s' = deferred s /\ world s' = world s
  /\ exists new, heap s' = heap s ++ new.
Proof.
  induction regions as [|region rest IH]; intros leaders i acc s; cbn.
  - split_and!; auto. exists []. now rewrite app_nil_r.
  - destruct (leaders !! i) as [leader|]; cbn.
    2:{ split_and!; auto. exists []. now rewrite app_nil_r. }
    unfold bind, alloc. cbn.
    destruct (IH leaders (S i) (acc ++ [length (heap s)])
                (set_heap (heap s ++ [mkRegionInfo region leader]) s))
      as (H1 & H2 & H3 & H4 & H5 & new & H6).
    split_and!; auto. exists (mkRegionInfo region leader :: new).
    rewrite H6. cbn. now rewrite <- app_assoc.
Qed.

End LookupFacts.

(** X17: ScanRegions pairs the regions PD returns with the leaders of the
    same index: it returns one fresh object for each region, in order,
    holding the region and its leader, writes nothing else, and ignores
    the leaders beyond the regions; when PD returns fewer leaders than
    regions the call panics. *)
Theorem ScanRegions_pairs_regions_with_leaders
    {W} (loc : Locator W) key endKey limit s regions leaders w :
  pd_ScanRegions loc key endKey limit (world s) = (inr (regions, leaders), w) ->
  (length regions <= length leaders)%nat
  /\ ScanRegions loc key endKey limit s
     = (Ok (seq (length (heap s)) (length regions)),
        set_heap (heap s ++ zip_with mkRegionInfo regions leaders) (set_world w s))
  \/ (length leaders < length regions)%nat
     /\ fst (ScanRegions loc key endKey limit s) = Panic.
Proof.
  intros Hpd. unfold ScanRegions, bind, or_return, call_pd_ScanRegions.
  rewrite Hpd. cbn.
  destruct (le_lt_dec (length regions) (length leaders)) as [Hle|Hlt].
  - left. split; [exact Hle|].
    rewrite appendRegionInfos_zip by (cbn; lia). reflexivity.
  - right. split; [exact Hlt|]. apply appendRegionInfos_panics; cbn; lia.
Qed.

(** Two regions and three leaders, then two regions and one leader. *)
Lemma ScanRegions_pairs_regions_with_leaders_witness :
  ScanRegions (scanFinds [Some (mkPeer 21 1); Some p11; None]) [] [] 2
              (initial tt [ri1])
  = (Ok [1%nat; 2%nat],
     initial tt [ri1; mkRegionInfo r2 (Some (mkPeer 21 1)); mkRegionInfo r1' (Some p11)])
  /\ fst (ScanRegions (scanFinds [None]) [] [] 2 (initial tt [ri1])) = Panic.
Proof.
  split.
  - destruct (ScanRegions_pairs_regions_with_leaders
                (scanFinds [Some (mkPeer 21 1); Some p11; None]) [] [] 2
                (initial tt [ri1]) [r2; r1'] [Some (mkPeer 21 1); Some p11; None] tt
                eq_refl) as [[_ H]|[Hlt _]].
    + exact H.
    + cbn in Hlt. lia.
  - destruct (ScanRegions_pairs_regions_with_leaders
                (scanFinds [None]) [] [] 2
                (initial tt [ri1]) [r2; r1'] [None] tt eq_refl) as [[Hle _]|[_ H]].
    + cbn in Hle. lia.
    + exact H.
Defined.

(** X18: the lookups by key leave the client alone: GetRegion and
    ScanRegions keep the store cache, the TLS setting and the log of the
    split path as they are and only add objects to the heap, whatever PD
    answers; so a store once cached is still cached after them. *)
Theorem lookups_by_key_leave_the_client_alone
    {W} (env : Env W) checkRegionEpoch (loc : Locator W) key endKey limit s :
  (let s' := snd (GetRegion loc key s) in
   storeCache s' = storeCache s /\ tlsConf s' = tlsConf s /\ trace s' = trace s
   /\ (exists new, heap s' = heap s ++ new)
   /\ later env checkRegionEpoch s s')
  /\ (let s' := snd (ScanRegions loc key endKey limit s) in
      storeCache s' = storeCache s /\ tlsConf s' = tlsConf s /\ trace s' = trace s
      /\ (exists new, heap s' = heap s ++ new)
      /\ later env checkRegionEpoch s s').
Proof.
  assert (Hlater : forall s' : state W,
            storeCache s' = storeCache s -> tlsConf s' = tlsConf s ->
            later env checkRegionEpoch s s').
  { intros s' H1 H2. eapply later_outside; [exact H1|exact H2|apply later_refl]. }
  split.
  - unfold GetRegion, bind, or_return, call_pd_GetRegion.
    destruct (pd_GetRegion loc key (world s)) as [[e|[r|]] w]; cbn;
      (split_and!; [reflexivity..| |apply Hlater; reflexivity]);
      eexists; try reflexivity; now rewrite app_nil_r.
  - unfold ScanRegions, bind, or_return, call_pd_ScanRegions.
    destruct (pd_ScanRegions loc key endKey limit (world s)) as [[e|found] w]; cbn.
    + split_and!; [reflexivity..| |apply Hlater; reflexivity].
      exists []. now rewrite app_nil_r.
    + destruct (appendRegionInfos_frame (fst found) (snd found) 0 []
                  (set_world w s)) as (H1 & H2 & H3 & _ & _ & H6).
      cbn in H1, H2, H3, H6. split_and!; auto.
Qed.

(** ** The txn restore task *)

(** Running the task against every answer of its steps. *)
Ltac run_task :=
  unfold RunRestoreTxn, RunRestoreTxn_body, then_, ask, call, defer, check,
    goes_on, returns, run_deferred; cbn;
  repeat (match goal with
          | |- context [task_NewMgr ?t ?w] =>
              destruct (task_NewMgr t w) as [[?|] ?]
          | |- context [task_NewRestoreClient ?t ?w] =>
              destruct (task_NewRestoreClient t w) as [[?|] ?]
          | |- context [task_ReadBackupMeta ?t ?w] =>
              destruct (task_ReadBackupMeta t w) as [[?|] ?]
          | |- context [task_InitBackupMeta ?t ?w] =>
              destruct (task_InitBackupMeta t w) as [[?|] ?]
          | |- context [task_IsRawKvMode ?t ?w] =>
              destruct (task_IsRawKvMode t w) as [[|] ?]
          | |- context [task_GetFilesInTxnRange ?t ?w] =>
              destruct (task_GetFilesInTxnRange t w) as [[?|[|? ?]] ?]
          | |- context [task_ValidateFileRanges ?t ?f ?w] =>
              destruct (task_ValidateFileRanges t f w) as [[?|?] ?]
          | |- context [task_SplitRanges ?t ?r ?w] =>
              destruct (task_SplitRanges t r w) as [[?|] ?]
          | |- context [task_restorePreWork ?t ?w] =>
              destruct (task_restorePreWork t w) as [[?|] ?]
          | |- context [task_RestoreTxn ?t ?f ?w] =>
              destruct (task_RestoreTxn t f w) as [[?|] ?]
          | |- context [Online ?c] => destruct (Online c)
          end; cbn).

(** X19: however the task ends, it gives back what it took, the last
    taken first: the work done before the restore is undone when it
    succeeded, the restore client and the manager are closed when they
    were made, the context is cancelled, and the summary is written last;
    none of these calls is made before the task is over. *)
Theorem RunRestoreTxn_releases_what_it_took {W} (tasks : Tasks W) cfg w :
  exists body,
    task_log (snd (RunRestoreTxn tasks cfg w))
    = body ++ rev (omap release body) ++ [StSummary]
    /\ Forall (fun st => isCleanup st = false) body
    /\ task_deferred (snd (RunRestoreTxn tasks cfg w)) = [].
Proof.
  exists (List.filter (fun st => negb (isCleanup st))
                      (task_log (snd (RunRestoreTxn tasks cfg w)))).
  run_task; (split; [reflexivity|split; [repeat constructor|reflexivity]]).
Qed.

(** Membership in the short lists the runs of the task leave. *)
Ltac pick_elem H :=
  repeat (apply elem_of_cons in H as [H|H]);
  try (now apply elem_of_nil in H); try discriminate;
  try (injection H as -> ->); try subst.

(** X20: the task returns the error of the step that failed: that step
    is the only one that failed, and the last call before the cleanups.
    It returns its own error when the archive holds raw data, no step
    having failed.  And it returns nil in two cases only: when the archive
    holds no file for the range, and then nothing is restored and the task
    is not marked as succeeded; or when the files found were handed to
    the restore and it succeeded, and then the task is marked once.  The
    progress channel is closed exactly when the task is marked as
    succeeded, and the progress is started at most once. *)
Theorem RunRestoreTxn_returns_the_first_failure {W} (tasks : Tasks W) cfg w :
  let r := fst (RunRestoreTxn tasks cfg w) in
  let log := task_log (snd (RunRestoreTxn tasks cfg w)) in
  match r with
  | None =>
      stepFailures log = [] /\ rawSeen log = false
      /\ (filesFound log = [[]] /\ restores log = [] /\ successMarks log = 0%nat
          \/ exists files,
               files <> [] /\ filesFound log = [files]
               /\ restores log = [(files, None)] /\ successMarks log = 1%nat)
  | Some ErrRestoreModeMismatch =>
      stepFailures log = [] /\ rawSeen log = true
      /\ filesFound log = [] /\ restores log = [] /\ successMarks log = 0%nat
  | Some (ErrOfStep code) =>
      stepFailures log = [code] /\ successMarks log = 0%nat
      /\ stepFailures
           (option_list
              (last (List.filter (fun st => negb (isCleanup st)) log)))
         = [code]
      /\ (restores log = [] \/ exists files, restores log = [(files, Some code)])
  end
  /\ progressCloses log = successMarks log
  /\ (length (progressStarts log) <= 1)%nat.
Proof.
  cbv zeta. run_task; split_and!; auto; try lia;
    try (left; split_and!; reflexivity);
    right; eexists; repeat split; try reflexivity; discriminate.
Qed.

(** X21: what the task restores is what it found: the files validated are
    the files found in the archive, and there is at least one; the ranges
    split are the ranges of that validation; the progress is started for as
    many steps as there are ranges and files together; and the files
    restored are the files validated, after a split and a preparation that
    did not fail. *)
Theorem RunRestoreTxn_restores_the_files_it_found {W} (tasks : Tasks W) cfg w :
  let log := task_log (snd (RunRestoreTxn tasks cfg w)) in
  (forall fr, fr ∈ validated log -> fst fr <> [] /\ filesFound log = [fst fr])
  /\ splits log = map snd (validated log)
  /\ progressStarts log
     = map (fun fr => Z.of_nat (length (snd fr) + length (fst fr))) (validated log)
  /\ (forall fe, fe ∈ restores log ->
        exists ranges,
          validated log = [(fst fe, ranges)]
          /\ StSplitRanges ranges None ∈ log
          /\ StRestorePreWork None ∈ log).
Proof.
  cbv zeta. run_task; split_and!; try reflexivity;
    try (intros x Hx; pick_elem Hx; cbn; split; [discriminate|reflexivity]);
    intros x Hx; pick_elem Hx; cbn; eexists; split_and!; try reflexivity;
    repeat first [apply list_elem_of_here | apply list_elem_of_further].
Qed.

(** An archive with two files in one range, restored without a failure;
    then the same with a restore client that cannot be made. *)
Example RunRestoreTxn_runs :
  task_log (snd (RunRestoreTxn scriptedTasks (mkRestoreConfig false true)
                   (mkTaskScript [] false [1; 2] [7])))
  = [StAdjust; StWithCancel; StNewMgr None; StNewRestoreClient None;
     StSetRateLimit; StSetConcurrency; StSetSwitchModeInterval;
     StReadBackupMeta None; StRecordSize; StInitBackupMeta None;
     StIsRawKvMode false; StGetFilesInTxnRange (inr [1; 2]); StCollectInt 2;
     StValidateFileRanges [1; 2] (inr [7]); StStartProgress 3 false;
     StSplitRanges [7] None; StRestorePreWork None; StRestoreTxn [1; 2] None;
     StUpdateChClose; StSetSuccessStatus true;
     StRestorePostWork; StClientClose; StMgrClose; StCancel; StSummary]
  /\ RunRestoreTxn scriptedTasks (mkRestoreConfig false true)
       (mkTaskScript [None; Some 9] false [1; 2] [7])
     = (Some (ErrOfStep 9),
        mkTaskState (mkTaskScript [] false [1; 2] [7])
          [StAdjust; StWithCancel; StNewMgr None; StNewRestoreClient (Some 9);
           StMgrClose; StCancel; StSummary] []).
Proof. split; vm_compute; reflexivity. Qed.
